(** * Temporal graph, attention windows and Markovian carryover

    A shallow embedding of the core of the repository:
    - [totg_core_fixed.py]: [TemporalGraph] with its adjacency maps, the
      sorted timestamp index and the BFS traversals;
    - [totg_attention_fixed.py]: the attention heads and the candidate
      query of [compute_forward_attention], and [SemanticSimilarity] with
      its TF-IDF vectors and their cosine;
    - [totg_markovian.py]: [TemporalCarryover], [_extract_carryover],
      [_identify_causal_relationships] and the chunk loop.

    Conventions of the embedding.
    - A Python [str] is a [string] holding its UTF-8 bytes; comparing the
      bytes lexicographically orders strings as Python orders them by code
      point.
    - A naive UTC [datetime] is the number of microseconds since the epoch,
      a [Z]; [timedelta(days=d)] is [d * 86400000000].  Every timestamp of
      the model is naive: a graph that holds a timezone-aware timestamp
      beside naive ones, where [bisect.insort] and the comparisons raise
      [TypeError], is outside the model.  The arithmetic is that of [Z]:
      Python keeps a datetime within the years 1 to 9999 and raises
      [OverflowError] beyond, so a theorem that says that a call returns
      assumes that the sums the call computes are [representable].
    - A [dict] is a [gmap]; a [set] of ids is the duplicate-free list of
      its elements in insertion order, and the order in which Python
      iterates over it is a parameter [iter] of the functions that do so.
    - A [dict] whose order of insertion shows in a result is the list of
      its items.
    - A [float] is a binary64 number of [PrimFloat]; [math.log] is a
      parameter, and so is the way the builtin [sum] adds.
    - A [while] loop is a [Fixpoint] on a fuel; the function that runs it
      gives it a fuel ([bfs_fuel], [docs_fuel], the days of the span)
      that is proved sufficient below. *)

From Stdlib Require Import ZArith String Ascii List Lia Bool Permutation Sorted.
From Stdlib Require Import OrdersEx PrimFloat Uint63.
From stdpp Require Import base option list gmap strings pretty.

#[local] Set Warnings "-clear-no-such-hyp,-inexact-float".

Local Open Scope string_scope.
Local Open Scope list_scope.
Local Open Scope Z_scope.

(** ** Python values *)

(** What a call does: it returns, it raises, or the model ran out of fuel
    before the loop ended. *)
Inductive result (A : Type) : Type :=
| Ok (a : A)
| KeyError (key : string)
| ValueError (msg : string)
| AttributeError (attr : string)
| Unfinished.
Arguments Ok {A} a.
Arguments KeyError {A} key.
Arguments ValueError {A} msg.
Arguments AttributeError {A} attr.
Arguments Unfinished {A}.

#[global] Instance result_ret : MRet result := λ A a, Ok a.

#[global] Instance result_bind : MBind result := λ A B k r,
  match r with
  | Ok a => k a
  | KeyError key => KeyError key
  | ValueError msg => ValueError msg
  | AttributeError attr => AttributeError attr
  | Unfinished => Unfinished
  end.

#[global] Instance result_fmap : FMap result := λ A B f r,
  match r with
  | Ok a => Ok (f a)
  | KeyError key => KeyError key
  | ValueError msg => ValueError msg
  | AttributeError attr => AttributeError attr
  | Unfinished => Unfinished
  end.

(** [d[key]] on a dict. *)
Definition subscript {V : Type} (d : gmap string V) (key : string) : result V :=
  match d !! key with
  | Some v => Ok v
  | None => KeyError key
  end.

(** [l[:n]] and [l[-n:]] for a Python int [n]. *)
Definition slice_to {A : Type} (l : list A) (n : Z) : list A :=
  if 0 <=? n then take (Z.to_nat n) l
  else take (length l - Z.to_nat (- n)) l.

(** [l[start:]] where [start] may be negative. *)
Definition slice_from {A : Type} (l : list A) (start : Z) : list A :=
  if 0 <=? start then drop (Z.to_nat start) l
  else drop (length l - Z.to_nat (- start)) l.

Definition datetime : Type := Z.

Definition timedelta (days : Z) : Z := days * 86400000000.

(** [datetime.min] and [datetime.max]: the first microsecond of the year 1
    and the last of the year 9999. *)
Definition datetime_min : datetime := -62135596800000000.
Definition datetime_max : datetime := 253402300799999999.

(** A value that Python has as a [datetime]; a sum or difference that is
    not representable raises [OverflowError]. *)
Definition representable (t : datetime) : Prop := datetime_min ≤ t ≤ datetime_max.

(** [timedelta(days=days)] does not raise [OverflowError]. *)
Definition timedelta_ok (days : Z) : Prop := -999999999 ≤ days ≤ 999999999.

(** [(a - b).days] *)
Definition delta_days (a b : datetime) : Z := (a - b) / 86400000000.

(** ** Ordering of [(datetime, str)] tuples *)

Definition str_ltb (a b : string) : bool :=
  match String_as_OT.compare a b with Lt => true | _ => false end.

Definition key_ltb (x y : datetime * string) : bool :=
  (x.1 <? y.1) || ((x.1 =? y.1) && str_ltb x.2 y.2).

(** ** [bisect] *)

Section Bisect.
Context {A : Type} (ltb : A → A → bool).

(** [bisect.bisect_left(a, x)]:
    [while lo < hi: mid = (lo+hi)//2; if a[mid] < x: lo = mid+1 else: hi = mid] *)
Fixpoint bisect_left_loop (a : list A) (x : A) (fuel lo hi : nat) : nat :=
  match fuel with
  | O => lo
  | S fuel' =>
      if (lo <? hi)%nat then
        let mid := ((lo + hi) / 2)%nat in
        match a !! mid with
        | Some y =>
            if ltb y x then bisect_left_loop a x fuel' (S mid) hi
            else bisect_left_loop a x fuel' lo mid
        | None => lo
        end
      else lo
  end.

(** [bisect.bisect_right(a, x)]:
    [while lo < hi: mid = (lo+hi)//2; if x < a[mid]: hi = mid else: lo = mid+1] *)
Fixpoint bisect_right_loop (a : list A) (x : A) (fuel lo hi : nat) : nat :=
  match fuel with
  | O => lo
  | S fuel' =>
      if (lo <? hi)%nat then
        let mid := ((lo + hi) / 2)%nat in
        match a !! mid with
        | Some y =>
            if ltb x y then bisect_right_loop a x fuel' lo mid
            else bisect_right_loop a x fuel' (S mid) hi
        | None => lo
        end
      else lo
  end.

Definition bisect_left (a : list A) (x : A) : nat :=
  bisect_left_loop a x (length a) 0 (length a).

Definition bisect_right (a : list A) (x : A) : nat :=
  bisect_right_loop a x (length a) 0 (length a).

(** [bisect.insort(a, x)]: insert after the entries that are not above [x]. *)
Definition insort (a : list A) (x : A) : list A :=
  let lo := bisect_right a x in
  take lo a ++ x :: drop lo a.
End Bisect.

(** ** The data model of [totg_core_fixed.py] *)

Inductive NodeType : Type :=
| CONTENT | BRANCH_POINT | MERGE_POINT | MEMORY_COMPRESSED.

Inductive TemporalRelation : Type :=
| SEQUENTIAL | CAUSAL | CONCURRENT | BRANCH | MERGE.

Definition TemporalRelation_value (r : TemporalRelation) : string :=
  match r with
  | SEQUENTIAL => "sequential"
  | CAUSAL => "causal"
  | CONCURRENT => "concurrent"
  | BRANCH => "branch"
  | MERGE => "merge"
  end.

Record TemporalNode : Type := mkNode {
  id : string;
  timestamp : datetime;
  node_type : NodeType;
  content : string;
  metadata : gmap string string;
  temporal_index : Z;
  layer_id : string
}.

(** [_compute_layer_id]: [f"layer_{days_since_epoch // 7}"] *)
Definition _compute_layer_id (ts : datetime) : string :=
  "layer_" +:+ pretty (delta_days ts 0 / 7).

(** The dataclass constructor with its [__post_init__]. *)
Definition new_node (i : string) (ts : datetime) (ty : NodeType) (c : string)
    (md : gmap string string) : TemporalNode :=
  mkNode i ts ty c md (-1) (_compute_layer_id ts).

Record TemporalEdge : Type := mkEdge {
  from_node : string;
  to_node : string;
  relation : TemporalRelation;
  edge_metadata : gmap string string
}.

Record Stats : Type := mkStats {
  nodes_created : Z;
  edges_created : Z;
  layers_created : Z;
  traversals_performed : Z
}.

Record TemporalGraph : Type := mkGraph {
  layer_duration_days : Z;
  nodes : gmap string TemporalNode;
  edges : gmap string (list TemporalEdge);
  reverse_edges : gmap string (list TemporalEdge);
  timestamp_index : list (datetime * string);
  layers : gmap string (list string);
  stats : Stats;
  stdout : list string
}.

(** [TemporalGraph()] *)
Definition empty_graph : TemporalGraph :=
  mkGraph 7 ∅ ∅ ∅ [] ∅ (mkStats 0 0 0 0) [].

(** [d[key].append(x)] on a [defaultdict(list)]. *)
Definition dd_append {V : Type} (d : gmap string (list V)) (key : string) (x : V)
    : gmap string (list V) :=
  <[key := default [] (d !! key) ++ [x]]> d.

(** [d.get(key, [])] *)
Definition dd_get {V : Type} (d : gmap string (list V)) (key : string) : list V :=
  default [] (d !! key).

(** [add_node], for a node with a naive timestamp on a graph whose
    timestamps are naive, as all timestamps of the model are: then no
    statement of its [try] block raises and it returns [True].  (When the
    index holds timestamps of the other awareness, [bisect.insort] raises
    [TypeError] after [self.nodes] was written, and the [except] branch
    returns [False]; such graphs are outside the model.) *)
Definition add_node (g : TemporalGraph) (node : TemporalNode)
    : bool * TemporalGraph :=
  let index' := insort key_ltb (timestamp_index g) (timestamp node, id node) in
  let node' := mkNode (id node) (timestamp node) (node_type node) (content node)
                 (metadata node) (Z.of_nat (length index') - 1) (layer_id node) in
  let layers' := dd_append (layers g) (layer_id node) (id node) in
  (true,
   mkGraph (layer_duration_days g)
     (<[id node := node']> (nodes g))
     (edges g) (reverse_edges g)
     index' layers'
     (mkStats (nodes_created (stats g) + 1) (edges_created (stats g))
        (Z.of_nat (size layers')) (traversals_performed (stats g)))
     (stdout g)).

Definition print (g : TemporalGraph) (line : string) : TemporalGraph :=
  mkGraph (layer_duration_days g) (nodes g) (edges g) (reverse_edges g)
    (timestamp_index g) (layers g) (stats g) (stdout g ++ [line]).

Definition is_sequential_or_causal (r : TemporalRelation) : bool :=
  match r with SEQUENTIAL | CAUSAL => true | _ => false end.

(** [add_edge] *)
Definition add_edge (g : TemporalGraph) (edge : TemporalEdge)
    : bool * TemporalGraph :=
  match nodes g !! from_node edge, nodes g !! to_node edge with
  | Some from_n, Some to_n =>
      let g1 :=
        if is_sequential_or_causal (relation edge)
           && (timestamp to_n <? timestamp from_n)
        then print g "Warning: temporal edge goes backward in time"
        else g in
      (true,
       mkGraph (layer_duration_days g1) (nodes g1)
         (dd_append (edges g1) (from_node edge) edge)
         (dd_append (reverse_edges g1) (to_node edge) edge)
         (timestamp_index g1) (layers g1)
         (mkStats (nodes_created (stats g1)) (edges_created (stats g1) + 1)
            (layers_created (stats g1)) (traversals_performed (stats g1)))
         (stdout g1))
  | _, _ =>
      (false,
       print g ("Cannot create edge: missing nodes " +:+ from_node edge
                +:+ " -> " +:+ to_node edge))
  end.

(** [get_nodes_in_timerange]: the two probes are [(start_time, "")] and
    [(end_time, chr(255)*100)]. *)
Definition chr255 : string := String (ascii_of_nat 195) (String (ascii_of_nat 191) "").

Fixpoint str_repeat (s : string) (n : nat) : string :=
  match n with
  | O => ""
  | S n' => s +:+ str_repeat s n'
  end.

Definition upper_probe : string := str_repeat chr255 100.

Definition get_nodes_in_timerange (g : TemporalGraph) (start_time end_time : datetime)
    : list string :=
  let start_pos := bisect_left key_ltb (timestamp_index g) (start_time, "") in
  let end_pos := bisect_right key_ltb (timestamp_index g) (end_time, upper_probe) in
  omap (λ i, snd <$> timestamp_index g !! i) (seq start_pos (end_pos - start_pos)).

(** ** Traversals *)

(** The number of edge entries of an adjacency map. A traversal pops at
    most one queue entry more than that. *)
Definition edge_total (adj : gmap string (list TemporalEdge)) : nat :=
  sum_list (length <$> (map_to_list adj).*2).

Definition bfs_fuel (adj : gmap string (list TemporalEdge)) : nat :=
  S (edge_total adj).

(** The loop of [_bfs_forward]: [visited] is the set, [queue] the deque of
    [(node_id, hop_count)]. *)
Fixpoint bfs_forward_loop (g : TemporalGraph) (max_hops : Z) (end_time : datetime)
    (fuel : nat) (visited : list string) (queue : list (string * Z))
    : result (list string) :=
  match queue with
  | [] => Ok visited
  | (current_id, hops) :: queue' =>
      match fuel with
      | O => Unfinished
      | S fuel' =>
          if bool_decide (current_id ∈ visited) || (max_hops <? hops) then
            bfs_forward_loop g max_hops end_time fuel' visited queue'
          else
            let visited' := visited ++ [current_id] in
            if match nodes g !! current_id with
               | Some current_node => end_time <? timestamp current_node
               | None => false
               end
            then bfs_forward_loop g max_hops end_time fuel' visited' queue'
            else
              bfs_forward_loop g max_hops end_time fuel' visited'
                (queue' ++ ((λ edge, (to_node edge, hops + 1)) <$>
                   filter (λ edge, to_node edge ∉ visited')
                     (dd_get (edges g) current_id)))
      end
  end.

Definition _bfs_forward (g : TemporalGraph) (start_node : string) (max_hops : Z)
    (end_time : datetime) : result (list string) :=
  bfs_forward_loop g max_hops end_time (bfs_fuel (edges g)) [] [(start_node, 0)].

(** The loop of [_bfs_backward]. *)
Fixpoint bfs_backward_loop (g : TemporalGraph) (max_hops : Z) (start_time : datetime)
    (fuel : nat) (visited : list string) (queue : list (string * Z))
    : result (list string) :=
  match queue with
  | [] => Ok visited
  | (current_id, hops) :: queue' =>
      match fuel with
      | O => Unfinished
      | S fuel' =>
          if bool_decide (current_id ∈ visited) || (max_hops <? hops) then
            bfs_backward_loop g max_hops start_time fuel' visited queue'
          else
            let visited' := visited ++ [current_id] in
            if match nodes g !! current_id with
               | Some current_node => timestamp current_node <? start_time
               | None => false
               end
            then bfs_backward_loop g max_hops start_time fuel' visited' queue'
            else
              bfs_backward_loop g max_hops start_time fuel' visited'
                (queue' ++ ((λ edge, (from_node edge, hops + 1)) <$>
                   filter (λ edge, from_node edge ∉ visited')
                     (dd_get (reverse_edges g) current_id)))
      end
  end.

Definition _bfs_backward (g : TemporalGraph) (target_node : string) (max_hops : Z)
    (start_time : datetime) : result (list string) :=
  bfs_backward_loop g max_hops start_time (bfs_fuel (reverse_edges g)) []
    [(target_node, 0)].

(** [list.sort(key=...)] is stable; the keys are computed once, so a list
    is sorted as a list of [(element, key)] pairs. *)
Fixpoint insert_asc {A : Type} (x : A * Z) (l : list (A * Z)) : list (A * Z) :=
  match l with
  | [] => [x]
  | y :: l' => if x.2 <=? y.2 then x :: l else y :: insert_asc x l'
  end.

Definition sort_asc {A : Type} (l : list (A * Z)) : list (A * Z) :=
  foldr insert_asc [] l.

(** [list.sort(key=..., reverse=True)] keeps equal keys in their order. *)
Fixpoint insert_desc {A : Type} (x : A * Z) (l : list (A * Z)) : list (A * Z) :=
  match l with
  | [] => [x]
  | y :: l' => if y.2 <=? x.2 then x :: l else y :: insert_desc x l'
  end.

Definition sort_desc {A : Type} (l : list (A * Z)) : list (A * Z) :=
  foldr insert_desc [] l.

(** The filter loop of [get_forward_nodes], on the ids in the order the set
    yields them; an id kept is paired with its timestamp, the sort key. *)
Fixpoint collect_future (g : TemporalGraph) (node_id : string)
    (source_ts end_time : datetime) (reachable : list string)
    : result (list (string * datetime)) :=
  match reachable with
  | [] => Ok []
  | reached_id :: rest =>
      if bool_decide (reached_id = node_id) then
        collect_future g node_id source_ts end_time rest
      else
        reached_node ← subscript (nodes g) reached_id;
        future_nodes ← collect_future g node_id source_ts end_time rest;
        Ok (if (source_ts <? timestamp reached_node)
               && (timestamp reached_node <=? end_time)
            then (reached_id, timestamp reached_node) :: future_nodes
            else future_nodes)
  end.

Fixpoint collect_past (g : TemporalGraph) (node_id : string)
    (start_time target_ts : datetime) (reachable : list string)
    : result (list (string * datetime)) :=
  match reachable with
  | [] => Ok []
  | reached_id :: rest =>
      if bool_decide (reached_id = node_id) then
        collect_past g node_id start_time target_ts rest
      else
        reached_node ← subscript (nodes g) reached_id;
        past_nodes ← collect_past g node_id start_time target_ts rest;
        Ok (if (start_time <=? timestamp reached_node)
               && (timestamp reached_node <? target_ts)
            then (reached_id, timestamp reached_node) :: past_nodes
            else past_nodes)
  end.

Section SetIteration.
(** The order in which [for reached_id in reachable] yields the set. *)
Variable iter : list string → list string.

Definition get_forward_nodes (g : TemporalGraph) (node_id : string)
    (time_window_days max_hops max_results : Z) : result (list string) :=
  match nodes g !! node_id with
  | None => Ok []
  | Some source_node =>
      let end_time := timestamp source_node + timedelta time_window_days in
      reachable ← _bfs_forward g node_id max_hops end_time;
      future_nodes ←
        collect_future g node_id (timestamp source_node) end_time (iter reachable);
      Ok (slice_to (sort_asc future_nodes).*1 max_results)
  end.

Definition get_backward_nodes (g : TemporalGraph) (node_id : string)
    (time_window_days max_hops max_results : Z) : result (list string) :=
  match nodes g !! node_id with
  | None => Ok []
  | Some target_node =>
      let start_time := timestamp target_node - timedelta time_window_days in
      reachable ← _bfs_backward g node_id max_hops start_time;
      past_nodes ←
        collect_past g node_id start_time (timestamp target_node) (iter reachable);
      Ok (slice_to (sort_desc past_nodes).*1 max_results)
  end.
End SetIteration.

(** The counter [stats['traversals_performed']] is the only state a query
    writes: it is incremented when the query gets past its first test. *)
Definition count_traversal (g : TemporalGraph) (node_id : string) : TemporalGraph :=
  match nodes g !! node_id with
  | None => g
  | Some _ =>
      mkGraph (layer_duration_days g) (nodes g) (edges g) (reverse_edges g)
        (timestamp_index g) (layers g)
        (mkStats (nodes_created (stats g)) (edges_created (stats g))
           (layers_created (stats g)) (traversals_performed (stats g) + 1))
        (stdout g)
  end.

(** [get_direct_successors], [get_direct_predecessors], [has_edge] *)
Definition get_direct_successors (g : TemporalGraph) (node_id : string) : list string :=
  to_node <$> dd_get (edges g) node_id.

Definition get_direct_predecessors (g : TemporalGraph) (node_id : string) : list string :=
  from_node <$> dd_get (reverse_edges g) node_id.

Definition has_edge (g : TemporalGraph) (a b : string) : bool :=
  existsb (λ edge, bool_decide (to_node edge = b)) (dd_get (edges g) a).

(** The loop of [has_path]. *)
Fixpoint has_path_loop (g : TemporalGraph) (target : string) (max_hops : Z)
    (fuel : nat) (visited : list string) (queue : list (string * Z)) : result bool :=
  match queue with
  | [] => Ok false
  | (current_id, hops) :: queue' =>
      match fuel with
      | O => Unfinished
      | S fuel' =>
          if bool_decide (current_id = target) then Ok true
          else if bool_decide (current_id ∈ visited) || (max_hops <? hops) then
            has_path_loop g target max_hops fuel' visited queue'
          else
            let visited' := visited ++ [current_id] in
            has_path_loop g target max_hops fuel' visited'
              (queue' ++ ((λ edge, (to_node edge, hops + 1)) <$>
                 filter (λ edge, to_node edge ∉ visited')
                   (dd_get (edges g) current_id)))
      end
  end.

Definition has_path (g : TemporalGraph) (a b : string) (max_hops : Z) : result bool :=
  match nodes g !! a, nodes g !! b with
  | Some _, Some _ =>
      if bool_decide (a = b) then Ok true
      else has_path_loop g b max_hops (bfs_fuel (edges g)) [] [(a, 0)]
  | _, _ => Ok false
  end.

(** The loop of [get_shortest_path]: the queue holds [(current, path, hops)]. *)
Fixpoint shortest_path_loop (g : TemporalGraph) (target : string) (max_hops : Z)
    (fuel : nat) (visited : list string) (queue : list (string * list string * Z))
    : result (option (list string)) :=
  match queue with
  | [] => Ok None
  | (current_id, path, hops) :: queue' =>
      match fuel with
      | O => Unfinished
      | S fuel' =>
          if bool_decide (current_id = target) then Ok (Some path)
          else if bool_decide (current_id ∈ visited) || (max_hops <? hops) then
            shortest_path_loop g target max_hops fuel' visited queue'
          else
            let visited' := visited ++ [current_id] in
            shortest_path_loop g target max_hops fuel' visited'
              (queue' ++ ((λ edge, (to_node edge, path ++ [to_node edge], hops + 1)) <$>
                 filter (λ edge, to_node edge ∉ visited')
                   (dd_get (edges g) current_id)))
      end
  end.

Definition get_shortest_path (g : TemporalGraph) (a b : string) (max_hops : Z)
    : result (option (list string)) :=
  match nodes g !! a, nodes g !! b with
  | Some _, Some _ =>
      if bool_decide (a = b) then Ok (Some [a])
      else shortest_path_loop g b max_hops (bfs_fuel (edges g)) [] [(a, [a], 0)]
  | _, _ => Ok None
  end.

(** ** A common form of the four loops

    The loops of [_bfs_forward], [_bfs_backward], [has_path] and
    [get_shortest_path] differ in the adjacency map they follow, in what a
    queue entry carries, in whether an entry can end the search, and in
    whether a visited node can be left unexpanded.  [worklist_loop] has
    these as parameters, and keeps the entry of each visited node instead
    of its id alone, so that the hop count at which a node was visited can
    be spoken of. *)
Section Worklist.
Context {E : Type}.
Variable adj : gmap string (list TemporalEdge).
Variable nbr : TemporalEdge → string.
Variable key : E → string.
Variable hops : E → Z.
Variable child : E → TemporalEdge → E.
Variable found : E → bool.
Variable pruned : string → bool.
Variable max_hops : Z.

Fixpoint worklist_loop (fuel : nat) (visited queue : list E)
    : result (option E * list E) :=
  match queue with
  | [] => Ok (None, visited)
  | e :: queue' =>
      match fuel with
      | O => Unfinished
      | S fuel' =>
          if found e then Ok (Some e, visited)
          else if bool_decide (key e ∈ key <$> visited) || (max_hops <? hops e) then
            worklist_loop fuel' visited queue'
          else
            let visited' := visited ++ [e] in
            if pruned (key e) then worklist_loop fuel' visited' queue'
            else
              worklist_loop fuel' visited'
                (queue' ++ (child e <$>
                   filter (λ edge, nbr edge ∉ key <$> visited')
                     (dd_get adj (key e))))
      end
  end.

(** The edge entries of the nodes not yet visited. *)
Definition pending (m : gmap string (list TemporalEdge)) (seen : list string) : nat :=
  sum_list ((λ kv, if bool_decide (kv.1 ∈ seen) then O else length kv.2)
              <$> map_to_list m).
End Worklist.

(** [_bfs_forward] does not expand a node later than [end_time], and
    [_bfs_backward] one earlier than [start_time]. *)
Definition beyond_window (g : TemporalGraph) (end_time : datetime) (k : string) : bool :=
  match nodes g !! k with
  | Some current_node => end_time <? timestamp current_node
  | None => false
  end.

Definition before_window (g : TemporalGraph) (start_time : datetime) (k : string) : bool :=
  match nodes g !! k with
  | Some current_node => timestamp current_node <? start_time
  | None => false
  end.

Definition never {A : Type} (_ : A) : bool := false.

Definition forward_child (e : string * Z) (edge : TemporalEdge) : string * Z :=
  (to_node edge, e.2 + 1).

Definition backward_child (e : string * Z) (edge : TemporalEdge) : string * Z :=
  (from_node edge, e.2 + 1).

Definition path_child (e : string * list string * Z) (edge : TemporalEdge)
    : string * list string * Z :=
  (to_node edge, e.1.2 ++ [to_node edge], e.2 + 1).

(** One iteration order: the order of insertion. *)
Definition insertion_order (l : list string) : list string := l.

(** ** The document chain of the end-to-end scenario *)

Inductive graph_op : Type :=
| AddNode (node : TemporalNode)
| AddEdge (edge : TemporalEdge).

Definition apply_op (g : TemporalGraph) (op : graph_op) : TemporalGraph :=
  match op with
  | AddNode node => (add_node g node).2
  | AddEdge edge => (add_edge g edge).2
  end.

Definition build (ops : list graph_op) : TemporalGraph :=
  foldl apply_op empty_graph ops.

Definition day (n : Z) : datetime := 1704067200000000 + timedelta n.

Definition doc (i : string) (d : Z) : graph_op :=
  AddNode (new_node i (day d) CONTENT i ∅).

Definition link (a b : string) (r : TemporalRelation) : graph_op :=
  AddEdge (mkEdge a b r ∅).

Definition chain_graph : TemporalGraph :=
  build [ doc "contract" 0; doc "amendment" 15; doc "claim" 50;
          doc "response" 65; doc "settlement" 80;
          link "contract" "amendment" SEQUENTIAL;
          link "amendment" "claim" CAUSAL;
          link "claim" "response" SEQUENTIAL;
          link "response" "settlement" SEQUENTIAL ].

(** ** Attention heads ([totg_attention_fixed.py]) *)

Inductive AttentionType : Type :=
| FORWARD | BACKWARD | BIDIRECTIONAL | TEMPORAL_FOCUS | SEMANTIC_FOCUS.

#[global] Instance AttentionType_eq_dec : EqDecision AttentionType.
Proof. solve_decision. Defined.

Record AttentionHead : Type := mkHead {
  head_id : string;
  attention_type : AttentionType;
  focus_keywords : list string;
  temporal_window_days : Z;
  decay_factor : float
}.

(** [_initialize_default_heads] *)
Definition default_heads : list AttentionHead :=
  [ mkHead "short_forward" FORWARD [] 7 0.8%float;
    mkHead "long_backward" BACKWARD [] 90 0.98%float;
    mkHead "semantic_focus" SEMANTIC_FOCUS
      ["important"; "key"; "critical"; "main"; "significant"] 30 0.95%float;
    mkHead "temporal_focus" TEMPORAL_FOCUS [] 14 0.9%float ].

Record BidirectionalAttention : Type := mkAttention {
  graph : TemporalGraph;
  attention_heads : list AttentionHead
}.

(** [max(...)] of a sequence of ints. *)
Definition py_max (l : list Z) : result Z :=
  match l with
  | [] => ValueError "max() arg is an empty sequence"
  | x :: l' => Ok (foldl Z.max x l')
  end.

(** The heads that [compute_forward_attention] lets vote:
    [head.attention_type in [FORWARD, BIDIRECTIONAL, TEMPORAL_FOCUS]]. *)
Definition forward_head (h : AttentionHead) : bool :=
  bool_decide (attention_type h ∈ [FORWARD; BIDIRECTIONAL; TEMPORAL_FOCUS]).

(** The candidates [future_nodes] of [compute_forward_attention] when the
    cache does not answer: the call
    [self.graph.get_forward_nodes(node_id,
       time_window_days=max(h.temporal_window_days for h in self.attention_heads),
       max_results=max_nodes * 2)].
    An unknown [node_id] returns before the call. *)
Definition forward_candidates (iter : list string → list string)
    (self : BidirectionalAttention) (node_id : string) (max_nodes : Z)
    : result (list string) :=
  match nodes (graph self) !! node_id with
  | None => Ok []
  | Some source_node =>
      window ← py_max (temporal_window_days <$> attention_heads self);
      get_forward_nodes iter (graph self) node_id window 5 (max_nodes * 2)
  end.

(** The window as the specification words it: the widest among the heads
    relevant to the forward direction. *)
Definition widest_forward_window (heads : list AttentionHead) : result Z :=
  py_max (temporal_window_days <$> filter (λ h, forward_head h = true) heads).

(** ** The chunked analyzer ([totg_markovian.py]) *)

Module NodeData.
Record t : Type := mk {
  id : string;
  timestamp : datetime;
  type : string;
  content : string;
  metadata : gmap string string
}.
End NodeData.

#[global] Instance NodeData_eq_dec : EqDecision NodeData.t.
Proof. solve_decision. Defined.

Definition NodeType_value (t : NodeType) : string :=
  match t with
  | CONTENT => "content"
  | BRANCH_POINT => "branch"
  | MERGE_POINT => "merge"
  | MEMORY_COMPRESSED => "memory"
  end.

(** [TOTGAPI._node_to_data]; the ISO string of the timestamp is parsed back
    by every reader, so the record keeps the datetime. *)
Definition _node_to_data (node : TemporalNode) : NodeData.t :=
  NodeData.mk (id node) (timestamp node) (NodeType_value (node_type node))
    (content node) (metadata node).

(** [TOTGAPI.get_document] *)
Definition get_document (g : TemporalGraph) (doc_id : string) : option NodeData.t :=
  _node_to_data <$> nodes g !! doc_id.

(** A [dict] whose order of insertion matters: the list of its items. *)
Fixpoint dict_set {V : Type} (d : list (string * V)) (k : string) (v : V)
    : list (string * V) :=
  match d with
  | [] => [(k, v)]
  | (k', v') :: d' =>
      if bool_decide (k' = k) then (k, v) :: d' else (k', v') :: dict_set d' k v
  end.

Fixpoint dict_get {V : Type} (d : list (string * V)) (k : string) : option V :=
  match d with
  | [] => None
  | (k', v') :: d' => if bool_decide (k' = k) then Some v' else dict_get d' k
  end.

(** A stable sort with an order given as "[x] may stay before [y]". *)
Fixpoint insert_by {A : Type} (before : A → A → bool) (x : A) (l : list A) : list A :=
  match l with
  | [] => [x]
  | y :: l' => if before x y then x :: l else y :: insert_by before x l'
  end.

Definition sort_by {A : Type} (before : A → A → bool) (l : list A) : list A :=
  foldr (insert_by before) [] l.

Module Event.
Record t : Type := mk {
  doc_id : string;
  timestamp : datetime;
  type : string;
  importance : float;
  summary : string
}.
End Event.

Module Entity.
Record t : Type := mk {
  mentions : Z;
  first_seen : datetime;
  last_seen : datetime
}.
End Entity.

Record TemporalCarryover : Type := mkCarryover {
  critical_events : list Event.t;
  key_entities : list (string * Entity.t);
  causal_chains : list (string * string * string);
  attention_scores : list (string * float);
  open_questions : list string;
  chunk_index : Z;
  time_range : option datetime * option datetime;
  document_count : Z
}.

(** [TemporalCarryover.get_size] *)
Definition get_size (c : TemporalCarryover) : nat :=
  (length (critical_events c) + length (key_entities c) + length (causal_chains c)
   + length (attention_scores c) + length (open_questions c))%nat.

Module ChunkResult.
Record t : Type := mk {
  chunk_index : Z;
  start_time : datetime;
  end_time : datetime;
  documents : list NodeData.t;
  doc_ids : list string;
  critical_events : list Event.t;
  causal_relationships : list (string * string * string);
  key_entities : list (string * Entity.t);
  memory_used : Z
}.
End ChunkResult.

Record MarkovianTOTG : Type := mkMarkovian {
  api : TemporalGraph;
  chunk_size_days : Z;
  max_carryover_events : Z;
  max_carryover_chains : Z;
  max_carryover_entities : Z
}.

(** [MarkovianTOTG(api, chunk_size_days=90)] with the default caps. *)
Definition default_markovian (g : TemporalGraph) : MarkovianTOTG :=
  mkMarkovian g 90 10 20 15.

(** The merge loop of [_extract_carryover] over the entities of the chunk. *)
Definition merge_entity (key_entities : list (string * Entity.t))
    (item : string * Entity.t) : list (string * Entity.t) :=
  match dict_get key_entities item.1 with
  | Some old =>
      dict_set key_entities item.1
        (Entity.mk (Entity.mentions old + Entity.mentions item.2)
           (Entity.first_seen old) (Entity.last_seen item.2))
  | None => dict_set key_entities item.1 item.2
  end.

(** [_extract_carryover] *)
Definition _extract_carryover (self : MarkovianTOTG) (chunk_result : ChunkResult.t)
    (previous_state : TemporalCarryover) : TemporalCarryover :=
  let all_events :=
    sort_by (λ x y, Event.importance y <=? Event.importance x)%float
      (critical_events previous_state ++ ChunkResult.critical_events chunk_result) in
  let critical_events' := slice_to all_events (max_carryover_events self) in
  let merged :=
    foldl merge_entity (key_entities previous_state)
      (ChunkResult.key_entities chunk_result) in
  let sorted_entities :=
    sort_by (λ x y, Entity.mentions y.2 <=? Entity.mentions x.2) merged in
  let key_entities' := slice_to sorted_entities (max_carryover_entities self) in
  let causal_chains' :=
    slice_from
      (causal_chains previous_state ++ ChunkResult.causal_relationships chunk_result)
      (- max_carryover_chains self) in
  let recent :=
    foldl (λ scores doc_id, dict_set scores doc_id 0.8%float) []
      (slice_from (ChunkResult.doc_ids chunk_result) (-10)) in
  let attention_scores' :=
    foldl (λ scores event, dict_set scores (Event.doc_id event) 1.0%float) recent
      critical_events' in
  mkCarryover critical_events' key_entities' causal_chains' attention_scores'
    (open_questions previous_state)
    (chunk_index previous_state + 1)
    (fst (time_range previous_state), Some (ChunkResult.end_time chunk_result))
    (document_count previous_state
     + Z.of_nat (length (ChunkResult.documents chunk_result))).

(** A key offered to a [dict]: [TemporalGraph.edges] is keyed by node id,
    and [_identify_causal_relationships] probes it with a tuple. *)
Inductive pykey : Type :=
| StrKey (s : string)
| TupleKey (a b : string).

(** [key in d] for a dict whose keys are all [str]: a tuple equals none. *)
Definition key_in {V : Type} (key : pykey) (d : gmap string V) : bool :=
  match key with
  | StrKey s => bool_decide (is_Some (d !! s))
  | TupleKey _ _ => false
  end.

(** ASCII [str.lower] and [str.split]. *)
Definition ascii_lower (c : ascii) : ascii :=
  let n := nat_of_ascii c in
  if ((65 <=? n) && (n <=? 90))%nat then ascii_of_nat (n + 32) else c.

Definition is_space (c : ascii) : bool :=
  let n := nat_of_ascii c in
  ((n =? 32) || ((9 <=? n) && (n <=? 13)) || ((28 <=? n) && (n <=? 31)))%nat.

Fixpoint split_ws (s : string) (word : string) : list string :=
  match s with
  | EmptyString => if bool_decide (word = "") then [] else [word]
  | String c s' =>
      if is_space c
      then (if bool_decide (word = "") then [] else [word]) ++ split_ws s' ""
      else split_ws s' (word +:+ String c "")
  end.

Fixpoint str_lower (s : string) : string :=
  match s with
  | EmptyString => ""
  | String c s' => String (ascii_lower c) (str_lower s')
  end.

(** [content.lower().split()] *)
Definition lower_split (content : string) : list string :=
  split_ws (str_lower content) "".

(** ** TF-IDF similarity ([totg_attention_fixed.py]) *)

Module SemanticSimilarity.
Record t : Type := mk {
  document_count : Z;
  term_document_freq : gmap string Z
}.
End SemanticSimilarity.

(** [SemanticSimilarity()] *)
Definition empty_corpus : SemanticSimilarity.t := SemanticSimilarity.mk 0 ∅.

Definition stopwords : list string :=
  [ "the"; "a"; "an"; "and"; "or"; "but"; "in"; "on"; "at"; "to"; "for";
    "of"; "with"; "by"; "from"; "as"; "is"; "was"; "are"; "were"; "be";
    "been"; "being"; "have"; "has"; "had"; "do"; "does"; "did"; "will";
    "would"; "should"; "could"; "may"; "might"; "can"; "this"; "that";
    "these"; "those"; "i"; "you"; "he"; "she"; "it"; "we"; "they" ].

(** [\w] on ASCII text: a letter, a digit or the underscore. *)
Definition is_word_char (c : ascii) : bool :=
  let n := nat_of_ascii c in
  (((97 <=? n) && (n <=? 122)) || ((65 <=? n) && (n <=? 90))
   || ((48 <=? n) && (n <=? 57)) || (n =? 95))%nat.

(** [re.findall(r'\b\w+\b', s)]: the maximal runs of word characters. *)
Fixpoint findall_words (s : string) (word : string) : list string :=
  match s with
  | EmptyString => if bool_decide (word = "") then [] else [word]
  | String c s' =>
      if is_word_char c then findall_words s' (word +:+ String c "")
      else (if bool_decide (word = "") then [] else [word]) ++ findall_words s' ""
  end.

(** [_tokenize] *)
Definition _tokenize (text : string) : list string :=
  filter (λ t, (t ∉ stopwords) ∧ (2 < String.length t)%nat)
    (findall_words (str_lower text) "").

(** [add_document]: the tokens are made a set, so each counts once. *)
Definition add_document (self : SemanticSimilarity.t) (text : string)
    : SemanticSimilarity.t :=
  SemanticSimilarity.mk
    (SemanticSimilarity.document_count self + 1)
    (foldl (λ freq token, <[token := default 0 (freq !! token) + 1]> freq)
       (SemanticSimilarity.term_document_freq self)
       (remove_dups (_tokenize text))).

(** The float of a count; counts are far below [2^53]. *)
Definition float_of_Z (z : Z) : float := PrimFloat.of_uint63 (Uint63.of_Z z).

(** [compute_tf]: the [Counter] keeps the tokens in the order of their
    first occurrence. *)
Definition compute_tf (tokens : list string) : list (string * float) :=
  let token_counts :=
    foldl (λ counts token, dict_set counts token (default 0 (dict_get counts token) + 1))
      [] tokens in
  (λ item : string * Z,
     (item.1, (float_of_Z item.2 / float_of_Z (Z.of_nat (length tokens)))%float))
    <$> token_counts.

(** [sum(...)] of floats, from the int [0].  CPython up to 3.11 adds from
    left to right; since 3.12 it adds the first float to the int [0] and
    then carries a compensation term (Neumaier's sum), which it adds at
    the end when it is finite and not zero. *)
Inductive sum_algorithm : Type := LeftToRight | Compensated.

Definition float_sum (l : list float) : float := foldl PrimFloat.add 0%float l.

Definition compensated_step (acc : float * float) (x : float) : float * float :=
  let t := (acc.1 + x)%float in
  (t, if (abs x <=? abs acc.1)%float
      then (acc.2 + ((acc.1 - t) + x))%float
      else (acc.2 + ((x - t) + acc.1))%float).

Definition compensated_sum (l : list float) : float :=
  match l with
  | [] => 0%float
  | x :: rest =>
      let acc := foldl compensated_step ((0 + x)%float, 0%float) rest in
      if negb (acc.2 =? 0)%float && is_finite acc.2
      then (acc.1 + acc.2)%float else acc.1
  end.

Definition py_sum (alg : sum_algorithm) (l : list float) : float :=
  match alg with
  | LeftToRight => float_sum l
  | Compensated => compensated_sum l
  end.

Section Similarity.
(** [math.log] is the C library's; it is a parameter. *)
Variable math_log : float → float.
(** The algorithm of the builtin [sum]. *)
Variable alg : sum_algorithm.
(** The order in which the set [common_terms] is iterated. *)
Variable iter : list string → list string.

(** [compute_idf] *)
Definition compute_idf (self : SemanticSimilarity.t) (token : string) : float :=
  if SemanticSimilarity.document_count self =? 0 then 0%float
  else
    let doc_freq := default 0 (SemanticSimilarity.term_document_freq self !! token) in
    if doc_freq =? 0 then 0%float
    else math_log (float_of_Z (SemanticSimilarity.document_count self)
                   / float_of_Z doc_freq)%float.

(** [compute_tfidf_vector] *)
Definition compute_tfidf_vector (self : SemanticSimilarity.t) (text : string)
    : list (string * float) :=
  (λ item : string * float, (item.1, (item.2 * compute_idf self item.1)%float))
    <$> compute_tf (_tokenize text).

(** [vec[term]] for a term that is a key of [vec]. *)
Definition item_of (vec : list (string * float)) (term : string) : float :=
  default 0%float (dict_get vec term).

(** [cosine_similarity] *)
Definition cosine_similarity (vec1 vec2 : list (string * float)) : float :=
  match vec1, vec2 with
  | [], _ | _, [] => 0%float
  | _, _ =>
      let common_terms := iter (filter (λ term, term ∈ vec2.*1) vec1.*1) in
      let dot_product :=
        py_sum alg ((λ term, (item_of vec1 term * item_of vec2 term)%float)
                    <$> common_terms) in
      let mag1 := PrimFloat.sqrt (py_sum alg ((λ v, (v * v)%float) <$> vec1.*2)) in
      let mag2 := PrimFloat.sqrt (py_sum alg ((λ v, (v * v)%float) <$> vec2.*2)) in
      if (mag1 =? 0)%float || (mag2 =? 0)%float then 0%float
      else (dot_product / (mag1 * mag2))%float
  end.

(** [similarity] *)
Definition similarity (self : SemanticSimilarity.t) (text1 text2 : string) : float :=
  cosine_similarity (compute_tfidf_vector self text1) (compute_tfidf_vector self text2).
End Similarity.

Section Markovian.
(** The order in which the graph queries iterate over their visited sets. *)
Variable iter : list string → list string.
Variable self : MarkovianTOTG.

(** [self.api.graph.get_forward_nodes(doc.id)], with the default
    [time_window_days=30, max_hops=5, max_results=50]. *)
Definition forward_of (doc_id : string) : result (list string) :=
  get_forward_nodes iter (api self) doc_id 30 5 50.

Definition backward_of (doc_id : string) : result (list string) :=
  get_backward_nodes iter (api self) doc_id 30 5 50.

(** The relation type of one link, in [_identify_causal_relationships]:
    ["sequential"], replaced by [edge.relation_type] if the tuple
    [(doc.id, target_id)] is a key of [graph.edges]; the value under a key
    is a list of edges, which has no attribute [relation_type]. *)
Definition link_rel_type (doc_id target_id : string) : result string :=
  if key_in (TupleKey doc_id target_id) (edges (api self))
  then AttributeError "relation_type"
  else Ok "sequential".

(** The inner loop of [_identify_causal_relationships], for one document. *)
Fixpoint links_of (documents : list NodeData.t) (doc_id : string)
    (targets : list string) : result (list (string * string * string)) :=
  match targets with
  | [] => Ok []
  | target_id :: rest =>
      match list_find (λ d, NodeData.id d = target_id) documents with
      | Some _ =>
          rel_type ← link_rel_type doc_id target_id;
          relationships ← links_of documents doc_id rest;
          Ok ((doc_id, target_id, rel_type) :: relationships)
      | None => links_of documents doc_id rest
      end
  end.

Fixpoint causal_loop (documents todo : list NodeData.t)
    : result (list (string * string * string)) :=
  match todo with
  | [] => Ok []
  | doc :: rest =>
      targets ← forward_of (NodeData.id doc);
      here ← links_of documents (NodeData.id doc) targets;
      later ← causal_loop documents rest;
      Ok (here ++ later)
  end.

(** [_identify_causal_relationships] *)
Definition _identify_causal_relationships (documents : list NodeData.t)
    (previous_state : TemporalCarryover) : result (list (string * string * string)) :=
  causal_loop documents documents.

(** [doc.content[:100] + "..." if len(doc.content) > 100 else doc.content] *)
Definition summary_of (content : string) : string :=
  if (100 <? String.length content)%nat
  then String.substring 0 100 content +:+ "..."
  else content.

Fixpoint critical_loop (documents todo : list NodeData.t)
    (previous_state : TemporalCarryover) : result (list Event.t) :=
  match todo with
  | [] => Ok []
  | doc :: rest =>
      let importance := 0.5%float in
      let importance :=
        if bool_decide (head documents = Some doc)
        then (importance + 0.2)%float else importance in
      let importance :=
        match dict_get (attention_scores previous_state) (NodeData.id doc) with
        | Some score => (importance + score * 0.3)%float
        | None => importance
        end in
      fwd ← forward_of (NodeData.id doc);
      bwd ← backward_of (NodeData.id doc);
      let num_edges := (length fwd + length bwd)%nat in
      let importance :=
        if (2 <? num_edges)%nat then (importance + 0.2)%float else importance in
      critical ← critical_loop documents rest previous_state;
      Ok (if (0.6 <? importance)%float
          then Event.mk (NodeData.id doc) (NodeData.timestamp doc) (NodeData.type doc)
                 importance (summary_of (NodeData.content doc)) :: critical
          else critical)
  end.

(** [_identify_critical_events] *)
Definition _identify_critical_events (documents : list NodeData.t)
    (previous_state : TemporalCarryover) : result (list Event.t) :=
  critical_loop documents documents previous_state.

Definition count_word (doc_time : datetime) (entities : list (string * Entity.t))
    (word : string) : list (string * Entity.t) :=
  if (4 <? String.length word)%nat then
    match dict_get entities word with
    | None => dict_set entities word (Entity.mk 1 doc_time doc_time)
    | Some e =>
        dict_set entities word
          (Entity.mk (Entity.mentions e + 1) (Entity.first_seen e) doc_time)
    end
  else entities.

(** [_extract_key_entities] *)
Definition _extract_key_entities (documents : list NodeData.t)
    (previous_state : TemporalCarryover) : list (string * Entity.t) :=
  filter (λ kv, 2 ≤ Entity.mentions kv.2)
    (foldl (λ entities doc,
              foldl (count_word (NodeData.timestamp doc)) entities
                (lower_split (NodeData.content doc)))
       [] documents).

(** The starting points of [_get_docs_in_window]; an empty [starting_doc]
    is falsy, like [None]. *)
Definition start_points_of (starting_doc : option string)
    (previous_state : TemporalCarryover) : list string :=
  match starting_doc with
  | Some d =>
      if bool_decide (d = "") then
        foldl (λ points event,
                 if bool_decide (Event.doc_id event ∈ points) then points
                 else points ++ [Event.doc_id event])
          (slice_to (attention_scores previous_state).*1 10)
          (slice_to (critical_events previous_state) 5)
      else [d]
  | None =>
      foldl (λ points event,
               if bool_decide (Event.doc_id event ∈ points) then points
               else points ++ [Event.doc_id event])
        (slice_to (attention_scores previous_state).*1 10)
        (slice_to (critical_events previous_state) 5)
  end.

(** The BFS loop of [_get_docs_in_window]. *)
Fixpoint docs_loop (start_time end_time : datetime) (fuel : nat)
    (visited queue : list string) (docs_in_window : list NodeData.t)
    : result (list NodeData.t) :=
  match queue with
  | [] => Ok docs_in_window
  | current_id :: queue' =>
      match fuel with
      | O => Unfinished
      | S fuel' =>
          if bool_decide (current_id ∈ visited) then
            docs_loop start_time end_time fuel' visited queue' docs_in_window
          else
            let visited' := visited ++ [current_id] in
            match get_document (api self) current_id with
            | None => docs_loop start_time end_time fuel' visited' queue' docs_in_window
            | Some doc =>
                let docs' :=
                  if (start_time <=? NodeData.timestamp doc)
                     && (NodeData.timestamp doc <=? end_time)
                  then docs_in_window ++ [doc] else docs_in_window in
                neighbors ← forward_of current_id;
                backward_neighbors ← backward_of current_id;
                docs_loop start_time end_time fuel' visited'
                  (queue' ++ filter (λ n, n ∉ visited') neighbors
                          ++ filter (λ n, n ∉ visited') backward_neighbors)
                  docs'
            end
      end
  end.

(** A node is expanded once and queues at most 50 ids each way. *)
Definition docs_fuel (start_points : list string) : nat :=
  S (length start_points + 100 * size (nodes (api self))).

(** [_get_docs_in_window] *)
Definition _get_docs_in_window (start_time end_time : datetime)
    (starting_doc : option string) (previous_state : TemporalCarryover)
    : result (list NodeData.t) :=
  let start_points := start_points_of starting_doc previous_state in
  docs_loop start_time end_time (docs_fuel start_points) [] start_points [].

(** [_process_chunk]; the wall-clock [processing_time] is left out. *)
Definition _process_chunk (start_time end_time : datetime)
    (previous_state : TemporalCarryover) (starting_doc : option string)
    : result ChunkResult.t :=
  docs_in_chunk ← _get_docs_in_window start_time end_time starting_doc previous_state;
  match docs_in_chunk with
  | [] =>
      Ok (ChunkResult.mk (chunk_index previous_state) start_time end_time [] [] [] [] [] 0)
  | _ =>
      critical ← _identify_critical_events docs_in_chunk previous_state;
      causal ← _identify_causal_relationships docs_in_chunk previous_state;
      Ok (ChunkResult.mk (chunk_index previous_state) start_time end_time
            docs_in_chunk (NodeData.id <$> docs_in_chunk) critical causal
            (_extract_key_entities docs_in_chunk previous_state)
            (Z.of_nat (length docs_in_chunk) * 1000))
  end.

(** The variables of the [while] loop of [analyze_long_chain]. *)
Record LoopState : Type := mkLoop {
  state : TemporalCarryover;
  chunks_processed : list ChunkResult.t;
  current_time : datetime;
  total_docs : Z
}.

(** One turn of the loop.  [_extract_carryover] already adds one to
    [chunk_index], and the loop adds one more. *)
Definition chunk_step (start_doc_id : string) (end_time : datetime) (s : LoopState)
    : result LoopState :=
  let chunk_end :=
    Z.min (current_time s + timedelta (chunk_size_days self)) end_time in
  chunk_result ←
    _process_chunk (current_time s) chunk_end (state s)
      (if chunk_index (state s) =? 0 then Some start_doc_id else None);
  let total := total_docs s + Z.of_nat (length (ChunkResult.documents chunk_result)) in
  let next := _extract_carryover self chunk_result (state s) in
  Ok (mkLoop
        (mkCarryover (critical_events next) (key_entities next) (causal_chains next)
           (attention_scores next) (open_questions next) (chunk_index next + 1)
           (time_range next) total)
        (chunks_processed s ++ [chunk_result]) chunk_end total).

(** The loop, stopped after [turns] turns if it has not ended by then. *)
Fixpoint run_chunks (start_doc_id : string) (end_time : datetime) (turns : nat)
    (s : LoopState) : result LoopState :=
  match turns with
  | O => Ok s
  | S turns' =>
      if current_time s <? end_time then
        s' ← chunk_step start_doc_id end_time s;
        run_chunks start_doc_id end_time turns' s'
      else Ok s
  end.

(** The loop itself: it has to end within the fuel. *)
Fixpoint chunk_loop (start_doc_id : string) (end_time : datetime) (fuel : nat)
    (s : LoopState) : result LoopState :=
  if current_time s <? end_time then
    match fuel with
    | O => Unfinished
    | S fuel' =>
        s' ← chunk_step start_doc_id end_time s;
        chunk_loop start_doc_id end_time fuel' s'
    end
  else Ok s.

Definition initial_state (start_time : datetime) : LoopState :=
  mkLoop (mkCarryover [] [] [] [] [] 0 (Some start_time, None) 0) [] start_time 0.

(** [analyze_long_chain], up to the final carryover and the chunks; with
    chunks of a day or more the loop takes at most one turn per day of
    the span, and one more. *)
Definition analyze_long_chain (start_doc_id : string) (end_doc_id : option string)
    (max_days : Z) : result LoopState :=
  match get_document (api self) start_doc_id with
  | None => ValueError ("Start document not found: " +:+ start_doc_id)
  | Some start_doc =>
      let start_time := NodeData.timestamp start_doc in
      end_time ←
        match end_doc_id with
        | Some e =>
            if bool_decide (e = "") then Ok (start_time + timedelta max_days)
            else match get_document (api self) e with
                 | None => ValueError ("End document not found: " +:+ e)
                 | Some end_doc => Ok (NodeData.timestamp end_doc)
                 end
        | None => Ok (start_time + timedelta max_days)
        end;
      chunk_loop start_doc_id end_time
        (S (Z.to_nat (delta_days end_time start_time) + 1)) (initial_state start_time)
  end.
End Markovian.

(** ** Paths through the API ([totg_api.py]) *)

Module PathResult.
Record t : Type := mk {
  from_node : string;
  to_node : string;
  path : option (list string);
  path_length : Z;
  exists_ : bool
}.
End PathResult.

(** [TOTGAPI.find_path]: [len(path) if path else 0] and
    [path is not None]. *)
Definition find_path (g : TemporalGraph) (from_doc to_doc : string) (max_hops : Z)
    : result PathResult.t :=
  path ← get_shortest_path g from_doc to_doc max_hops;
  Ok (PathResult.mk from_doc to_doc path
        (match path with
         | Some (x :: p) => Z.of_nat (length (x :: p))
         | _ => 0
         end)
        (bool_decide (is_Some path))).


(** ** Layers and statistics ([totg_core_fixed.py]) *)

(** [get_layer_nodes]: a copy of the layer's list. *)
Definition get_layer_nodes (g : TemporalGraph) (layer_id : string) : list string :=
  dd_get (layers g) layer_id.

(** [a / b] on two ints that a float holds exactly, as the counts of a
    graph are. *)
Definition int_truediv (a b : Z) : float := (float_of_Z a / float_of_Z b)%float.

Module GraphStatistics.
Record t : Type := mk {
  nodes_created : Z;
  edges_created : Z;
  layers_created : Z;
  traversals_performed : Z;
  total_nodes : Z;
  total_edges : Z;
  total_layers : Z;
  avg_edges_per_node : float;
  avg_layer_size : float
}.
End GraphStatistics.

(** [TemporalGraph.get_statistics] *)
Definition get_statistics (g : TemporalGraph) : GraphStatistics.t :=
  GraphStatistics.mk
    (nodes_created (stats g)) (edges_created (stats g))
    (layers_created (stats g)) (traversals_performed (stats g))
    (Z.of_nat (size (nodes g)))
    (Z.of_nat (edge_total (edges g)))
    (Z.of_nat (size (layers g)))
    (int_truediv (edges_created (stats g)) (Z.max 1 (nodes_created (stats g))))
    (int_truediv (Z.of_nat (size (nodes g))) (Z.max 1 (Z.of_nat (size (layers g))))).

(** ** Document queries of the API ([totg_api.py]) *)

(** [[self._node_to_data(self.graph.nodes[nid]) for nid in node_ids]] *)
Fixpoint nodes_to_data (g : TemporalGraph) (node_ids : list string)
    : result (list NodeData.t) :=
  match node_ids with
  | [] => Ok []
  | nid :: rest =>
      node ← subscript (nodes g) nid;
      docs ← nodes_to_data g rest;
      Ok (_node_to_data node :: docs)
  end.

(** [TOTGAPI.get_documents_in_range] *)
Definition get_documents_in_range (g : TemporalGraph) (start_time end_time : datetime)
    : result (list NodeData.t) :=
  nodes_to_data g (get_nodes_in_timerange g start_time end_time).

Section DocumentQueries.
Variable iter : list string → list string.

(** [TOTGAPI.get_future_documents] and [TOTGAPI.get_past_documents]: the
    hop bound is the default of the graph query, 5. *)
Definition get_future_documents (g : TemporalGraph) (doc_id : string)
    (days max_results : Z) : result (list NodeData.t) :=
  node_ids ← get_forward_nodes iter g doc_id days 5 max_results;
  nodes_to_data g node_ids.

Definition get_past_documents (g : TemporalGraph) (doc_id : string)
    (days max_results : Z) : result (list NodeData.t) :=
  node_ids ← get_backward_nodes iter g doc_id days 5 max_results;
  nodes_to_data g node_ids.
End DocumentQueries.

(** The operations that build the document chain. *)
Definition chain_ops : list graph_op :=
  [ doc "contract" 0; doc "amendment" 15; doc "claim" 50;
    doc "response" 65; doc "settlement" 80;
    link "contract" "amendment" SEQUENTIAL;
    link "amendment" "claim" CAUSAL;
    link "claim" "response" SEQUENTIAL;
    link "response" "settlement" SEQUENTIAL ].

(** ** The API object ([totg_api.py]) *)

(** [BidirectionalAttention.stats] *)
Module AttentionStats.
Record t : Type := mk {
  attention_computations : Z;
  cache_hits : Z;
  cache_misses : Z;
  forward_queries : Z;
  backward_queries : Z
}.
End AttentionStats.

(** The state of a [BidirectionalAttention] beside its graph, which is the
    graph object of the API that made it.  The cache maps a key to a dict
    of weights. *)
Module Attention.
Record t : Type := mk {
  semantic_sim : SemanticSimilarity.t;
  attention_heads : list AttentionHead;
  attention_cache : list (string * list (string * float));
  cache_timestamp : datetime;
  cache_ttl_minutes : Z;
  stats : AttentionStats.t
}.
End Attention.

(** [TOTGAPI]: [attention] is [None] exactly while [_attention_initialized]
    is [False]; [markovian] holds the [chunk_size_days] of the
    [MarkovianTOTG], whose caps are the defaults and whose [api] is this
    very object. *)
Module TOTGAPI.
Record t : Type := mk {
  graph : TemporalGraph;
  attention : option Attention.t;
  markovian : option Z
}.
End TOTGAPI.

(** [TOTGAPI()] *)
Definition new_api : TOTGAPI.t := TOTGAPI.mk empty_graph None None.

(** [_initialize_semantic_model], over [self.graph.nodes.values()]. *)
Definition _initialize_semantic_model (values : list TemporalNode)
    : SemanticSimilarity.t :=
  foldl (λ sim node,
           if bool_decide (content node = "") then sim
           else add_document sim (content node))
    empty_corpus values.

(** [BidirectionalAttention(graph)] when the clock reads [now]. *)
Definition new_attention (values : list TemporalNode) (now : datetime)
    : Attention.t :=
  Attention.mk (_initialize_semantic_model values) default_heads [] now 60
    (AttentionStats.mk 0 0 0 0 0).

(** [invalidate_cache] *)
Definition invalidate_cache (now : datetime) (a : Attention.t) : Attention.t :=
  Attention.mk (Attention.semantic_sim a) (Attention.attention_heads a) [] now
    (Attention.cache_ttl_minutes a) (Attention.stats a).

(** The dict that [TOTGAPI.add_document] returns; the ISO string of the
    timestamp is kept as the datetime. *)
Module AddDocumentResult.
Record t : Type := mk {
  success : bool;
  doc_id : string;
  timestamp : datetime;
  message : string
}.
End AddDocumentResult.

(** The two dicts that [TOTGAPI.add_relationship] returns. *)
Inductive RelationshipResult : Type :=
| InvalidRelationType (message : string)
| Relationship (success : bool) (from_doc to_doc relation message : string).

(** [TemporalRelation(value)]: the member with that value, if any. *)
Definition TemporalRelation_of (value : string) : option TemporalRelation :=
  head (filter (λ r, TemporalRelation_value r = value)
          [SEQUENTIAL; CAUSAL; CONCURRENT; BRANCH; MERGE]).

Section API.
(** The order of [self.graph.nodes.values()]. *)
Variable values_of : gmap string TemporalNode → list TemporalNode.

(** [_ensure_attention] when the clock reads [now]. *)
Definition _ensure_attention (now : datetime) (s : TOTGAPI.t) : TOTGAPI.t :=
  match TOTGAPI.attention s with
  | Some _ => s
  | None =>
      TOTGAPI.mk (TOTGAPI.graph s)
        (Some (new_attention (values_of (nodes (TOTGAPI.graph s))) now))
        (TOTGAPI.markovian s)
  end.

(** [_ensure_markovian] *)
Definition _ensure_markovian (chunk_size_days : Z) (s : TOTGAPI.t) : TOTGAPI.t :=
  match TOTGAPI.markovian s with
  | Some _ => s
  | None => TOTGAPI.mk (TOTGAPI.graph s) (TOTGAPI.attention s) (Some chunk_size_days)
  end.

(** [TOTGAPI.add_document] with a naive datetime as [timestamp], on an
    API object whose documents all have naive timestamps.  The other
    branches are outside the model: without a timestamp the code stores
    the timezone-aware [datetime.now(timezone.utc)] as it is, and an ISO
    string is parsed first. *)
Definition api_add_document (now : datetime) (s : TOTGAPI.t) (doc_id content : string)
    (timestamp : datetime) (metadata : option (gmap string string))
    : AddDocumentResult.t * TOTGAPI.t :=
  let node := new_node doc_id timestamp CONTENT content (default ∅ metadata) in
  let added := add_node (TOTGAPI.graph s) node in
  let attention' :=
    (λ a, let a' := invalidate_cache now a in
          Attention.mk (add_document (Attention.semantic_sim a') content)
            (Attention.attention_heads a') (Attention.attention_cache a')
            (Attention.cache_timestamp a') (Attention.cache_ttl_minutes a')
            (Attention.stats a'))
      <$> TOTGAPI.attention s in
  (AddDocumentResult.mk added.1 doc_id timestamp
     (if added.1 then "Document added successfully" else "Failed to add document"),
   TOTGAPI.mk added.2 attention' (TOTGAPI.markovian s)).

(** [TOTGAPI.add_relationship] *)
Definition api_add_relationship (now : datetime) (s : TOTGAPI.t)
    (from_doc to_doc relation_type : string) (metadata : option (gmap string string))
    : RelationshipResult * TOTGAPI.t :=
  match TemporalRelation_of relation_type with
  | None =>
      (InvalidRelationType
         ("Invalid relation type: " +:+ relation_type
          +:+ ". Use: sequential, causal, concurrent, branch, merge"),
       s)
  | Some relation =>
      let edge := mkEdge from_doc to_doc relation (default ∅ metadata) in
      let added := add_edge (TOTGAPI.graph s) edge in
      (Relationship added.1 from_doc to_doc relation_type
         (if added.1 then "Relationship added successfully"
          else "Failed to add relationship"),
       TOTGAPI.mk added.2 (invalidate_cache now <$> TOTGAPI.attention s)
         (TOTGAPI.markovian s))
  end.

(** [TOTGAPI.analyze_long_chain], the value it returns: the analyzer is
    made on the first call and reads the graph as it is now. *)
Definition api_analyze_long_chain (iter : list string → list string) (s : TOTGAPI.t)
    (start_doc_id : string) (end_doc_id : option string) (max_days : Z)
    (chunk_size_days : Z) : result LoopState :=
  let s' := _ensure_markovian chunk_size_days s in
  analyze_long_chain iter
    (mkMarkovian (TOTGAPI.graph s') (default chunk_size_days (TOTGAPI.markovian s'))
       10 20 15)
    start_doc_id end_doc_id max_days.

(** A call of a method that changes the API object. *)
Inductive api_call : Type :=
| AddDocument (doc_id content : string) (timestamp : datetime)
    (metadata : option (gmap string string))
| AddRelationship (from_doc to_doc relation_type : string)
    (metadata : option (gmap string string))
| EnsureAttention
| EnsureMarkovian (chunk_size_days : Z).

(** A call with the reading of the clock at that time. *)
Definition api_step (s : TOTGAPI.t) (call : datetime * api_call) : TOTGAPI.t :=
  match call.2 with
  | AddDocument doc_id content timestamp metadata =>
      (api_add_document call.1 s doc_id content timestamp metadata).2
  | AddRelationship from_doc to_doc relation_type metadata =>
      (api_add_relationship call.1 s from_doc to_doc relation_type metadata).2
  | EnsureAttention => _ensure_attention call.1 s
  | EnsureMarkovian chunk_size_days => _ensure_markovian chunk_size_days s
  end.

Definition run_api (calls : list (datetime * api_call)) : TOTGAPI.t :=
  foldl api_step new_api calls.
End API.

(** ** The summaries of a period ([MarkovianTOTG.get_temporal_summary]) *)

(** One summary; the two dates of the [period] string are kept as days
    since the epoch. *)
Module ChunkSummary.
Record t : Type := mk {
  period : Z * Z;
  num_docs : Z;
  critical_events : Z;
  key_events : list string;
  causal_chains : Z
}.
End ChunkSummary.





(** * Proofs *)

(** ** The measure of the traversals *)

Lemma sum_list_perm (l1 l2 : list nat) : l1 ≡ₚ l2 → sum_list l1 = sum_list l2.
Proof. induction 1; simpl; lia. Qed.

Lemma pending_nil (m : gmap string (list TemporalEdge)) :
  pending m [] = edge_total m.
Proof.
  unfold pending, edge_total. f_equal.
  rewrite <- list_fmap_compose. apply list_fmap_ext.
  intros i [k es] _. done.
Qed.

Lemma pending_insert (m : gmap string (list TemporalEdge)) k es seen :
  m !! k = None →
  pending (<[k := es]> m) seen
  = ((if bool_decide (k ∈ seen) then O else length es) + pending m seen)%nat.
Proof.
  intros Hk. unfold pending.
  rewrite (sum_list_perm _ _
    (fmap_Permutation _ _ _ (map_to_list_insert m k es Hk))).
  reflexivity.
Qed.

Lemma pending_empty seen : pending ∅ seen = O.
Proof. unfold pending. by rewrite map_to_list_empty. Qed.

(** Visiting [k] takes its edge entries out of the pending ones. *)
Lemma pending_visit (m : gmap string (list TemporalEdge)) k seen :
  k ∉ seen →
  (pending m (seen ++ [k]) + length (dd_get m k))%nat = pending m seen.
Proof.
  intros Hk. unfold dd_get.
  induction m as [|i es m Hi IH] using map_ind.
  - rewrite !pending_empty, lookup_empty. done.
  - rewrite !pending_insert by done.
    destruct (decide (i = k)) as [->|Hne].
    + rewrite lookup_insert_eq. rewrite Hi in IH. simpl in *.
      rewrite bool_decide_eq_true_2 by set_solver.
      rewrite (bool_decide_eq_false_2 (k ∈ seen)) by done. lia.
    + rewrite lookup_insert_ne by done.
      destruct (decide (i ∈ seen)).
      * rewrite !bool_decide_eq_true_2 by set_solver. lia.
      * rewrite !bool_decide_eq_false_2 by set_solver. lia.
Qed.

Lemma pending_visit_le (m : gmap string (list TemporalEdge)) k seen :
  k ∉ seen → (pending m (seen ++ [k]) <= pending m seen)%nat.
Proof. intros Hk. pose proof (pending_visit m k seen Hk). lia. Qed.

Section WorklistTermination.
Context {E : Type}.
Variable adj : gmap string (list TemporalEdge).
Variable nbr : TemporalEdge → string.
Variable key : E → string.
Variable hops : E → Z.
Variable child : E → TemporalEdge → E.
Variable found : E → bool.
Variable pruned : string → bool.
Variable max_hops : Z.

Abbreviation loop := (worklist_loop adj nbr key hops child found pruned max_hops).

(** Each iteration pops one entry; a node is expanded once, and pushes at
    most its edge entries. *)
Lemma worklist_loop_terminates fuel visited queue :
  (length queue + pending adj (key <$> visited) <= fuel)%nat →
  ∃ r, loop fuel visited queue = Ok r.
Proof.
  revert visited queue.
  induction fuel as [|fuel IH]; intros visited [|e queue] Hm; simpl in *;
    try (eexists; reflexivity); try lia.
  destruct (found e); [eexists; reflexivity|].
  destruct (bool_decide (key e ∈ key <$> visited)) eqn:Hin; simpl.
  { apply IH. lia. }
  apply bool_decide_eq_false in Hin.
  destruct (max_hops <? hops e); [apply IH; lia|].
  pose proof (pending_visit adj (key e) (key <$> visited) Hin) as Hp.
  destruct (pruned (key e)); apply IH; rewrite fmap_app; simpl.
  - lia.
  - rewrite length_app, length_fmap.
    pose proof (length_filter (λ edge, nbr edge ∉ (key <$> visited) ++ [key e])
                  (dd_get adj (key e))).
    lia.
Qed.

(** More fuel does not change a result. *)
Lemma worklist_loop_fuel_mono fuel fuel' visited queue r :
  loop fuel visited queue = Ok r → (fuel <= fuel')%nat →
  loop fuel' visited queue = Ok r.
Proof.
  revert fuel' visited queue.
  induction fuel as [|fuel IH]; intros fuel' visited [|e queue] H Hle;
    simpl in *; try done.
  - by destruct fuel'.
  - by destruct fuel'.
  - destruct fuel' as [|fuel']; [lia|]. simpl.
    destruct (found e); [done|].
    destruct (bool_decide _ || _); [apply IH; [done|lia]|].
    destruct (pruned _); apply IH; done || lia.
Qed.

(** The visited list never holds an id twice. *)
Lemma worklist_loop_NoDup fuel visited queue o visited' :
  loop fuel visited queue = Ok (o, visited') →
  NoDup (key <$> visited) → NoDup (key <$> visited').
Proof.
  revert visited queue.
  induction fuel as [|fuel IH]; intros visited [|e queue] H Hnd;
    simpl in *; try done; try congruence.
  destruct (found e); [congruence|].
  destruct (bool_decide (key e ∈ key <$> visited)) eqn:Hin; simpl in H.
  { eapply IH; eauto. }
  apply bool_decide_eq_false in Hin.
  destruct (max_hops <? hops e); [eapply IH; eauto|].
  assert (NoDup (key <$> visited ++ [e])).
  { rewrite fmap_app. apply NoDup_app. split_and!; [done| |apply NoDup_singleton].
    intros x Hx. simpl. set_solver. }
  destruct (pruned _); eapply IH; eauto.
Qed.
End WorklistTermination.

(** ** The four loops are instances of the common form *)

(** The visited ids after an entry is added are the ids of the entries. *)
Ltac visit_entry IH :=
  cbn [never]; rewrite <- IH, fmap_app; reflexivity.

Lemma bfs_forward_loop_worklist g max_hops end_time fuel
    (visited queue : list (string * Z)) :
  bfs_forward_loop g max_hops end_time fuel visited.*1 queue
  = (λ r, r.2.*1) <$>
      worklist_loop (edges g) to_node fst snd forward_child never
        (beyond_window g end_time) max_hops fuel visited queue.
Proof.
  revert visited queue.
  induction fuel as [|fuel IH]; intros visited [|[current_id hops] queue];
    simpl; try done.
  destruct (bool_decide _ || _); [apply IH|].
  unfold beyond_window.
  destruct (nodes g !! current_id) as [n|]; [destruct (end_time <? timestamp n)|];
    visit_entry IH.
Qed.

Lemma bfs_backward_loop_worklist g max_hops start_time fuel
    (visited queue : list (string * Z)) :
  bfs_backward_loop g max_hops start_time fuel visited.*1 queue
  = (λ r, r.2.*1) <$>
      worklist_loop (reverse_edges g) from_node fst snd backward_child never
        (before_window g start_time) max_hops fuel visited queue.
Proof.
  revert visited queue.
  induction fuel as [|fuel IH]; intros visited [|[current_id hops] queue];
    simpl; try done.
  destruct (bool_decide _ || _); [apply IH|].
  unfold before_window.
  destruct (nodes g !! current_id) as [n|]; [destruct (timestamp n <? start_time)|];
    visit_entry IH.
Qed.

Lemma has_path_loop_worklist g target max_hops fuel
    (visited queue : list (string * Z)) :
  has_path_loop g target max_hops fuel visited.*1 queue
  = (λ r, bool_decide (is_Some r.1)) <$>
      worklist_loop (edges g) to_node fst snd forward_child
        (λ e, bool_decide (e.1 = target)) never max_hops fuel visited queue.
Proof.
  revert visited queue.
  induction fuel as [|fuel IH]; intros visited [|[current_id hops] queue];
    simpl; try done.
  destruct (bool_decide (current_id = target)); [done|].
  destruct (bool_decide _ || _); [apply IH|].
  visit_entry IH.
Qed.

Lemma shortest_path_loop_worklist g target max_hops fuel
    (visited queue : list (string * list string * Z)) :
  shortest_path_loop g target max_hops fuel
    ((λ e : string * list string * Z, e.1.1) <$> visited) queue
  = (λ r : option (string * list string * Z) * list (string * list string * Z),
       (λ e : string * list string * Z, e.1.2) <$> r.1) <$>
      worklist_loop (edges g) to_node (λ e : string * list string * Z, e.1.1) snd
        path_child (λ e : string * list string * Z, bool_decide (e.1.1 = target))
        never max_hops fuel visited queue.
Proof.
  revert visited queue.
  induction fuel as [|fuel IH]; intros visited [|[[current_id path] hops] queue];
    simpl; try done.
  destruct (bool_decide (current_id = target)); [done|].
  destruct (bool_decide _ || _); [apply IH|].
  visit_entry IH.
Qed.

(** ** Termination of the traversals *)

Lemma worklist_loop_total {E : Type} adj nbr (key : E → string) hops child found
    pruned max_hops (e : E) :
  ∃ o visited,
    NoDup (key <$> visited) ∧
    ∀ fuel, (bfs_fuel adj <= fuel)%nat →
      worklist_loop adj nbr key hops child found pruned max_hops fuel [] [e]
      = Ok (o, visited).
Proof.
  destruct (worklist_loop_terminates adj nbr key hops child found pruned max_hops
              (bfs_fuel adj) [] [e]) as [[o visited] Hr].
  { simpl. rewrite pending_nil. unfold bfs_fuel. lia. }
  exists o, visited. split.
  - eapply worklist_loop_NoDup; [exact Hr|]. constructor.
  - intros fuel Hfuel. eapply worklist_loop_fuel_mono; eauto.
Qed.

Lemma bfs_forward_loop_total g start_node max_hops end_time :
  ∃ visited, NoDup visited ∧
    ∀ fuel, (bfs_fuel (edges g) <= fuel)%nat →
      bfs_forward_loop g max_hops end_time fuel [] [(start_node, 0)] = Ok visited.
Proof.
  destruct (worklist_loop_total (edges g) to_node fst snd forward_child never
              (beyond_window g end_time) max_hops (start_node, 0))
    as (o & visited & Hnd & Hr).
  exists visited.*1. split; [done|]. intros fuel Hfuel.
  change (@nil string) with ((@nil (string * Z)).*1).
  rewrite bfs_forward_loop_worklist, Hr by done. reflexivity.
Qed.

Lemma bfs_backward_loop_total g target_node max_hops start_time :
  ∃ visited, NoDup visited ∧
    ∀ fuel, (bfs_fuel (reverse_edges g) <= fuel)%nat →
      bfs_backward_loop g max_hops start_time fuel [] [(target_node, 0)] = Ok visited.
Proof.
  destruct (worklist_loop_total (reverse_edges g) from_node fst snd backward_child
              never (before_window g start_time) max_hops (target_node, 0))
    as (o & visited & Hnd & Hr).
  exists visited.*1. split; [done|]. intros fuel Hfuel.
  change (@nil string) with ((@nil (string * Z)).*1).
  rewrite bfs_backward_loop_worklist, Hr by done. reflexivity.
Qed.

Lemma has_path_loop_total g a b max_hops :
  ∃ r, ∀ fuel, (bfs_fuel (edges g) <= fuel)%nat →
    has_path_loop g b max_hops fuel [] [(a, 0)] = Ok r.
Proof.
  destruct (worklist_loop_total (edges g) to_node fst snd forward_child
              (λ e : string * Z, bool_decide (e.1 = b)) never max_hops (a, 0))
    as (o & visited & Hnd & Hr).
  exists (bool_decide (is_Some o)). intros fuel Hfuel.
  change (@nil string) with ((@nil (string * Z)).*1).
  rewrite has_path_loop_worklist, Hr by done. reflexivity.
Qed.

Lemma shortest_path_loop_total g a b max_hops :
  ∃ r, ∀ fuel, (bfs_fuel (edges g) <= fuel)%nat →
    shortest_path_loop g b max_hops fuel [] [(a, [a], 0)] = Ok r.
Proof.
  destruct (worklist_loop_total (edges g) to_node
              (λ e : string * list string * Z, e.1.1) snd path_child
              (λ e : string * list string * Z, bool_decide (e.1.1 = b)) never
              max_hops (a, [a], 0))
    as (o & visited & Hnd & Hr).
  exists ((λ e : string * list string * Z, e.1.2) <$> o). intros fuel Hfuel.
  change (@nil string) with ((λ e : string * list string * Z, e.1.1) <$> []).
  rewrite shortest_path_loop_worklist, Hr by done. reflexivity.
Qed.

Lemma collect_future_finishes g node_id source_ts end_time l :
  collect_future g node_id source_ts end_time l ≠ Unfinished.
Proof.
  induction l as [|x l IH]; simpl; [done|].
  destruct (bool_decide (x = node_id)); [done|].
  unfold subscript. destruct (nodes g !! x); simpl; [|done].
  destruct (collect_future g node_id source_ts end_time l); done.
Qed.

Lemma collect_past_finishes g node_id start_time target_ts l :
  collect_past g node_id start_time target_ts l ≠ Unfinished.
Proof.
  induction l as [|x l IH]; simpl; [done|].
  destruct (bool_decide (x = node_id)); [done|].
  unfold subscript. destruct (nodes g !! x); simpl; [|done].
  destruct (collect_past g node_id start_time target_ts l); done.
Qed.

(** C4. On every graph, cyclic or not, the four traversals end: the BFS
    loops return their visited set, which holds no id twice, within
    [bfs_fuel] iterations (one more than the number of edge entries of
    the adjacency map they follow) and whatever the fuel above that;
    [has_path] and [get_shortest_path] return an answer, and
    [get_forward_nodes] and [get_backward_nodes] return or raise, they are
    never left unfinished. *)
Theorem traversals_terminate (iter : list string → list string) (g : TemporalGraph)
    (a b : string) (max_hops time_window_days max_results : Z) (t : datetime) :
  (∃ visited, _bfs_forward g a max_hops t = Ok visited ∧ NoDup visited ∧
     ∀ fuel, (bfs_fuel (edges g) <= fuel)%nat →
       bfs_forward_loop g max_hops t fuel [] [(a, 0)] = Ok visited) ∧
  (∃ visited, _bfs_backward g a max_hops t = Ok visited ∧ NoDup visited ∧
     ∀ fuel, (bfs_fuel (reverse_edges g) <= fuel)%nat →
       bfs_backward_loop g max_hops t fuel [] [(a, 0)] = Ok visited) ∧
  (∃ answer, has_path g a b max_hops = Ok answer) ∧
  (∃ path, get_shortest_path g a b max_hops = Ok path) ∧
  get_forward_nodes iter g a time_window_days max_hops max_results ≠ Unfinished ∧
  get_backward_nodes iter g a time_window_days max_hops max_results ≠ Unfinished.
Proof.
  split_and!.
  - destruct (bfs_forward_loop_total g a max_hops t) as (visited & Hnd & Hr).
    exists visited. split_and!; [apply Hr; lia | done | done].
  - destruct (bfs_backward_loop_total g a max_hops t) as (visited & Hnd & Hr).
    exists visited. split_and!; [apply Hr; lia | done | done].
  - unfold has_path.
    destruct (nodes g !! a); [|by eexists].
    destruct (nodes g !! b); [|by eexists].
    destruct (bool_decide (a = b)); [by eexists|].
    destruct (has_path_loop_total g a b max_hops) as [r Hr].
    exists r. apply Hr. lia.
  - unfold get_shortest_path.
    destruct (nodes g !! a); [|by eexists].
    destruct (nodes g !! b); [|by eexists].
    destruct (bool_decide (a = b)); [by eexists|].
    destruct (shortest_path_loop_total g a b max_hops) as [r Hr].
    exists r. apply Hr. lia.
  - unfold get_forward_nodes. destruct (nodes g !! a) as [source_node|]; [|done].
    destruct (bfs_forward_loop_total g a max_hops
                (timestamp source_node + timedelta time_window_days))
      as (visited & _ & Hr).
    unfold _bfs_forward. rewrite Hr by lia. simpl.
    pose proof (collect_future_finishes g a (timestamp source_node)
                  (timestamp source_node + timedelta time_window_days)
                  (iter visited)) as Hc.
    destruct (collect_future _ _ _ _ _); done.
  - unfold get_backward_nodes. destruct (nodes g !! a) as [target_node|]; [|done].
    destruct (bfs_backward_loop_total g a max_hops
                (timestamp target_node - timedelta time_window_days))
      as (visited & _ & Hr).
    unfold _bfs_backward. rewrite Hr by lia. simpl.
    pose proof (collect_past_finishes g a
                  (timestamp target_node - timedelta time_window_days)
                  (timestamp target_node) (iter visited)) as Hc.
    destruct (collect_past _ _ _ _ _); done.
Qed.

(** ** What a BFS loop visits *)

Lemma StronglySorted_snoc_all {A : Type} (R : A → A → Prop) (l1 l2 : list A) :
  StronglySorted R l1 → StronglySorted R l2 →
  (∀ x y, x ∈ l1 → y ∈ l2 → R x y) →
  StronglySorted R (l1 ++ l2).
Proof.
  intros H1 H2 H12. induction H1 as [|x l1 Hs IH Hx]; simpl; [done|].
  constructor.
  - apply IH. intros. apply H12; [by right|done].
  - apply Forall_app. split; [done|].
    apply Forall_forall. intros y Hy. apply H12; [by left|done].
Qed.

Lemma StronglySorted_same {A : Type} (f : A → Z) (c : Z) (l : list A) :
  (∀ x, x ∈ l → f x = c) → StronglySorted (λ x y, f x ≤ f y) l.
Proof.
  induction l as [|x l IH]; intros H; constructor.
  - apply IH. intros. apply H. by right.
  - apply Forall_forall. intros y Hy.
    rewrite (H x) by left. rewrite (H y) by (by right). lia.
Qed.

Section WorklistReach.
Context {E : Type}.
Variable adj : gmap string (list TemporalEdge).
Variable nbr : TemporalEdge → string.
Variable key : E → string.
Variable hops : E → Z.
Variable child : E → TemporalEdge → E.
Variable pruned : string → bool.
Variable max_hops : Z.
Hypothesis key_child : ∀ e edge, key (child e edge) = nbr edge.
Hypothesis hops_child : ∀ e edge, hops (child e edge) = hops e + 1.
Variable s : string.

Abbreviation bfs := (worklist_loop adj nbr key hops child never pruned max_hops).

(** [reach n v]: [n] edges lead from [s] to [v], through nodes that the
    loop expands. *)
Inductive reach : nat → string → Prop :=
| reach_here : reach O s
| reach_step n u edge :
    reach n u → pruned u = false → edge ∈ dd_get adj u →
    reach (S n) (nbr edge).

(** The invariant of the loop.  The queue is sorted by hop count and spans
    at most two counts, none below those of the visited entries; the
    successors of an expanded entry are visited or queued, one hop further
    at most; every entry was reached in its hop count. *)
Record bfs_inv (visited queue : list E) : Prop := {
  inv_bound : ∃ b, (∀ e, e ∈ visited → hops e ≤ b) ∧
                   (∀ e, e ∈ queue → b ≤ hops e ≤ b + 1);
  inv_sorted : StronglySorted (λ e1 e2, hops e1 ≤ hops e2) queue;
  inv_closed : ∀ e edge,
      e ∈ visited → pruned (key e) = false → hops e + 1 ≤ max_hops →
      edge ∈ dd_get adj (key e) →
      ∃ e', (e' ∈ visited ∨ e' ∈ queue) ∧ key e' = nbr edge ∧ hops e' ≤ hops e + 1;
  inv_start : 0 ≤ max_hops →
      ∃ e, (e ∈ visited ∨ e ∈ queue) ∧ key e = s ∧ hops e ≤ 0;
  inv_sound : ∀ e, e ∈ visited ∨ e ∈ queue →
      ∃ n, Z.of_nat n = hops e ∧ reach n (key e);
  inv_hops : ∀ e, e ∈ visited → hops e ≤ max_hops
}.

Lemma bfs_inv_init e0 : key e0 = s → hops e0 = 0 → bfs_inv [] [e0].
Proof.
  intros Hk Hh. split.
  - exists 0. split; [set_solver|]. intros e He.
    apply list_elem_of_singleton in He as ->. lia.
  - repeat constructor.
  - set_solver.
  - intros _. exists e0. split_and!; [right; by left | done | lia].
  - intros e [He|He]; [set_solver|].
    apply list_elem_of_singleton in He as ->.
    exists O. split; [lia|]. rewrite Hk. constructor.
  - set_solver.
Qed.

(** An entry whose node is visited already, or that is too many hops away,
    is dropped. *)
Lemma bfs_inv_discard visited e queue :
  bfs_inv visited (e :: queue) →
  key e ∈ key <$> visited ∨ max_hops < hops e →
  bfs_inv visited queue.
Proof.
  intros [[b [Hb1 Hb2]] Hs Hc Hst Hsd Hh] Hdrop.
  assert (Hhead : e ∈ e :: queue) by left.
  assert (Hsub : ∀ e', e' ∈ visited ∨ e' ∈ e :: queue →
            hops e' ≤ hops e → hops e ≤ max_hops →
            ∃ e'', (e'' ∈ visited ∨ e'' ∈ queue) ∧ key e'' = key e' ∧ hops e'' ≤ hops e').
  { intros e' [He'|He'] Hle Hmax;
      [exists e'; split_and!; [by left | done | lia] |].
    apply elem_of_cons in He' as [->|He'];
      [|exists e'; split_and!; [by right | done | lia]].
    destruct Hdrop as [Hin|Hgt]; [|lia].
    apply list_elem_of_fmap in Hin as (e'' & Heq & Hin).
    exists e''. split_and!; [by left | done |].
    specialize (Hb1 _ Hin). specialize (Hb2 e Hhead). lia. }
  apply StronglySorted_inv in Hs as [Hs Hmin].
  rewrite Forall_forall in Hmin.
  split.
  - exists b. split; [done|]. intros. apply Hb2. by right.
  - done.
  - intros e0 edge He0 Hp Hm Hedge.
    destruct (Hc e0 edge He0 Hp Hm Hedge) as (e' & He' & Hk & Hle).
    destruct He' as [He'|He']; [exists e'; split_and!; [by left | done | done] |].
    apply elem_of_cons in He' as [->|He'];
      [|exists e'; split_and!; [by right | done | done]].
    destruct (Hsub e (or_intror Hhead)) as (e'' & ? & ? & ?); [lia | lia |].
    exists e''. split_and!; [done | congruence | lia].
  - intros Hm. destruct (Hst Hm) as (e' & He' & Hk & Hle).
    destruct He' as [He'|He']; [exists e'; split_and!; [by left | done | done] |].
    apply elem_of_cons in He' as [->|He'];
      [|exists e'; split_and!; [by right | done | done]].
    destruct (Hsub e (or_intror Hhead)) as (e'' & ? & ? & ?); [lia | lia |].
    exists e''. split_and!; [done | congruence | lia].
  - intros e' [He'|He']; apply Hsd; [by left | right; by right].
  - done.
Qed.

(** An entry whose node is new is visited; its successors are queued unless
    the node is pruned. *)
Lemma bfs_inv_visit visited e queue :
  bfs_inv visited (e :: queue) →
  key e ∉ key <$> visited → hops e ≤ max_hops →
  bfs_inv (visited ++ [e])
    (if pruned (key e) then queue
     else queue ++ (child e <$>
            filter (λ edge, nbr edge ∉ key <$> visited ++ [e])
              (dd_get adj (key e)))).
Proof.
  intros [[b [Hb1 Hb2]] Hs Hc Hst Hsd Hh] Hnew Hmax.
  apply StronglySorted_inv in Hs as [Hs Hmin].
  rewrite Forall_forall in Hmin.
  assert (Hhead : e ∈ e :: queue) by left.
  pose proof (Hb2 e Hhead) as Hbe.
  set (new := child e <$> filter (λ edge, nbr edge ∉ key <$> visited ++ [e])
                            (dd_get adj (key e))).
  assert (Hnew_hops : ∀ e', e' ∈ new → hops e' = hops e + 1).
  { intros e' He'. apply list_elem_of_fmap in He' as (edge & -> & _).
    apply hops_child. }
  assert (Hq : ∀ e', e' ∈ (if pruned (key e) then queue else queue ++ new) →
                 e' ∈ queue ∨ (pruned (key e) = false ∧ e' ∈ new)).
  { intros e'. destruct (pruned (key e)); [eauto|].
    rewrite elem_of_app. naive_solver. }
  assert (Hq' : ∀ e', e' ∈ queue →
                  e' ∈ (if pruned (key e) then queue else queue ++ new)).
  { intros e' He'. destruct (pruned (key e)); [done|]. apply elem_of_app. eauto. }
  split.
  - exists (hops e). split.
    + intros e' He'. apply elem_of_app in He' as [He'|He'].
      * specialize (Hb1 _ He'). lia.
      * apply list_elem_of_singleton in He' as ->. lia.
    + intros e' He'. apply Hq in He' as [He'|[_ He']].
      * specialize (Hmin _ He').
        assert (Htl : e' ∈ e :: queue) by (by right).
        specialize (Hb2 e' Htl). simpl in *. lia.
      * rewrite (Hnew_hops _ He'). lia.
  - destruct (pruned (key e)); [done|].
    apply StronglySorted_snoc_all; [done | |].
    + apply (StronglySorted_same hops (hops e + 1)). done.
    + intros x y Hx Hy. rewrite (Hnew_hops _ Hy).
      assert (Htl : x ∈ e :: queue) by (by right).
      specialize (Hb2 x Htl). lia.
  - intros e0 edge He0 Hp Hm Hedge.
    apply elem_of_app in He0 as [He0|He0].
    + destruct (Hc e0 edge He0 Hp Hm Hedge) as (e' & He' & Hk & Hle).
      exists e'. split_and!; [|done|done].
      destruct He' as [He'|He']; [left; apply elem_of_app; eauto|].
      apply elem_of_cons in He' as [->|He'].
      * left. apply elem_of_app. right. by left.
      * right. by apply Hq'.
    + apply list_elem_of_singleton in He0 as ->. rewrite Hp.
      destruct (decide (nbr edge ∈ key <$> visited ++ [e])) as [Hin|Hout].
      * apply list_elem_of_fmap in Hin as (e' & Heq & Hin).
        exists e'. split_and!; [by left | done |].
        apply elem_of_app in Hin as [Hin|Hin].
        -- specialize (Hb1 _ Hin). lia.
        -- apply list_elem_of_singleton in Hin as ->. lia.
      * exists (child e edge). split_and!.
        -- right. apply elem_of_app. right.
           apply list_elem_of_fmap_2. apply list_elem_of_filter. done.
        -- apply key_child.
        -- rewrite hops_child. lia.
  - intros Hm. destruct (Hst Hm) as (e' & He' & Hk & Hle).
    exists e'. split_and!; [|done|done].
    destruct He' as [He'|He']; [left; apply elem_of_app; eauto|].
    apply elem_of_cons in He' as [->|He'].
    + left. apply elem_of_app. right. by left.
    + right. by apply Hq'.
  - intros e' [He'|He'].
    + apply Hsd. apply elem_of_app in He' as [He'|He']; [by left|].
      apply list_elem_of_singleton in He' as ->. right. by left.
    + apply Hq in He' as [He'|[Hp He']]; [apply Hsd; right; by right|].
      apply list_elem_of_fmap in He' as (edge & -> & Hedge).
      apply list_elem_of_filter in Hedge as [_ Hedge].
      destruct (Hsd e (or_intror Hhead)) as (n & Hn & Hr).
      exists (S n). split; [rewrite hops_child; lia|].
      rewrite key_child. by apply (reach_step n (key e)).
  - intros e' He'. apply elem_of_app in He' as [He'|He']; [by apply Hh|].
    apply list_elem_of_singleton in He' as ->. done.
Qed.

Lemma bfs_inv_loop fuel visited queue o visited' :
  bfs fuel visited queue = Ok (o, visited') →
  bfs_inv visited queue → bfs_inv visited' [].
Proof.
  revert visited queue.
  induction fuel as [|fuel IH]; intros visited [|e queue] H Hinv;
    simpl in H; try done; try congruence.
  destruct (bool_decide (key e ∈ key <$> visited)) eqn:Hin; simpl in H.
  { apply bool_decide_eq_true in Hin. eapply IH; [exact H|].
    eapply bfs_inv_discard; eauto. }
  apply bool_decide_eq_false in Hin.
  destruct (max_hops <? hops e) eqn:Hgt.
  { apply Z.ltb_lt in Hgt. eapply IH; [exact H|].
    eapply bfs_inv_discard; eauto. }
  apply Z.ltb_ge in Hgt.
  pose proof (bfs_inv_visit visited e queue Hinv Hin Hgt) as Hinv'.
  destruct (pruned (key e)); eapply IH; eauto.
Qed.

(** The loop visits the nodes that a path of at most [max_hops] edges
    reaches from the start through expanded nodes, and no other. *)
Lemma bfs_visits fuel e0 o visited :
  bfs fuel [] [e0] = Ok (o, visited) →
  key e0 = s → hops e0 = 0 →
  ∀ v, v ∈ key <$> visited ↔ ∃ n, Z.of_nat n ≤ max_hops ∧ reach n v.
Proof.
  intros H Hk Hh v.
  pose proof (bfs_inv_loop _ _ _ _ _ H (bfs_inv_init e0 Hk Hh))
    as [_ _ Hc Hst Hsd Hhops].
  split.
  - intros Hv. apply list_elem_of_fmap in Hv as (e & -> & He).
    destruct (Hsd e (or_introl He)) as (n & Hn & Hr).
    exists n. split; [|done]. specialize (Hhops _ He). lia.
  - intros (n & Hn & Hr).
    cut (∃ e, e ∈ visited ∧ key e = v ∧ hops e ≤ Z.of_nat n).
    { intros (e & He & <- & _). by apply list_elem_of_fmap_2. }
    induction Hr as [|n u edge Hr IH Hp Hedge].
    + destruct (Hst Hn) as (e & [He|He] & Hke & Hle); [|set_solver].
      exists e. split_and!; [done | done | lia].
    + destruct IH as (e & He & Hke & Hle); [lia|]. subst u.
      destruct (Hc e edge He Hp ltac:(lia) Hedge) as (e' & [He'|He'] & Hke' & Hle');
        [|set_solver].
      exists e'. split_and!; [done | done | lia].
Qed.
End WorklistReach.

(** ** Sorting by timestamp *)

Lemma insert_asc_perm {A : Type} (x : A * Z) l : insert_asc x l ≡ₚ x :: l.
Proof.
  induction l as [|y l IH]; simpl; [done|].
  destruct (x.2 <=? y.2); [done|]. rewrite IH. apply Permutation_swap.
Qed.

Lemma sort_asc_perm {A : Type} (l : list (A * Z)) : sort_asc l ≡ₚ l.
Proof.
  induction l as [|x l IH]; simpl; [done|].
  rewrite insert_asc_perm. by rewrite IH.
Qed.

Lemma insert_desc_perm {A : Type} (x : A * Z) l : insert_desc x l ≡ₚ x :: l.
Proof.
  induction l as [|y l IH]; simpl; [done|].
  destruct (y.2 <=? x.2); [done|]. rewrite IH. apply Permutation_swap.
Qed.

Lemma sort_desc_perm {A : Type} (l : list (A * Z)) : sort_desc l ≡ₚ l.
Proof.
  induction l as [|x l IH]; simpl; [done|].
  rewrite insert_desc_perm. by rewrite IH.
Qed.

Definition asc {A : Type} (x y : A * Z) : Prop := x.2 ≤ y.2.
Definition desc {A : Type} (x y : A * Z) : Prop := y.2 ≤ x.2.

Lemma insert_asc_sorted {A : Type} (x : A * Z) l :
  StronglySorted asc l → StronglySorted asc (insert_asc x l).
Proof.
  induction 1 as [|y l Hs IH Hy]; simpl; [repeat constructor|].
  destruct (x.2 <=? y.2) eqn:Hle.
  - apply Z.leb_le in Hle. constructor; [by constructor|].
    constructor; [done|]. eapply Forall_impl; [exact Hy|].
    unfold asc. intros; simpl in *; lia.
  - apply Z.leb_gt in Hle. constructor; [done|].
    rewrite insert_asc_perm. constructor; [unfold asc; lia | done].
Qed.

Lemma sort_asc_sorted {A : Type} (l : list (A * Z)) : StronglySorted asc (sort_asc l).
Proof.
  induction l as [|x l IH]; simpl; [constructor|]. by apply insert_asc_sorted.
Qed.

Lemma insert_desc_sorted {A : Type} (x : A * Z) l :
  StronglySorted desc l → StronglySorted desc (insert_desc x l).
Proof.
  induction 1 as [|y l Hs IH Hy]; simpl; [repeat constructor|].
  destruct (y.2 <=? x.2) eqn:Hle.
  - apply Z.leb_le in Hle. constructor; [by constructor|].
    constructor; [done|]. eapply Forall_impl; [exact Hy|].
    unfold desc. intros; simpl in *; lia.
  - apply Z.leb_gt in Hle. constructor; [done|].
    rewrite insert_desc_perm. constructor; [unfold desc; lia | done].
Qed.

Lemma sort_desc_sorted {A : Type} (l : list (A * Z)) : StronglySorted desc (sort_desc l).
Proof.
  induction l as [|x l IH]; simpl; [constructor|]. by apply insert_desc_sorted.
Qed.

(** Two sorted arrangements of the same entries are equal when no two
    entries share a key: a stable sort then has one possible result,
    whatever the order of its input. *)
Lemma sorted_perm_unique {A : Type} (R : A * Z → A * Z → Prop) (l1 l2 : list (A * Z)) :
  (∀ x y, R x y → R y x → x.2 = y.2) →
  StronglySorted R l1 → StronglySorted R l2 →
  l1 ≡ₚ l2 → NoDup l1.*2 → l1 = l2.
Proof.
  intros Hanti Hs1. revert l2.
  induction Hs1 as [|x l1 Hs1 IH Hx]; intros l2 Hs2 Hp Hnd.
  { by apply Permutation_nil_l in Hp. }
  destruct l2 as [|y l2]; [by apply Permutation_nil_r in Hp|].
  apply StronglySorted_inv in Hs2 as [Hs2 Hy].
  rewrite Forall_forall in Hx, Hy.
  simpl in Hnd. apply NoDup_cons in Hnd as [Hx_new Hnd].
  assert (x = y) as <-.
  { destruct (decide_rel (=) x.2 y.2) as [Heq|Hne].
    - assert (Hyin : y ∈ x :: l1) by (rewrite Hp; left).
      apply elem_of_cons in Hyin as [->|Hyin]; [done|].
      exfalso. apply Hx_new. rewrite Heq. by apply list_elem_of_fmap_2.
    - exfalso. apply Hne.
      assert (Hyin : y ∈ x :: l1) by (rewrite Hp; left).
      assert (Hxin : x ∈ y :: l2) by (rewrite <- Hp; left).
      apply elem_of_cons in Hyin as [->|Hyin]; [done|].
      apply elem_of_cons in Hxin as [->|Hxin]; [done|].
      apply Hanti; [by apply Hx | by apply Hy]. }
  f_equal. apply IH; [done | by apply Permutation_cons_inv in Hp | done].
Qed.

Lemma sort_asc_order {A : Type} (l1 l2 : list (A * Z)) :
  l1 ≡ₚ l2 → NoDup l2.*2 → sort_asc l1 = sort_asc l2.
Proof.
  intros Hp Hnd. apply (sorted_perm_unique asc).
  - unfold asc. intros; lia.
  - apply sort_asc_sorted.
  - apply sort_asc_sorted.
  - by rewrite !sort_asc_perm.
  - assert (Hq : (sort_asc l1).*2 ≡ₚ l2.*2)
      by (apply fmap_Permutation; by rewrite sort_asc_perm).
    by rewrite Hq.
Qed.


(** ** Graphs built by [add_node] and [add_edge] *)

(** Every edge entry joins two stored nodes: [add_edge] refuses the others,
    and no node is ever removed. *)
Record edges_closed (g : TemporalGraph) : Prop := {
  closed_to : ∀ k edge, edge ∈ dd_get (edges g) k → is_Some (nodes g !! to_node edge);
  closed_from : ∀ k edge,
      edge ∈ dd_get (reverse_edges g) k → is_Some (nodes g !! from_node edge)
}.

(** Every stored timestamp is [days] days or more away from both ends of
    the range of Python's datetimes: [get_forward_nodes] and
    [get_backward_nodes] with a window of [days] days, from any stored
    node, compute a representable bound and do not raise
    [OverflowError]. *)
Definition window_representable (g : TemporalGraph) (days : Z) : Prop :=
  ∀ k n, nodes g !! k = Some n →
    representable (timestamp n - timedelta days) ∧
    representable (timestamp n + timedelta days).

#[global] Instance representable_dec (t : datetime) : Decision (representable t).
Proof. unfold representable. apply _. Defined.

Lemma window_representable_check (g : TemporalGraph) (days : Z) :
  map_Forall (λ _ n, representable (timestamp n - timedelta days) ∧
                     representable (timestamp n + timedelta days)) (nodes g) →
  window_representable g days.
Proof. intros H k n Hk. exact (H k n Hk). Qed.

Lemma dd_get_append {V : Type} (d : gmap string (list V)) k x k' :
  dd_get (dd_append d k x) k' = if decide (k = k') then dd_get d k ++ [x] else dd_get d k'.
Proof.
  unfold dd_get, dd_append. destruct (decide (k = k')) as [->|Hne].
  - by rewrite lookup_insert_eq.
  - by rewrite lookup_insert_ne.
Qed.

Lemma edges_closed_empty : edges_closed empty_graph.
Proof. split; intros k edge; unfold dd_get; simpl; rewrite lookup_empty; set_solver. Qed.

Lemma edges_closed_add_node g node :
  edges_closed g → edges_closed (add_node g node).2.
Proof.
  intros [Hto Hfrom]. split; simpl; intros k edge Hedge.
  - apply lookup_insert_is_Some'. right. eauto.
  - apply lookup_insert_is_Some'. right. eauto.
Qed.

Lemma edges_closed_add_edge g edge :
  edges_closed g → edges_closed (add_edge g edge).2.
Proof.
  intros [Hto Hfrom]. unfold add_edge.
  destruct (nodes g !! from_node edge) as [from_n|] eqn:Hf;
    [destruct (nodes g !! to_node edge) as [to_n|] eqn:Ht|]; simpl;
    try (split; simpl; eauto; fail).
  assert (Hn : ∀ b : bool,
            nodes (if b then print g "Warning: temporal edge goes backward in time"
                   else g) = nodes g) by (by intros []).
  assert (He : ∀ b : bool,
            edges (if b then print g "Warning: temporal edge goes backward in time"
                   else g) = edges g) by (by intros []).
  assert (Hr : ∀ b : bool,
            reverse_edges (if b then print g "Warning: temporal edge goes backward in time"
                           else g) = reverse_edges g) by (by intros []).
  split; simpl; intros k e; rewrite Hn, ?He, ?Hr, dd_get_append;
    case_decide; eauto; rewrite elem_of_app, list_elem_of_singleton;
    intros [?| ->]; eauto.
Qed.

Lemma edges_closed_build ops : edges_closed (build ops).
Proof.
  unfold build. generalize edges_closed_empty. generalize empty_graph.
  induction ops as [|op ops IH]; intros g Hg; simpl; [done|].
  apply IH. destruct op; simpl.
  - by apply edges_closed_add_node.
  - by apply edges_closed_add_edge.
Qed.

(** ** What [get_forward_nodes] and [get_backward_nodes] return *)

(** What the filter loop keeps of one id. *)
Definition keep_future (g : TemporalGraph) (node_id : string)
    (source_ts end_time : datetime) (reached_id : string)
    : option (string * datetime) :=
  if bool_decide (reached_id = node_id) then None
  else match nodes g !! reached_id with
       | Some reached_node =>
           if (source_ts <? timestamp reached_node)
              && (timestamp reached_node <=? end_time)
           then Some (reached_id, timestamp reached_node) else None
       | None => None
       end.

Definition keep_past (g : TemporalGraph) (node_id : string)
    (start_time target_ts : datetime) (reached_id : string)
    : option (string * datetime) :=
  if bool_decide (reached_id = node_id) then None
  else match nodes g !! reached_id with
       | Some reached_node =>
           if (start_time <=? timestamp reached_node)
              && (timestamp reached_node <? target_ts)
           then Some (reached_id, timestamp reached_node) else None
       | None => None
       end.

Lemma collect_future_Ok g node_id source_ts end_time l :
  (∀ x, x ∈ l → is_Some (nodes g !! x)) →
  collect_future g node_id source_ts end_time l
  = Ok (omap (keep_future g node_id source_ts end_time) l).
Proof.
  induction l as [|x l IH]; intros Hl; simpl; [done|].
  unfold keep_future at 1.
  destruct (bool_decide (x = node_id)); [apply IH; set_solver|].
  destruct (Hl x ltac:(left)) as [n Hn]. unfold subscript. rewrite Hn. simpl.
  rewrite IH by set_solver. simpl.
  by destruct (_ && _).
Qed.

Lemma collect_past_Ok g node_id start_time target_ts l :
  (∀ x, x ∈ l → is_Some (nodes g !! x)) →
  collect_past g node_id start_time target_ts l
  = Ok (omap (keep_past g node_id start_time target_ts) l).
Proof.
  induction l as [|x l IH]; intros Hl; simpl; [done|].
  unfold keep_past at 1.
  destruct (bool_decide (x = node_id)); [apply IH; set_solver|].
  destruct (Hl x ltac:(left)) as [n Hn]. unfold subscript. rewrite Hn. simpl.
  rewrite IH by set_solver. simpl.
  by destruct (_ && _).
Qed.

(** Converse: if the filter loop returns, it met stored nodes only. *)
Lemma collect_future_inv g node_id source_ts end_time l r :
  collect_future g node_id source_ts end_time l = Ok r →
  r = omap (keep_future g node_id source_ts end_time) l.
Proof.
  revert r. induction l as [|x l IH]; intros r; simpl; [congruence|].
  unfold keep_future at 1.
  destruct (bool_decide (x = node_id)); [apply IH|].
  unfold subscript. destruct (nodes g !! x) as [n|]; simpl; [|done].
  destruct (collect_future g node_id source_ts end_time l) as [r'| | | |];
    simpl; try done.
  intros [= <-]. rewrite (IH r' eq_refl). by destruct (_ && _).
Qed.


Lemma collect_future_perm g node_id source_ts end_time l1 l2 r :
  l1 ≡ₚ l2 →
  collect_future g node_id source_ts end_time l1 = Ok r →
  ∃ r', collect_future g node_id source_ts end_time l2 = Ok r' ∧ r' ≡ₚ r.
Proof.
  intros Hp. revert r.
  induction Hp as [|x l1 l2 Hp IH|x y l|l1 l2 l3 Hp1 IH1 Hp2 IH2]; intros r; simpl.
  - eauto.
  - destruct (bool_decide (x = node_id)); [apply IH|].
    destruct (subscript (nodes g) x) as [n| | | |]; simpl; try done.
    destruct (collect_future g node_id source_ts end_time l1) as [r1| | | |];
      simpl; try done.
    destruct (IH r1 eq_refl) as (r2 & -> & Hr2). simpl.
    intros [= <-]. eexists; split; [done|].
    destruct (_ && _); by rewrite Hr2.
  - destruct (bool_decide (x = node_id)), (bool_decide (y = node_id));
      destruct (subscript (nodes g) x) as [n| | | |];
      destruct (subscript (nodes g) y) as [m| | | |]; simpl; try done;
      destruct (collect_future g node_id source_ts end_time l) as [r1| | | |];
      simpl; try done; intros [= <-]; eexists; (split; [done|]);
      repeat destruct (_ && _); try done. apply Permutation_swap.
  - intros H1. destruct (IH1 r H1) as (r' & H2 & Hr').
    destruct (IH2 r' H2) as (r'' & H3 & Hr''). exists r''. split; [done|].
    by rewrite Hr''.
Qed.


(** No two stored nodes share a timestamp. *)
Definition distinct_timestamps (g : TemporalGraph) : Prop :=
  ∀ k1 k2 n1 n2,
    nodes g !! k1 = Some n1 → nodes g !! k2 = Some n2 →
    timestamp n1 = timestamp n2 → k1 = k2.

Lemma NoDup_fmap_eq {A B : Type} (f : A → B) (l : list A) x y :
  NoDup (f <$> l) → x ∈ l → y ∈ l → f x = f y → x = y.
Proof.
  induction l as [|z l IH]; simpl; [set_solver|].
  rewrite NoDup_cons. intros [Hz Hnd] Hx Hy Hf.
  apply elem_of_cons in Hx as [->|Hx]; apply elem_of_cons in Hy as [->|Hy]; auto.
  - exfalso. apply Hz. rewrite Hf. by apply list_elem_of_fmap_2.
  - exfalso. apply Hz. rewrite <- Hf. by apply list_elem_of_fmap_2.
Qed.

Lemma distinct_timestamps_check g :
  NoDup ((λ kn : string * TemporalNode, timestamp kn.2) <$> map_to_list (nodes g)) →
  distinct_timestamps g.
Proof.
  intros Hnd k1 k2 n1 n2 H1 H2 Hts.
  apply elem_of_map_to_list in H1, H2.
  by injection (NoDup_fmap_eq _ _ (k1, n1) (k2, n2) Hnd H1 H2 Hts).
Qed.

Lemma keep_future_Some g node_id source_ts end_time x p :
  keep_future g node_id source_ts end_time x = Some p ↔
  x ≠ node_id ∧ ∃ n, nodes g !! x = Some n ∧ p = (x, timestamp n) ∧
    source_ts < timestamp n ≤ end_time.
Proof.
  unfold keep_future. case_bool_decide as Hx; [naive_solver|].
  destruct (nodes g !! x) as [n|]; [|naive_solver].
  destruct (source_ts <? timestamp n) eqn:H1;
    destruct (timestamp n <=? end_time) eqn:H2; simpl;
    rewrite ?Z.ltb_lt, ?Z.ltb_ge, ?Z.leb_le, ?Z.leb_gt in *;
    naive_solver lia.
Qed.

Lemma keep_past_Some g node_id start_time target_ts x p :
  keep_past g node_id start_time target_ts x = Some p ↔
  x ≠ node_id ∧ ∃ n, nodes g !! x = Some n ∧ p = (x, timestamp n) ∧
    start_time ≤ timestamp n < target_ts.
Proof.
  unfold keep_past. case_bool_decide as Hx; [naive_solver|].
  destruct (nodes g !! x) as [n|]; [|naive_solver].
  destruct (start_time <=? timestamp n) eqn:H1;
    destruct (timestamp n <? target_ts) eqn:H2; simpl;
    rewrite ?Z.ltb_lt, ?Z.ltb_ge, ?Z.leb_le, ?Z.leb_gt in *;
    naive_solver lia.
Qed.

Section KeptKeys.
Variable g : TemporalGraph.
Variable keep : string → option (string * datetime).
Hypothesis keep_Some : ∀ x p, keep x = Some p →
  ∃ n, nodes g !! x = Some n ∧ p = (x, timestamp n).

Lemma kept_ids_NoDup l : NoDup l → NoDup (omap keep l).*1.
Proof.
  induction 1 as [|x l Hx Hnd IH]; simpl; [constructor|].
  destruct (keep x) as [p|] eqn:Hk; [|done].
  destruct (keep_Some _ _ Hk) as (n & Hn & ->). simpl.
  constructor; [|done]. intros Hin.
  apply list_elem_of_fmap in Hin as ([y t] & Hy & Hin). simpl in Hy. subst y.
  apply list_elem_of_omap in Hin as (z & Hz & Hkz).
  destruct (keep_Some _ _ Hkz) as (m & Hm & [= <- _]). done.
Qed.

Lemma kept_keys_NoDup l :
  distinct_timestamps g → NoDup l → NoDup (omap keep l).*2.
Proof.
  intros Hd. induction 1 as [|x l Hx Hnd IH]; simpl; [constructor|].
  destruct (keep x) as [p|] eqn:Hk; [|done].
  destruct (keep_Some _ _ Hk) as (n & Hn & ->). simpl.
  constructor; [|done]. intros Hin.
  apply list_elem_of_fmap in Hin as ([y t] & Ht & Hin). simpl in Ht. subst t.
  apply list_elem_of_omap in Hin as (z & Hz & Hkz).
  destruct (keep_Some _ _ Hkz) as (m & Hm & [= <- Hts]).
  by rewrite (Hd x y n m Hn Hm Hts) in Hx.
Qed.
End KeptKeys.

(** [_bfs_forward] returns the nodes that at most [max_hops] edges reach
    from the start through nodes not later than [end_time]. *)
Lemma _bfs_forward_spec g start_node max_hops end_time :
  ∃ visited, _bfs_forward g start_node max_hops end_time = Ok visited ∧
    NoDup visited ∧
    ∀ v, v ∈ visited ↔
         ∃ n, Z.of_nat n ≤ max_hops ∧
              reach (edges g) to_node (beyond_window g end_time) start_node n v.
Proof.
  destruct (worklist_loop_total (edges g) to_node fst snd forward_child never
              (beyond_window g end_time) max_hops (start_node, 0))
    as (o & visited & Hnd & Hr).
  exists visited.*1. split_and!; [|done|].
  - unfold _bfs_forward. change (@nil string) with ((@nil (string * Z)).*1).
    rewrite bfs_forward_loop_worklist, Hr by done. reflexivity.
  - apply (bfs_visits (edges g) to_node fst snd forward_child
             (beyond_window g end_time) max_hops)
      with (fuel := bfs_fuel (edges g)) (e0 := (start_node, 0)) (o := o);
      [done | done | by apply Hr | done | done].
Qed.

Lemma _bfs_backward_spec g target_node max_hops start_time :
  ∃ visited, _bfs_backward g target_node max_hops start_time = Ok visited ∧
    NoDup visited ∧
    ∀ v, v ∈ visited ↔
         ∃ n, Z.of_nat n ≤ max_hops ∧
              reach (reverse_edges g) from_node (before_window g start_time)
                target_node n v.
Proof.
  destruct (worklist_loop_total (reverse_edges g) from_node fst snd backward_child
              never (before_window g start_time) max_hops (target_node, 0))
    as (o & visited & Hnd & Hr).
  exists visited.*1. split_and!; [|done|].
  - unfold _bfs_backward. change (@nil string) with ((@nil (string * Z)).*1).
    rewrite bfs_backward_loop_worklist, Hr by done. reflexivity.
  - apply (bfs_visits (reverse_edges g) from_node fst snd backward_child
             (before_window g start_time) max_hops)
      with (fuel := bfs_fuel (reverse_edges g)) (e0 := (target_node, 0)) (o := o);
      [done | done | by apply Hr | done | done].
Qed.

Lemma reach_forward_stored g end_time s n v :
  edges_closed g → is_Some (nodes g !! s) →
  reach (edges g) to_node (beyond_window g end_time) s n v →
  is_Some (nodes g !! v).
Proof. intros [Hto _] Hs. induction 1; eauto. Qed.

Lemma reach_backward_stored g start_time s n v :
  edges_closed g → is_Some (nodes g !! s) →
  reach (reverse_edges g) from_node (before_window g start_time) s n v →
  is_Some (nodes g !! v).
Proof. intros [_ Hfrom] Hs. induction 1; eauto. Qed.

(** The result of [get_forward_nodes], before [[:max_results]] cuts it: the
    nodes reached within the hop bound whose timestamp is after the
    source's and not after [end_time], each once, by ascending timestamp. *)
Lemma get_forward_nodes_spec iter g node_id source time_window_days max_hops max_results :
  (∀ l, iter l ≡ₚ l) → edges_closed g → nodes g !! node_id = Some source →
  let end_time := timestamp source + timedelta time_window_days in
  ∃ keyed : list (string * datetime),
    get_forward_nodes iter g node_id time_window_days max_hops max_results
    = Ok (slice_to keyed.*1 max_results) ∧
    NoDup keyed.*1 ∧ StronglySorted asc keyed ∧
    ∀ v t, (v, t) ∈ keyed ↔
      ∃ n nv, Z.of_nat n ≤ max_hops ∧
        reach (edges g) to_node (beyond_window g end_time) node_id n v ∧
        nodes g !! v = Some nv ∧ t = timestamp nv ∧
        timestamp source < timestamp nv ≤ end_time.
Proof.
  intros Hiter Hclosed Hsrc end_time.
  destruct (_bfs_forward_spec g node_id max_hops end_time)
    as (visited & Hb & Hnd & Hv).
  assert (Hstored : ∀ x, x ∈ iter visited → is_Some (nodes g !! x)).
  { intros x Hx. rewrite Hiter in Hx. apply Hv in Hx as (n & _ & Hr).
    eapply reach_forward_stored; eauto. }
  exists (sort_asc (omap (keep_future g node_id (timestamp source) end_time)
                      (iter visited))).
  split_and!.
  - unfold get_forward_nodes. rewrite Hsrc. fold end_time. rewrite Hb. simpl.
    rewrite collect_future_Ok by done. reflexivity.
  - rewrite sort_asc_perm.
    apply (kept_ids_NoDup g); [|by rewrite Hiter].
    intros x p Hk. apply keep_future_Some in Hk. naive_solver.
  - apply sort_asc_sorted.
  - intros v t. rewrite sort_asc_perm, list_elem_of_omap. split.
    + intros (x & Hx & Hk). apply keep_future_Some in Hk
        as (_ & nv & Hnv & [= -> ->] & Hw).
      rewrite Hiter in Hx. apply Hv in Hx as (n & Hn & Hr).
      exists n, nv. done.
    + intros (n & nv & Hn & Hr & Hnv & -> & Hw).
      exists v. split; [rewrite Hiter; apply Hv; eauto|].
      apply keep_future_Some. split; [|eauto].
      intros ->. rewrite Hsrc in Hnv. injection Hnv as <-. lia.
Qed.

Lemma get_backward_nodes_spec iter g node_id target time_window_days max_hops max_results :
  (∀ l, iter l ≡ₚ l) → edges_closed g → nodes g !! node_id = Some target →
  let start_time := timestamp target - timedelta time_window_days in
  ∃ keyed : list (string * datetime),
    get_backward_nodes iter g node_id time_window_days max_hops max_results
    = Ok (slice_to keyed.*1 max_results) ∧
    NoDup keyed.*1 ∧ StronglySorted desc keyed ∧
    ∀ v t, (v, t) ∈ keyed ↔
      ∃ n nv, Z.of_nat n ≤ max_hops ∧
        reach (reverse_edges g) from_node (before_window g start_time) node_id n v ∧
        nodes g !! v = Some nv ∧ t = timestamp nv ∧
        start_time ≤ timestamp nv < timestamp target.
Proof.
  intros Hiter Hclosed Htgt start_time.
  destruct (_bfs_backward_spec g node_id max_hops start_time)
    as (visited & Hb & Hnd & Hv).
  assert (Hstored : ∀ x, x ∈ iter visited → is_Some (nodes g !! x)).
  { intros x Hx. rewrite Hiter in Hx. apply Hv in Hx as (n & _ & Hr).
    eapply reach_backward_stored; eauto. }
  exists (sort_desc (omap (keep_past g node_id start_time (timestamp target))
                       (iter visited))).
  split_and!.
  - unfold get_backward_nodes. rewrite Htgt. fold start_time. rewrite Hb. simpl.
    rewrite collect_past_Ok by done. reflexivity.
  - rewrite sort_desc_perm.
    apply (kept_ids_NoDup g); [|by rewrite Hiter].
    intros x p Hk. apply keep_past_Some in Hk. naive_solver.
  - apply sort_desc_sorted.
  - intros v t. rewrite sort_desc_perm, list_elem_of_omap. split.
    + intros (x & Hx & Hk). apply keep_past_Some in Hk
        as (_ & nv & Hnv & [= -> ->] & Hw).
      rewrite Hiter in Hx. apply Hv in Hx as (n & Hn & Hr).
      exists n, nv. done.
    + intros (n & nv & Hn & Hr & Hnv & -> & Hw).
      exists v. split; [rewrite Hiter; apply Hv; eauto|].
      apply keep_past_Some. split; [|eauto].
      intros ->. rewrite Htgt in Hnv. injection Hnv as <-. lia.
Qed.

(** When no two nodes share a timestamp, the order in which the visited
    set is iterated does not show in the result. *)
Lemma get_forward_nodes_any_order iter g node_id time_window_days max_hops max_results l :
  (∀ l, iter l ≡ₚ l) → distinct_timestamps g →
  get_forward_nodes insertion_order g node_id time_window_days max_hops max_results
    = Ok l →
  get_forward_nodes iter g node_id time_window_days max_hops max_results = Ok l.
Proof.
  intros Hiter Hd. unfold get_forward_nodes.
  destruct (nodes g !! node_id) as [source|]; [|done].
  destruct (_bfs_forward_spec g node_id max_hops
              (timestamp source + timedelta time_window_days))
    as (visited & -> & Hnd & _). simpl. unfold insertion_order.
  destruct (collect_future _ _ _ _ visited) as [r| | | |] eqn:Hr; simpl; try done.
  destruct (collect_future_perm _ _ _ _ _ (iter visited) _
              (symmetry (Hiter visited)) Hr) as (r' & -> & Hp). simpl.
  intros [= <-]. do 3 f_equal. apply sort_asc_order; [done|].
  rewrite (collect_future_inv _ _ _ _ _ _ Hr).
  apply (kept_keys_NoDup g); [|done|done].
  intros x p Hk. apply keep_future_Some in Hk. naive_solver.
Qed.






(** ** C1: the document chain, and reachability in general *)

(** The chain, run. *)
Example chain_forward :
  get_forward_nodes insertion_order chain_graph "claim" 60 5 50 = Ok ["response"; "settlement"].
Proof. vm_compute. reflexivity. Qed.

Example chain_backward :
  get_backward_nodes insertion_order chain_graph "settlement" 90 5 50
  = Ok ["response"; "claim"; "amendment"; "contract"].
Proof. vm_compute. reflexivity. Qed.

Example chain_path :
  get_shortest_path chain_graph "contract" "settlement" 10
  = Ok (Some ["contract"; "amendment"; "claim"; "response"; "settlement"]).
Proof. vm_compute. reflexivity. Qed.










(** ** C8: queries about an unknown id *)

(** C8. When an id is not in the node map, [get_forward_nodes] and
    [get_backward_nodes] on it return the empty list, and
    [get_shortest_path] and [has_path] with it at either end return [None]
    and [False]; none of them raises. *)
Theorem unknown_id_queries (iter : list string → list string) (g : TemporalGraph)
    (unknown other : string) (time_window_days max_hops max_results : Z) :
  nodes g !! unknown = None →
  get_forward_nodes iter g unknown time_window_days max_hops max_results = Ok [] ∧
  get_backward_nodes iter g unknown time_window_days max_hops max_results = Ok [] ∧
  get_shortest_path g unknown other max_hops = Ok None ∧
  get_shortest_path g other unknown max_hops = Ok None ∧
  has_path g unknown other max_hops = Ok false ∧
  has_path g other unknown max_hops = Ok false.
Proof.
  intros Hu. unfold get_forward_nodes, get_backward_nodes, get_shortest_path, has_path.
  rewrite Hu. split_and!; try done; by destruct (nodes g !! other).
Qed.

Lemma unknown_id_queries_witness :
  get_forward_nodes insertion_order chain_graph "ghost" 30 5 50 = Ok [] ∧
  get_backward_nodes insertion_order chain_graph "ghost" 30 5 50 = Ok [] ∧
  get_shortest_path chain_graph "ghost" "claim" 5 = Ok None ∧
  get_shortest_path chain_graph "claim" "ghost" 5 = Ok None ∧
  has_path chain_graph "ghost" "claim" 5 = Ok false ∧
  has_path chain_graph "claim" "ghost" 5 = Ok false.
Proof.
  apply (unknown_id_queries insertion_order chain_graph "ghost" "claim" 30 5 50).
  vm_compute. reflexivity.
Defined.

(** ** C7: [add_edge] *)

(** C7. [add_edge] returns [False] and leaves both adjacency maps as they
    were when an endpoint is not in the node map, and says so on the
    output.  When both endpoints are stored it returns [True] and appends
    the edge to the forward list of its source and to the reverse list of
    its target, whatever the relation and the timestamps; a sequential or
    causal edge that goes back in time adds one warning line to the output
    and nothing else changes. *)
Theorem add_edge_endpoints (g : TemporalGraph) (edge : TemporalEdge) :
  (nodes g !! from_node edge = None ∨ nodes g !! to_node edge = None →
   (add_edge g edge).1 = false ∧
   edges (add_edge g edge).2 = edges g ∧
   reverse_edges (add_edge g edge).2 = reverse_edges g ∧
   stdout (add_edge g edge).2
   = stdout g ++ ["Cannot create edge: missing nodes " +:+ from_node edge
                  +:+ " -> " +:+ to_node edge]) ∧
  (∀ from_n to_n,
     nodes g !! from_node edge = Some from_n → nodes g !! to_node edge = Some to_n →
     (add_edge g edge).1 = true ∧
     dd_get (edges (add_edge g edge).2) (from_node edge)
     = dd_get (edges g) (from_node edge) ++ [edge] ∧
     dd_get (reverse_edges (add_edge g edge).2) (to_node edge)
     = dd_get (reverse_edges g) (to_node edge) ++ [edge] ∧
     (∀ k, k ≠ from_node edge →
        dd_get (edges (add_edge g edge).2) k = dd_get (edges g) k) ∧
     (∀ k, k ≠ to_node edge →
        dd_get (reverse_edges (add_edge g edge).2) k = dd_get (reverse_edges g) k) ∧
     nodes (add_edge g edge).2 = nodes g ∧
     stdout (add_edge g edge).2
     = if is_sequential_or_causal (relation edge)
          && (timestamp to_n <? timestamp from_n)
       then stdout g ++ ["Warning: temporal edge goes backward in time"]
       else stdout g).
Proof.
  split.
  - intros Hmiss. unfold add_edge.
    destruct (nodes g !! from_node edge), (nodes g !! to_node edge), Hmiss; done.
  - intros from_n to_n Hf Ht. unfold add_edge. rewrite Hf, Ht.
    destruct (is_sequential_or_causal (relation edge)
              && (timestamp to_n <? timestamp from_n)); simpl;
      rewrite !dd_get_append; rewrite !decide_True by done;
      (split_and!; try done; intros k Hk; rewrite dd_get_append;
       by rewrite decide_False).
Qed.

Definition ghost_edge : TemporalEdge := mkEdge "claim" "ghost" CAUSAL ∅.
Definition backward_edge : TemporalEdge := mkEdge "settlement" "contract" CAUSAL ∅.

Lemma add_edge_endpoints_witness :
  ((add_edge chain_graph ghost_edge).1 = false ∧
   edges (add_edge chain_graph ghost_edge).2 = edges chain_graph) ∧
  ((add_edge chain_graph backward_edge).1 = true ∧
   dd_get (edges (add_edge chain_graph backward_edge).2) (from_node backward_edge)
   = dd_get (edges chain_graph) (from_node backward_edge) ++ [backward_edge] ∧
   stdout (add_edge chain_graph backward_edge).2
   = ["Warning: temporal edge goes backward in time"]).
Proof.
  destruct (add_edge_endpoints chain_graph ghost_edge) as [Hmiss _].
  destruct (add_edge_endpoints chain_graph backward_edge) as [_ Hboth].
  split.
  - (destruct Hmiss as (H1 & H2 & _); [right; vm_compute; reflexivity|]).
    exact (conj H1 H2).
  - (destruct (Hboth
      (mkNode "settlement" (day 80) CONTENT "settlement" ∅ 4 (_compute_layer_id (day 80)))
      (mkNode "contract" (day 0) CONTENT "contract" ∅ 0 (_compute_layer_id (day 0))))
      as (H1 & H2 & _ & _ & _ & _ & H3); [vm_compute; reflexivity ..|]).
    split_and!; [exact H1 | exact H2 |].
    rewrite H3. vm_compute. reflexivity.
Defined.

(** ** C3: the boundary of the time window *)

Lemma elem_of_slice_to {A : Type} (l : list A) (n : Z) x : x ∈ slice_to l n → x ∈ l.
Proof.
  unfold slice_to. destruct (0 <=? n); intros H;
    apply elem_of_take in H as (i & Hi & _); by eapply list_elem_of_lookup_2.
Qed.










Definition claim_node : TemporalNode :=
  mkNode "claim" (day 50) CONTENT "claim" ∅ 2 (_compute_layer_id (day 50)).




(** ** C5: the window of the forward candidates *)

Lemma foldl_max_ge (l : list Z) (x : Z) :
  x ≤ foldl Z.max x l ∧ ∀ y, y ∈ l → y ≤ foldl Z.max x l.
Proof.
  revert x. induction l as [|z l IH]; intros x; simpl; [split; [lia | set_solver]|].
  destruct (IH (Z.max x z)) as [H1 H2]. split; [lia|].
  intros y Hy. apply elem_of_cons in Hy as [->|Hy]; [lia | by apply H2].
Qed.

Lemma foldl_max_in (l : list Z) (x : Z) :
  foldl Z.max x l = x ∨ foldl Z.max x l ∈ l.
Proof.
  revert x. induction l as [|z l IH]; intros x; simpl; [by left|].
  destruct (IH (Z.max x z)) as [H|H].
  - rewrite H. destruct (Z.max_spec x z) as [[_ ->]|[_ ->]]; [right; left | by left].
  - right. by right.
Qed.

(** [py_max] returns the largest element. *)
Lemma py_max_spec (l : list Z) (w : Z) :
  py_max l = Ok w → w ∈ l ∧ ∀ y, y ∈ l → y ≤ w.
Proof.
  destruct l as [|x l]; simpl; [done|]. intros [= <-].
  destruct (foldl_max_ge l x) as [H1 H2]. split.
  - destruct (foldl_max_in l x) as [->|H]; [left | by right].
  - intros y Hy. apply elem_of_cons in Hy as [->|Hy]; [done | by apply H2].
Qed.

(** A source at day 0 and one successor at day 60. *)
Definition far_graph : TemporalGraph :=
  build [ doc "a" 0; doc "b" 60; link "a" "b" SEQUENTIAL ].

Lemma far_graph_distinct : distinct_timestamps far_graph.
Proof.
  apply distinct_timestamps_check.
  apply (bool_decide_unpack _). vm_compute. exact I.
Qed.

(** The claim as stated fails.  With the default heads the window of the
    query is 90 days, the backward head's, while the widest window of a
    head that votes forward is 14 days (and the semantic head's is 30): a
    successor 60 days after the source is a candidate, and is not in
    [get_forward_nodes] for 14 or 30 days. *)
Lemma forward_window_is_not_forward_only :
  py_max (temporal_window_days <$> default_heads) = Ok 90 ∧
  widest_forward_window default_heads = Ok 14 ∧
  (∀ iter, (∀ l, iter l ≡ₚ l) →
     forward_candidates iter (mkAttention far_graph default_heads) "a" 10 = Ok ["b"] ∧
     get_forward_nodes iter far_graph "a" 14 5 20 = Ok [] ∧
     get_forward_nodes iter far_graph "a" 30 5 20 = Ok []).
Proof.
  split_and!; [reflexivity | vm_compute; reflexivity |].
  intros iter Hiter. split_and!.
  - unfold forward_candidates.
    change (graph (mkAttention far_graph default_heads)) with far_graph.
    replace (nodes far_graph !! "a")
      with (Some (mkNode "a" (day 0) CONTENT "a" ∅ 0 (_compute_layer_id (day 0))))
      by (vm_compute; reflexivity).
    change (py_max _) with (@Ok Z 90). cbn [mbind result_bind].
    apply get_forward_nodes_any_order; [done | apply far_graph_distinct |].
    vm_compute. reflexivity.
  - apply get_forward_nodes_any_order; [done | apply far_graph_distinct |].
    vm_compute. reflexivity.
  - apply get_forward_nodes_any_order; [done | apply far_graph_distinct |].
    vm_compute. reflexivity.
Qed.

(** C5, amended. For a stored node id, [compute_forward_attention] takes
    its candidates from [get_forward_nodes] with [time_window_days] the
    widest [temporal_window_days] among all the attention heads, of any
    attention type, the default [max_hops] and [max_results = 2 * max_nodes];
    with the default heads that window is 90 days. *)
Theorem forward_candidates_window (iter : list string → list string)
    (self : BidirectionalAttention) (node_id : string) (source : TemporalNode)
    (max_nodes : Z) :
  nodes (graph self) !! node_id = Some source →
  attention_heads self ≠ [] →
  ∃ window,
    (∃ h, h ∈ attention_heads self ∧ temporal_window_days h = window) ∧
    (∀ h, h ∈ attention_heads self → temporal_window_days h ≤ window) ∧
    forward_candidates iter self node_id max_nodes
    = get_forward_nodes iter (graph self) node_id window 5 (max_nodes * 2) ∧
    (attention_heads self = default_heads → window = 90).
Proof.
  intros Hsrc Hheads.
  destruct (py_max (temporal_window_days <$> attention_heads self)) as [w| | | |] eqn:Hw;
    try (destruct (attention_heads self); simpl in Hw; congruence).
  exists w. destruct (py_max_spec _ _ Hw) as [Hin Hmax]. split_and!.
  - apply list_elem_of_fmap in Hin as (h & -> & Hh). eauto.
  - intros h Hh. apply Hmax. by apply list_elem_of_fmap_2.
  - unfold forward_candidates. rewrite Hsrc, Hw. reflexivity.
  - intros Hd. rewrite Hd in Hw. by injection Hw as <-.
Qed.

Definition chain_attention : BidirectionalAttention :=
  mkAttention chain_graph default_heads.

Lemma forward_candidates_window_witness :
  ∃ window,
    forward_candidates insertion_order chain_attention "claim" 10
    = get_forward_nodes insertion_order (graph chain_attention) "claim" window 5
        (10 * 2) ∧
    window = 90.
Proof.
  destruct (forward_candidates_window insertion_order chain_attention "claim"
              claim_node 10)
    as (window & _ & _ & Hq & Hd).
  - vm_compute. reflexivity.
  - discriminate.
  - exists window. split; [exact Hq | apply Hd; reflexivity].
Defined.

(** ** C6: the relation type of a causal link *)

Lemma links_of_sequential self documents doc_id targets r :
  links_of self documents doc_id targets = Ok r →
  Forall (λ link, link.2 = "sequential") r.
Proof.
  revert r. induction targets as [|target_id rest IH]; intros r; simpl.
  - intros [= <-]. constructor.
  - destruct (list_find _ documents); [|apply IH].
    unfold link_rel_type. simpl.
    destruct (links_of self documents doc_id rest) as [r'| | | |];
      simpl; try done.
    intros [= <-]. constructor; [done | by apply IH].
Qed.

Lemma causal_loop_sequential iter self documents todo r :
  causal_loop iter self documents todo = Ok r →
  Forall (λ link, link.2 = "sequential") r.
Proof.
  revert r. induction todo as [|d rest IH]; intros r; simpl.
  - intros [= <-]. constructor.
  - destruct (forward_of iter self (NodeData.id d)) as [targets| | | |];
      simpl; try done.
    destruct (links_of self documents (NodeData.id d) targets)
      as [here| | | |] eqn:Hhere; simpl; try done.
    destruct (causal_loop iter self documents rest) as [later| | | |];
      simpl; try done.
    intros [= <-]. apply Forall_app. split; [|by apply IH].
    eapply links_of_sequential; eauto.
Qed.

(** Two documents a day apart, joined by an edge whose relation is causal
    and whose metadata says so. *)
Definition causal_edge : TemporalEdge :=
  mkEdge "a" "b" CAUSAL {[ "relation_type" := "causal" ]}.

Definition causal_graph : TemporalGraph :=
  build [ doc "a" 0; doc "b" 1; AddEdge causal_edge ].

Definition causal_documents : list NodeData.t :=
  [ NodeData.mk "a" (day 0) "content" "a" ∅;
    NodeData.mk "b" (day 1) "content" "b" ∅ ].

Definition empty_carryover : TemporalCarryover :=
  mkCarryover [] [] [] [] [] 0 (None, None) 0.

(** C6 fails on the code. Whatever the edges say, every triple that
    [_identify_causal_relationships] emits has the relation type
    ["sequential"]: the graph's edge map is keyed by node id, so the tuple
    [(doc.id, target_id)] is never one of its keys and the edge is never
    looked at.  For the two documents of [causal_graph], both in the
    chunk and joined by a causal edge, the triple is
    [("a", "b", "sequential")]. *)
Theorem causal_links_always_sequential :
  (∀ iter self documents previous_state,
     match _identify_causal_relationships iter self documents previous_state with
     | Ok relationships => Forall (λ link, link.2 = "sequential") relationships
     | _ => True
     end) ∧
  dd_get (edges causal_graph) "a" = [causal_edge] ∧
  relation causal_edge = CAUSAL ∧
  edge_metadata causal_edge !! "relation_type" = Some "causal" ∧
  (get_document causal_graph <$> ["a"; "b"]) = Some <$> causal_documents ∧
  _identify_causal_relationships insertion_order (default_markovian causal_graph)
    causal_documents empty_carryover
  = Ok [("a", "b", "sequential")].
Proof.
  split_and!; try (vm_compute; reflexivity).
  intros iter self documents previous_state.
  unfold _identify_causal_relationships.
  destruct (causal_loop iter self documents documents) as [r| | | |] eqn:Hr; try done.
  eapply causal_loop_sequential; eauto.
Qed.

(** ** C2: the size of the carryover *)

Lemma insert_by_perm {A : Type} (before : A → A → bool) x l :
  insert_by before x l ≡ₚ x :: l.
Proof.
  induction l as [|y l IH]; simpl; [done|].
  destruct (before x y); [done|]. rewrite IH. apply Permutation_swap.
Qed.

Lemma sort_by_perm {A : Type} (before : A → A → bool) l : sort_by before l ≡ₚ l.
Proof.
  induction l as [|x l IH]; simpl; [done|].
  rewrite insert_by_perm. by rewrite IH.
Qed.

Lemma length_slice_to {A : Type} (l : list A) (n : Z) :
  0 ≤ n → Z.of_nat (length (slice_to l n)) ≤ n.
Proof.
  intros Hn. unfold slice_to. rewrite (proj2 (Z.leb_le 0 n) Hn).
  rewrite length_take. lia.
Qed.

(** [l[-n:]] keeps at most [n] entries, for [n] of one or more: [l[-0:]]
    is the whole list. *)
Lemma length_slice_from_last {A : Type} (l : list A) (n : Z) :
  1 ≤ n → Z.of_nat (length (slice_from l (- n))) ≤ n.
Proof.
  intros Hn. unfold slice_from. rewrite (proj2 (Z.leb_gt 0 (- n))) by lia.
  rewrite length_drop. lia.
Qed.

Lemma slice_from_zero {A : Type} (l : list A) : slice_from l (- 0) = l.
Proof. reflexivity. Qed.

Lemma length_dict_set {V : Type} (d : list (string * V)) k v :
  (length (dict_set d k v) <= S (length d))%nat.
Proof.
  induction d as [|[k' v'] d IH]; simpl; [lia|].
  destruct (bool_decide (k' = k)); simpl; lia.
Qed.

Lemma length_foldl_dict_set {A V : Type} (f : A → string) (v : V) (l : list A)
    (d : list (string * V)) :
  (length (foldl (λ scores x, dict_set scores (f x) v) d l)
   <= length d + length l)%nat.
Proof.
  revert d. induction l as [|x l IH]; intros d; simpl; [lia|].
  etrans; [apply IH|]. pose proof (length_dict_set d (f x) v). lia.
Qed.

(** The caps that [_extract_carryover] keeps, for caps that are counts and
    a chain cap of one or more. *)
Record within_caps (self : MarkovianTOTG) (c : TemporalCarryover) : Prop := {
  cap_events : Z.of_nat (length (critical_events c)) ≤ max_carryover_events self;
  cap_entities : Z.of_nat (length (key_entities c)) ≤ max_carryover_entities self;
  cap_chains : Z.of_nat (length (causal_chains c)) ≤ max_carryover_chains self;
  cap_scores :
    Z.of_nat (length (attention_scores c)) ≤ 10 + max_carryover_events self;
  cap_questions : open_questions c = [];
  cap_size :
    Z.of_nat (get_size c)
    ≤ 10 + 2 * max_carryover_events self + max_carryover_entities self
      + max_carryover_chains self
}.

Lemma _extract_carryover_within_caps self chunk_result previous_state :
  0 ≤ max_carryover_events self → 0 ≤ max_carryover_entities self →
  1 ≤ max_carryover_chains self →
  open_questions previous_state = [] →
  within_caps self (_extract_carryover self chunk_result previous_state).
Proof.
  intros He Hn Hc Hq.
  set (c := _extract_carryover self chunk_result previous_state).
  assert (H1 : Z.of_nat (length (critical_events c)) ≤ max_carryover_events self)
    by (by apply length_slice_to).
  assert (H2 : Z.of_nat (length (key_entities c)) ≤ max_carryover_entities self)
    by (by apply length_slice_to).
  assert (H3 : Z.of_nat (length (causal_chains c)) ≤ max_carryover_chains self)
    by (by apply length_slice_from_last).
  assert (H4 : (length (attention_scores c)
                 <= 10 + length (critical_events c))%nat).
  { subst c. unfold _extract_carryover. cbn [attention_scores critical_events].
    etrans; [apply (length_foldl_dict_set Event.doc_id)|].
    apply Nat.add_le_mono_r.
    etrans; [apply (length_foldl_dict_set (λ i : string, i))|]. simpl.
    pose proof (length_slice_from_last (ChunkResult.doc_ids chunk_result) 10) as Hd.
    change (- (10)) with (-10) in Hd. lia. }
  assert (H5 : open_questions c = []) by done.
  clearbody c. split; try done; [lia|].
  unfold get_size. rewrite H5. simpl. lia.
Qed.

Lemma within_caps_initial self start_time :
  0 ≤ max_carryover_events self → 0 ≤ max_carryover_entities self →
  1 ≤ max_carryover_chains self →
  within_caps self (state (initial_state start_time)).
Proof. intros. split; unfold get_size; simpl; try done; lia. Qed.

(** The caps hold at every turn of the loop of [analyze_long_chain]. *)
Lemma run_chunks_within_caps iter self start_doc_id end_time turns s0 s :
  0 ≤ max_carryover_events self → 0 ≤ max_carryover_entities self →
  1 ≤ max_carryover_chains self →
  within_caps self (state s0) →
  run_chunks iter self start_doc_id end_time turns s0 = Ok s →
  within_caps self (state s).
Proof.
  intros He Hn Hc. revert s0.
  induction turns as [|turns IH]; intros s0 H0; simpl.
  - by intros [= <-].
  - destruct (current_time s0 <? end_time); [|by intros [= <-]].
    unfold chunk_step.
    destruct (_process_chunk iter self _ _ _ _) as [chunk_result| | | |];
      simpl; try done.
    apply IH. simpl.
    destruct (_extract_carryover_within_caps self chunk_result (state s0) He Hn Hc
                (cap_questions _ _ H0)) as [H1 H2 H3 H4 H5 H6].
    split; simpl; done.
Qed.

(** ** The analyzer returns *)

Lemma forward_of_Ok iter self doc_id :
  (∀ l, iter l ≡ₚ l) → edges_closed (api self) →
  ∃ l, forward_of iter self doc_id = Ok l ∧ (length l <= 50)%nat.
Proof.
  intros Hiter Hc. unfold forward_of.
  destruct (nodes (api self) !! doc_id) as [source|] eqn:Hs.
  - destruct (get_forward_nodes_spec iter (api self) doc_id source 30 5 50 Hiter Hc Hs)
      as (keyed & -> & _).
    eexists. split; [done|]. pose proof (length_slice_to keyed.*1 50). lia.
  - exists []. unfold get_forward_nodes. rewrite Hs. split; [done | simpl; lia].
Qed.

Lemma backward_of_Ok iter self doc_id :
  (∀ l, iter l ≡ₚ l) → edges_closed (api self) →
  ∃ l, backward_of iter self doc_id = Ok l ∧ (length l <= 50)%nat.
Proof.
  intros Hiter Hc. unfold backward_of.
  destruct (nodes (api self) !! doc_id) as [target|] eqn:Hs.
  - destruct (get_backward_nodes_spec iter (api self) doc_id target 30 5 50 Hiter Hc Hs)
      as (keyed & -> & _).
    eexists. split; [done|]. pose proof (length_slice_to keyed.*1 50). lia.
  - exists []. unfold get_backward_nodes. rewrite Hs. split; [done | simpl; lia].
Qed.

(** The stored nodes that [_get_docs_in_window] has not visited yet. *)
Definition unvisited (g : TemporalGraph) (visited : list string) : nat :=
  size (dom (nodes g) ∖ list_to_set visited : gset string).

Lemma unvisited_le g visited current_id :
  (unvisited g (visited ++ [current_id]) <= unvisited g visited)%nat.
Proof. unfold unvisited. apply subseteq_size. set_solver. Qed.

Lemma unvisited_lt g visited current_id :
  is_Some (nodes g !! current_id) → current_id ∉ visited →
  (unvisited g (visited ++ [current_id]) < unvisited g visited)%nat.
Proof.
  intros Hs Hv. unfold unvisited. apply subset_size.
  apply elem_of_dom in Hs. set_solver.
Qed.

(** Each turn of the loop of [_get_docs_in_window] takes an id off the
    queue; a turn that adds ids, at most 50 each way, visits a stored node
    for the first time. *)
Lemma docs_loop_total iter self start_time end_time fuel visited queue docs_in_window :
  (∀ l, iter l ≡ₚ l) → edges_closed (api self) →
  (length queue + 100 * unvisited (api self) visited <= fuel)%nat →
  ∃ l, docs_loop iter self start_time end_time fuel visited queue docs_in_window = Ok l.
Proof.
  intros Hiter Hc. revert visited queue docs_in_window.
  induction fuel as [|fuel IH]; intros visited queue docs Hf.
  - destruct queue; [by eexists | simpl in Hf; lia].
  - destruct queue as [|current_id queue]; [by eexists|]. simpl in Hf. simpl.
    case_bool_decide as Hv; [apply IH; lia|].
    unfold get_document.
    destruct (nodes (api self) !! current_id) as [node|] eqn:Hn; simpl.
    + destruct (forward_of_Ok iter self current_id Hiter Hc) as (fwd & -> & Hfwd).
      destruct (backward_of_Ok iter self current_id Hiter Hc) as (bwd & -> & Hbwd).
      simpl. apply IH.
      pose proof (unvisited_lt (api self) visited current_id (mk_is_Some _ _ Hn) Hv).
      rewrite !length_app.
      pose proof (length_filter (λ n, n ∉ visited ++ [current_id]) fwd).
      pose proof (length_filter (λ n, n ∉ visited ++ [current_id]) bwd).
      lia.
    + apply IH. pose proof (unvisited_le (api self) visited current_id). lia.
Qed.

Lemma unvisited_nil g : unvisited g [] = size (nodes g).
Proof.
  unfold unvisited. rewrite <- size_dom. f_equal. set_solver.
Qed.

Lemma _get_docs_in_window_total iter self start_time end_time starting_doc previous_state :
  (∀ l, iter l ≡ₚ l) → edges_closed (api self) →
  ∃ l, _get_docs_in_window iter self start_time end_time starting_doc previous_state
       = Ok l.
Proof.
  intros Hiter Hc. unfold _get_docs_in_window. apply docs_loop_total; [done | done |].
  rewrite unvisited_nil. unfold docs_fuel. lia.
Qed.

Lemma critical_loop_total iter self documents todo previous_state :
  (∀ l, iter l ≡ₚ l) → edges_closed (api self) →
  ∃ l, critical_loop iter self documents todo previous_state = Ok l.
Proof.
  intros Hiter Hc. induction todo as [|d rest [l IH]]; simpl; [by eexists|].
  destruct (forward_of_Ok iter self (NodeData.id d) Hiter Hc) as (fwd & -> & _).
  destruct (backward_of_Ok iter self (NodeData.id d) Hiter Hc) as (bwd & -> & _).
  simpl. rewrite IH. simpl. by eexists.
Qed.

Lemma links_of_total self documents doc_id targets :
  ∃ l, links_of self documents doc_id targets = Ok l.
Proof.
  induction targets as [|target_id rest [l IH]]; simpl; [by eexists|].
  destruct (list_find _ documents); [|by eexists].
  unfold link_rel_type. simpl. rewrite IH. simpl. by eexists.
Qed.

Lemma causal_loop_total iter self documents todo :
  (∀ l, iter l ≡ₚ l) → edges_closed (api self) →
  ∃ l, causal_loop iter self documents todo = Ok l.
Proof.
  intros Hiter Hc. induction todo as [|d rest [l IH]]; simpl; [by eexists|].
  destruct (forward_of_Ok iter self (NodeData.id d) Hiter Hc) as (fwd & -> & _).
  simpl.
  destruct (links_of_total self documents (NodeData.id d) fwd) as [here ->].
  simpl. rewrite IH. simpl. by eexists.
Qed.

Lemma _process_chunk_total iter self start_time end_time previous_state starting_doc :
  (∀ l, iter l ≡ₚ l) → edges_closed (api self) →
  ∃ chunk_result,
    _process_chunk iter self start_time end_time previous_state starting_doc
    = Ok chunk_result.
Proof.
  intros Hiter Hc. unfold _process_chunk.
  destruct (_get_docs_in_window_total iter self start_time end_time starting_doc
              previous_state Hiter Hc) as [docs ->].
  simpl. destruct docs as [|d docs]; [by eexists|].
  unfold _identify_critical_events, _identify_causal_relationships.
  destruct (critical_loop_total iter self (d :: docs) (d :: docs) previous_state Hiter Hc)
    as [critical ->].
  destruct (causal_loop_total iter self (d :: docs) (d :: docs) Hiter Hc) as [causal ->].
  simpl. by eexists.
Qed.

Lemma chunk_step_total iter self start_doc_id end_time s :
  (∀ l, iter l ≡ₚ l) → edges_closed (api self) →
  ∃ s', chunk_step iter self start_doc_id end_time s = Ok s' ∧
        current_time s'
        = Z.min (current_time s + timedelta (chunk_size_days self)) end_time.
Proof.
  intros Hiter Hc. unfold chunk_step.
  destruct (_process_chunk_total iter self (current_time s)
              (Z.min (current_time s + timedelta (chunk_size_days self)) end_time)
              (state s)
              (if chunk_index (state s) =? 0 then Some start_doc_id else None)
              Hiter Hc) as [chunk_result ->].
  simpl. by eexists.
Qed.

Lemma run_chunks_total iter self start_doc_id end_time turns s :
  (∀ l, iter l ≡ₚ l) → edges_closed (api self) →
  ∃ s', run_chunks iter self start_doc_id end_time turns s = Ok s'.
Proof.
  intros Hiter Hc. revert s. induction turns as [|turns IH]; intros s; simpl;
    [by eexists|].
  destruct (current_time s <? end_time); [|by eexists].
  destruct (chunk_step_total iter self start_doc_id end_time s Hiter Hc)
    as (s' & -> & _).
  simpl. apply IH.
Qed.

(** The days, rounded up, from [current_time] to [end_time]. *)
Definition days_left (end_time current_time : datetime) : nat :=
  Z.to_nat ((end_time - current_time + 86399999999) / 86400000000).

Lemma days_left_step end_time current_time chunk_size_days fuel :
  1 ≤ chunk_size_days → current_time < end_time →
  (days_left end_time current_time <= S fuel)%nat →
  (days_left end_time (Z.min (current_time + timedelta chunk_size_days) end_time)
   <= fuel)%nat.
Proof.
  unfold days_left, timedelta. intros Hc Hlt Hf.
  destruct (Z.min_spec (current_time + chunk_size_days * 86400000000) end_time)
    as [[_ ->] | [_ ->]].
  - assert (H : (end_time - (current_time + chunk_size_days * 86400000000) + 86399999999)
                / 86400000000
                ≤ (end_time - current_time + 86399999999) / 86400000000 - 1).
    { replace (end_time - (current_time + chunk_size_days * 86400000000) + 86399999999)
        with (end_time - current_time + 86399999999 + (- chunk_size_days) * 86400000000)
        by lia.
      rewrite Z.div_add by lia. lia. }
    assert (0 < (end_time - current_time + 86399999999) / 86400000000).
    { apply Z.div_str_pos. lia. }
    lia.
  - replace (end_time - end_time + 86399999999) with 86399999999 by lia.
    change (86399999999 / 86400000000) with 0. lia.
Qed.

(** With chunks of a day or more the loop of [analyze_long_chain] ends
    within its fuel, and is the loop [run_chunks] of as many turns. *)
Lemma chunk_loop_run iter self start_doc_id end_time fuel s :
  (∀ l, iter l ≡ₚ l) → edges_closed (api self) → 1 ≤ chunk_size_days self →
  (days_left end_time (current_time s) <= fuel)%nat →
  ∃ s', chunk_loop iter self start_doc_id end_time fuel s = Ok s' ∧
        run_chunks iter self start_doc_id end_time fuel s = Ok s' ∧
        end_time ≤ current_time s'.
Proof.
  intros Hiter Hc Hsize. revert s. induction fuel as [|fuel IH]; intros s Hf.
  - simpl. destruct (current_time s <? end_time) eqn:Hlt.
    + apply Z.ltb_lt in Hlt. unfold days_left in Hf.
      assert (0 < (end_time - current_time s + 86399999999) / 86400000000)
        by (apply Z.div_str_pos; lia).
      lia.
    + apply Z.ltb_ge in Hlt. by exists s.
  - simpl. destruct (current_time s <? end_time) eqn:Hlt.
    + apply Z.ltb_lt in Hlt.
      destruct (chunk_step_total iter self start_doc_id end_time s Hiter Hc)
        as (s' & -> & Ht).
      simpl. apply IH. rewrite Ht. by apply days_left_step.
    + apply Z.ltb_ge in Hlt. by exists s.
Qed.

Lemma days_left_initial end_time start_time :
  (days_left end_time start_time
   <= S (Z.to_nat (delta_days end_time start_time) + 1))%nat.
Proof.
  unfold days_left, delta_days.
  assert ((end_time - start_time + 86399999999) / 86400000000
          ≤ (end_time - start_time) / 86400000000 + 1).
  { replace (end_time - start_time + 86399999999)
      with (end_time - start_time - 1 + 1 * 86400000000) by lia.
    rewrite Z.div_add by lia.
    pose proof (Z.div_le_mono (end_time - start_time - 1) (end_time - start_time)
                  86400000000). lia. }
  lia.
Qed.

(** The claim as stated fails for caps that the constructor accepts.  With
    [max_carryover_chains = 0] the slice [causal_chains[-0:]] is the whole
    list, and the one link of [causal_graph] is carried over; with
    [max_carryover_events = -1] no length is within the cap. *)
Lemma carryover_cap_not_kept :
  (∃ s, analyze_long_chain insertion_order (mkMarkovian causal_graph 90 10 0 15)
          "a" None 30 = Ok s ∧
        causal_chains (state s) = [("a", "b", "sequential")] ∧
        ¬ Z.of_nat (length (causal_chains (state s)))
          ≤ max_carryover_chains (mkMarkovian causal_graph 90 10 0 15)) ∧
  (∃ s, analyze_long_chain insertion_order (mkMarkovian causal_graph 90 (-1) 20 15)
          "a" None 30 = Ok s ∧
        critical_events (state s) = [] ∧
        ¬ Z.of_nat (length (critical_events (state s)))
          ≤ max_carryover_events (mkMarkovian causal_graph 90 (-1) 20 15)).
Proof.
  split.
  - destruct (analyze_long_chain insertion_order (mkMarkovian causal_graph 90 10 0 15)
                "a" None 30) as [s| | | |] eqn:Hrun;
      vm_compute in Hrun; try discriminate.
    injection Hrun as <-. eexists. split_and!; [reflexivity | reflexivity |].
    simpl. lia.
  - destruct (analyze_long_chain insertion_order
                (mkMarkovian causal_graph 90 (-1) 20 15) "a" None 30)
      as [s| | | |] eqn:Hrun;
      vm_compute in Hrun; try discriminate.
    injection Hrun as <-. eexists. split_and!; [reflexivity | reflexivity |].
    simpl. lia.
Qed.

(** C2, amended. For caps that are counts ([max_carryover_events] and
    [max_carryover_entities] of zero or more) and a chain cap of one or
    more, as the defaults 10, 15 and 20 are: after any number of turns
    of the loop of [analyze_long_chain], whatever the graph and the
    number of documents, the carryover has at most [max_carryover_events]
    critical events, [max_carryover_entities] entities,
    [max_carryover_chains] causal chains and [10 + max_carryover_events]
    attention scores, its open questions are the empty list it started
    with, and [get_size] is at most the sum of these bounds.  The bound
    is not vacuous: on a graph whose edges join stored nodes, as every
    graph made by [add_node] and [add_edge] is, and as long as the
    datetimes that the run computes are representable (the stored
    timestamps are 30 days away from the limits of Python's datetimes,
    as the graph queries of a chunk need, and the end of the span plus one
    chunk is representable), each turn returns; and with chunks of a day or
    more [analyze_long_chain] returns from a stored start document, with
    a carryover within these bounds. *)
Theorem carryover_within_caps (iter : list string → list string)
    (self : MarkovianTOTG) (start_doc_id : string) :
  0 ≤ max_carryover_events self → 0 ≤ max_carryover_entities self →
  1 ≤ max_carryover_chains self →
  (∀ (start_time end_time : datetime) (turns : nat) (s : LoopState),
     run_chunks iter self start_doc_id end_time turns (initial_state start_time) = Ok s →
     Z.of_nat (length (critical_events (state s))) ≤ max_carryover_events self ∧
     Z.of_nat (length (key_entities (state s))) ≤ max_carryover_entities self ∧
     Z.of_nat (length (causal_chains (state s))) ≤ max_carryover_chains self ∧
     Z.of_nat (length (attention_scores (state s))) ≤ 10 + max_carryover_events self ∧
     open_questions (state s) = [] ∧
     Z.of_nat (get_size (state s))
     ≤ 10 + 2 * max_carryover_events self + max_carryover_entities self
       + max_carryover_chains self) ∧
  ((∀ l, iter l ≡ₚ l) → edges_closed (api self) →
   window_representable (api self) 30 → timedelta_ok (chunk_size_days self) →
   (0 ≤ chunk_size_days self →
    ∀ (start_time end_time : datetime) (turns : nat),
      representable start_time →
      representable (end_time + timedelta (chunk_size_days self)) →
      ∃ s, run_chunks iter self start_doc_id end_time turns (initial_state start_time)
           = Ok s) ∧
   (1 ≤ chunk_size_days self →
    ∀ (start_node : TemporalNode) (max_days : Z),
      nodes (api self) !! start_doc_id = Some start_node →
      timedelta_ok max_days →
      representable (timestamp start_node + timedelta max_days) →
      representable (timestamp start_node + timedelta max_days
                     + timedelta (chunk_size_days self)) →
      ∃ s, analyze_long_chain iter self start_doc_id None max_days = Ok s ∧
           timestamp start_node + timedelta max_days ≤ current_time s ∧
           within_caps self (state s))).
Proof.
  intros He Hn Hc. split.
  - intros start_time end_time turns s Hrun.
    destruct (run_chunks_within_caps iter self start_doc_id end_time turns
                (initial_state start_time) s He Hn Hc
                (within_caps_initial self start_time He Hn Hc) Hrun)
      as [H1 H2 H3 H4 H5 H6].
    done.
  - intros Hiter Hclosed _ _. split.
    + intros _ start_time end_time turns _ _. by apply run_chunks_total.
    + intros Hsize start_node max_days Hstart _ _ _.
      unfold analyze_long_chain, get_document. rewrite Hstart. simpl.
      set (start_time := timestamp start_node).
      set (end_time := start_time + timedelta max_days).
      destruct (chunk_loop_run iter self start_doc_id end_time
                  (S (Z.to_nat (delta_days end_time start_time) + 1))
                  (initial_state start_time) Hiter Hclosed Hsize
                  (days_left_initial end_time start_time))
        as (s & Hloop & Hrun & Hend).
      exists s. split_and!; [done | done |].
      exact (run_chunks_within_caps iter self start_doc_id end_time _
               (initial_state start_time) s He Hn Hc
               (within_caps_initial self start_time He Hn Hc) Hrun).
Qed.

Lemma carryover_within_caps_witness :
  ∃ s,
    analyze_long_chain insertion_order (default_markovian chain_graph) "contract"
      None 365 = Ok s ∧
    within_caps (default_markovian chain_graph) (state s).
Proof.
  destruct (carryover_within_caps insertion_order (default_markovian chain_graph)
              "contract") as [_ Hret]; [simpl; lia | simpl; lia | simpl; lia |].
  destruct Hret as [_ Hret];
    [intros l; apply Permutation_refl | exact (edges_closed_build _)
    | apply window_representable_check, (bool_decide_unpack _); vm_compute; exact I
    | vm_compute; split; discriminate |].
  destruct (nodes (api (default_markovian chain_graph)) !! "contract")
    as [start_node|] eqn:Hstart.
  - assert (Hts : timestamp start_node = day 0)
      by (vm_compute in Hstart; by injection Hstart as <-).
    destruct (Hret ltac:(simpl; lia) start_node 365 eq_refl) as (s & Hs & _ & Hcaps).
    + vm_compute. split; discriminate.
    + rewrite Hts. vm_compute. split; discriminate.
    + rewrite Hts. vm_compute. split; discriminate.
    + exists s. exact (conj Hs Hcaps).
  - vm_compute in Hstart. discriminate.
Defined.

(** ** The order of the timestamp index *)

Lemma str_ltb_lt a b : str_ltb a b = true ↔ String_as_OT.lt a b.
Proof.
  unfold str_ltb, String_as_OT.lt.
  destruct (String_as_OT.compare a b); naive_solver.
Qed.

Lemma str_ltb_irrefl a : str_ltb a a = false.
Proof.
  apply not_true_is_false. rewrite str_ltb_lt.
  apply (StrictOrder_Irreflexive (R := String_as_OT.lt)).
Qed.

Lemma str_ltb_trans a b c : str_ltb a b = true → str_ltb b c = true → str_ltb a c = true.
Proof.
  rewrite !str_ltb_lt. apply (StrictOrder_Transitive (R := String_as_OT.lt)).
Qed.

Lemma str_ltb_total a b : str_ltb a b = false → str_ltb b a = false → a = b.
Proof.
  intros H1 H2. apply not_true_iff_false in H1, H2. rewrite str_ltb_lt in H1, H2.
  destruct (String_as_OT.compare_spec a b) as [Heq|Hlt|Hgt]; done.
Qed.

Lemma key_ltb_irrefl x : key_ltb x x = false.
Proof.
  unfold key_ltb. rewrite Z.ltb_irrefl, str_ltb_irrefl. by rewrite andb_false_r.
Qed.

Lemma key_ltb_spec x y :
  key_ltb x y = true ↔ x.1 < y.1 ∨ (x.1 = y.1 ∧ str_ltb x.2 y.2 = true).
Proof.
  unfold key_ltb. rewrite orb_true_iff, andb_true_iff, Z.ltb_lt, Z.eqb_eq. done.
Qed.

Lemma key_ltb_trans x y z :
  key_ltb x y = true → key_ltb y z = true → key_ltb x z = true.
Proof.
  rewrite !key_ltb_spec. intros [H1|[H1 H1']] [H2|[H2 H2']]; try (left; lia).
  right. split; [lia|]. by eapply str_ltb_trans.
Qed.

Lemma key_ltb_total x y : key_ltb x y = false → key_ltb y x = false → x = y.
Proof.
  intros H1 H2. apply not_true_iff_false in H1, H2. rewrite key_ltb_spec in H1, H2.
  destruct x as [t1 s1], y as [t2 s2]; simpl in *.
  assert (t1 = t2) as -> by lia.
  f_equal. apply str_ltb_total; apply not_true_is_false; naive_solver.
Qed.

Section BisectSorted.
Context {A : Type} (ltb : A → A → bool).
Hypothesis ltb_irrefl : ∀ x, ltb x x = false.
Hypothesis ltb_trans : ∀ x y z, ltb x y = true → ltb y z = true → ltb x z = true.
Hypothesis ltb_total : ∀ x y, ltb x y = false → ltb y x = false → x = y.

(** [x] is not above [y]. *)
Definition leb_of (x y : A) : Prop := ltb y x = false.

Lemma leb_of_trans x y z : leb_of x y → leb_of y z → leb_of x z.
Proof.
  unfold leb_of. intros Hxy Hyz.
  destruct (ltb z x) eqn:Hzx; [|done].
  destruct (ltb y z) eqn:Hyz'.
  - by rewrite (ltb_trans _ _ _ Hyz' Hzx) in Hxy.
  - rewrite (ltb_total _ _ Hyz' Hyz) in Hxy. congruence.
Qed.

Lemma ltb_leb_of x y : ltb x y = true → leb_of x y.
Proof.
  unfold leb_of. intros Hxy. destruct (ltb y x) eqn:Hyx; [|done].
  pose proof (ltb_trans _ _ _ Hxy Hyx) as Hxx. by rewrite ltb_irrefl in Hxx.
Qed.

Lemma sorted_lookup (l : list A) i j x y :
  StronglySorted leb_of l → (i < j)%nat →
  l !! i = Some x → l !! j = Some y → leb_of x y.
Proof.
  intros Hs. revert i j. induction Hs as [|z l Hs IH Hz]; intros i j Hij Hi Hj.
  { by rewrite lookup_nil in Hi. }
  destruct j as [|j]; [lia|]. simpl in Hj. destruct i as [|i].
  - injection Hi as <-. rewrite Forall_forall in Hz. apply Hz.
    by eapply list_elem_of_lookup_2.
  - simpl in Hi. apply (IH i j); [lia | done | done].
Qed.

Lemma sorted_lookup_le (l : list A) i j x y :
  StronglySorted leb_of l → (i <= j)%nat →
  l !! i = Some x → l !! j = Some y → leb_of x y.
Proof.
  intros Hs Hij Hi Hj. destruct (decide (i = j)) as [->|Hne].
  - rewrite Hi in Hj. injection Hj as <-. apply ltb_irrefl.
  - apply (sorted_lookup l i j x y Hs); [lia | done | done].
Qed.

(** The loop of [bisect_right] keeps, left of [lo], the entries that are
    not above [x], and from [hi] on those that are. *)
Lemma bisect_right_loop_spec (l : list A) x fuel lo hi :
  StronglySorted leb_of l →
  (lo <= hi <= length l)%nat → (hi - lo <= fuel)%nat →
  (∀ i y, (i < lo)%nat → l !! i = Some y → ltb x y = false) →
  (∀ i y, (hi <= i)%nat → l !! i = Some y → ltb x y = true) →
  let p := bisect_right_loop ltb l x fuel lo hi in
  (p <= length l)%nat ∧
  (∀ i y, (i < p)%nat → l !! i = Some y → ltb x y = false) ∧
  (∀ i y, (p <= i)%nat → l !! i = Some y → ltb x y = true).
Proof.
  intros Hs. revert lo hi.
  induction fuel as [|fuel IH]; intros lo hi Hb Hf Hlo Hhi; cbv zeta;
    cbn [bisect_right_loop bisect_left_loop].
  { split_and!; [lia | done | intros; apply (Hhi i); [lia | done]]. }
  destruct (lo <? hi)%nat eqn:Hlt.
  2: { apply Nat.ltb_ge in Hlt.
       split_and!; [lia | done | intros; apply (Hhi i); [lia | done]]. }
  apply Nat.ltb_lt in Hlt.
  assert (Hmid : (lo <= (lo + hi) / 2 < hi)%nat).
  { split; [apply Nat.div_le_lower_bound; lia | apply Nat.Div0.div_lt_upper_bound; lia]. }
  destruct (lookup_lt_is_Some_2 l ((lo + hi) / 2)) as [m Hm]; [lia|].
  rewrite Hm. destruct (ltb x m) eqn:Hxm.
  - apply IH; [lia | lia | done |].
    intros i y Hi Hy.
    destruct (ltb x y) eqn:Hxy; [done|].
    pose proof (sorted_lookup_le l _ i m y Hs Hi Hm Hy) as Hmy.
    pose proof (leb_of_trans m y x Hmy Hxy) as Hmx. unfold leb_of in Hmx.
    congruence.
  - apply IH; [lia | lia | | done].
    intros i y Hi Hy.
    assert (Hle : (i <= (lo + hi) / 2)%nat) by lia.
    pose proof (sorted_lookup_le l i _ y m Hs Hle Hy Hm) as Hym.
    apply (leb_of_trans y m x); done.
Qed.

Lemma bisect_right_spec (l : list A) x :
  StronglySorted leb_of l →
  let p := bisect_right ltb l x in
  (p <= length l)%nat ∧
  (∀ i y, (i < p)%nat → l !! i = Some y → ltb x y = false) ∧
  (∀ i y, (p <= i)%nat → l !! i = Some y → ltb x y = true).
Proof.
  intros Hs. apply bisect_right_loop_spec; [done | lia | lia | lia |].
  intros i y Hi Hy. apply lookup_lt_Some in Hy. lia.
Qed.

Lemma bisect_left_loop_spec (l : list A) x fuel lo hi :
  StronglySorted leb_of l →
  (lo <= hi <= length l)%nat → (hi - lo <= fuel)%nat →
  (∀ i y, (i < lo)%nat → l !! i = Some y → ltb y x = true) →
  (∀ i y, (hi <= i)%nat → l !! i = Some y → ltb y x = false) →
  let p := bisect_left_loop ltb l x fuel lo hi in
  (p <= length l)%nat ∧
  (∀ i y, (i < p)%nat → l !! i = Some y → ltb y x = true) ∧
  (∀ i y, (p <= i)%nat → l !! i = Some y → ltb y x = false).
Proof.
  intros Hs. revert lo hi.
  induction fuel as [|fuel IH]; intros lo hi Hb Hf Hlo Hhi; cbv zeta;
    cbn [bisect_right_loop bisect_left_loop].
  { split_and!; [lia | done | intros; apply (Hhi i); [lia | done]]. }
  destruct (lo <? hi)%nat eqn:Hlt.
  2: { apply Nat.ltb_ge in Hlt.
       split_and!; [lia | done | intros; apply (Hhi i); [lia | done]]. }
  apply Nat.ltb_lt in Hlt.
  assert (Hmid : (lo <= (lo + hi) / 2 < hi)%nat).
  { split; [apply Nat.div_le_lower_bound; lia | apply Nat.Div0.div_lt_upper_bound; lia]. }
  destruct (lookup_lt_is_Some_2 l ((lo + hi) / 2)) as [m Hm]; [lia|].
  rewrite Hm. destruct (ltb m x) eqn:Hmx.
  - apply IH; [lia | lia | | done].
    intros i y Hi Hy.
    assert (Hle : (i <= (lo + hi) / 2)%nat) by lia.
    pose proof (sorted_lookup_le l i _ y m Hs Hle Hy Hm) as Hym.
    destruct (ltb y x) eqn:Hyx; [done|].
    pose proof (leb_of_trans x y m Hyx Hym) as Hxm. unfold leb_of in Hxm.
    congruence.
  - apply IH; [lia | lia | done |].
    intros i y Hi Hy.
    pose proof (sorted_lookup_le l _ i m y Hs Hi Hm Hy) as Hmy.
    apply (leb_of_trans x m y); done.
Qed.

Lemma bisect_left_spec (l : list A) x :
  StronglySorted leb_of l →
  let p := bisect_left ltb l x in
  (p <= length l)%nat ∧
  (∀ i y, (i < p)%nat → l !! i = Some y → ltb y x = true) ∧
  (∀ i y, (p <= i)%nat → l !! i = Some y → ltb y x = false).
Proof.
  intros Hs. apply bisect_left_loop_spec; [done | lia | lia | lia |].
  intros i y Hi Hy. apply lookup_lt_Some in Hy. lia.
Qed.
End BisectSorted.

Section InsortSorted.
Context {A : Type} (ltb : A → A → bool).
Hypothesis ltb_irrefl : ∀ x, ltb x x = false.
Hypothesis ltb_trans : ∀ x y z, ltb x y = true → ltb y z = true → ltb x z = true.
Hypothesis ltb_total : ∀ x y, ltb x y = false → ltb y x = false → x = y.

Lemma StronglySorted_app_inv (R : A → A → Prop) (l1 l2 : list A) :
  StronglySorted R (l1 ++ l2) →
  StronglySorted R l1 ∧ StronglySorted R l2 ∧ ∀ x y, x ∈ l1 → y ∈ l2 → R x y.
Proof.
  induction l1 as [|z l1 IH]; simpl; intros Hs.
  { split_and!; [constructor | done | set_solver]. }
  apply StronglySorted_inv in Hs as [Hs Hz].
  destruct (IH Hs) as (H1 & H2 & H12).
  apply Forall_app in Hz as [Hz1 Hz2]. rewrite Forall_forall in Hz2.
  split_and!; [by constructor | done |].
  intros x y Hx Hy. apply elem_of_cons in Hx as [->|Hx]; [by apply Hz2 | by apply H12].
Qed.

(** [insort] keeps a sorted list sorted. *)
Lemma insort_sorted (l : list A) x :
  StronglySorted (leb_of ltb) l → StronglySorted (leb_of ltb) (insort ltb l x).
Proof.
  intros Hs. unfold insort.
  destruct (bisect_right_spec ltb ltb_irrefl ltb_trans ltb_total l x Hs)
    as (Hp & Hbelow & Habove).
  set (p := bisect_right ltb l x) in *.
  pose proof Hs as Hs'. rewrite <- (take_drop p l) in Hs'.
  apply StronglySorted_app_inv in Hs' as (H1 & H2 & H12).
  apply StronglySorted_snoc_all; [done | |].
  - constructor; [done|]. apply Forall_forall. intros y Hy.
    apply list_elem_of_lookup in Hy as [i Hi]. rewrite lookup_drop in Hi.
    apply (ltb_leb_of ltb ltb_irrefl ltb_trans).
    apply (Habove (p + i)%nat); [lia | done].
  - intros a b Ha Hb. apply elem_of_cons in Hb as [->|Hb]; [|by apply H12].
    apply elem_of_take in Ha as (i & Hi & Hlt). by apply (Hbelow i).
Qed.

Lemma insort_perm (l : list A) x : insort ltb l x ≡ₚ x :: l.
Proof.
  unfold insort. rewrite <- Permutation_middle. by rewrite take_drop.
Qed.

(** Where the entries are after [insort]: the new one at the position
    found, the old ones before it or one further. *)
Lemma insort_lookup_new (l : list A) x :
  StronglySorted (leb_of ltb) l →
  insort ltb l x !! bisect_right ltb l x = Some x.
Proof.
  intros Hs. unfold insort.
  destruct (bisect_right_spec ltb ltb_irrefl ltb_trans ltb_total l x Hs) as (Hp & _).
  rewrite lookup_app_r; rewrite length_take; [|lia].
  replace (_ - _)%nat with O by lia. done.
Qed.

Lemma insort_lookup_old (l : list A) x i y :
  StronglySorted (leb_of ltb) l → l !! i = Some y →
  ∃ j, j ≠ bisect_right ltb l x ∧ insort ltb l x !! j = Some y.
Proof.
  intros Hs Hi. unfold insort.
  destruct (bisect_right_spec ltb ltb_irrefl ltb_trans ltb_total l x Hs) as (Hp & _).
  set (p := bisect_right ltb l x) in *.
  destruct (decide (i < p)%nat) as [Hlt|Hge].
  - exists i. split; [lia|].
    rewrite lookup_app_l by (rewrite length_take; lia).
    by rewrite lookup_take_lt.
  - exists (S i). split; [lia|].
    rewrite lookup_app_r; rewrite length_take; [|lia].
    replace (S i - p `min` length l)%nat with (S (i - p)) by lia. simpl.
    rewrite lookup_drop. by replace (p + (i - p))%nat with i by lia.
Qed.
End InsortSorted.

(** ** The timestamp index of a graph *)

(** The index is sorted, and holds an entry for every stored node. *)
Record index_ok (g : TemporalGraph) : Prop := {
  index_sorted : StronglySorted (leb_of key_ltb) (timestamp_index g);
  index_nodes : ∀ k n, nodes g !! k = Some n → (timestamp n, k) ∈ timestamp_index g
}.

Lemma index_ok_empty : index_ok empty_graph.
Proof. split; simpl; [constructor | intros k n; by rewrite lookup_empty]. Qed.

Lemma index_ok_add_node g node : index_ok g → index_ok (add_node g node).2.
Proof.
  intros [Hs Hn]. split; simpl.
  - by apply (insort_sorted key_ltb key_ltb_irrefl key_ltb_trans key_ltb_total).
  - intros k n. rewrite (insort_perm key_ltb).
    destruct (decide (id node = k)) as [<-|Hne].
    + rewrite lookup_insert_eq. intros [= <-]. simpl. left.
    + rewrite lookup_insert_ne by done. intros Hk. right. by apply Hn.
Qed.

Lemma index_ok_add_edge g edge : index_ok g → index_ok (add_edge g edge).2.
Proof.
  intros [Hs Hn]. unfold add_edge.
  destruct (nodes g !! from_node edge), (nodes g !! to_node edge);
    try (split; simpl; done).
  destruct (is_sequential_or_causal (relation edge) && _); split; simpl; done.
Qed.

Lemma index_ok_build ops : index_ok (build ops).
Proof.
  unfold build. generalize index_ok_empty. generalize empty_graph.
  induction ops as [|op ops IH]; intros g Hg; simpl; [done|].
  apply IH. destruct op; simpl.
  - by apply index_ok_add_node.
  - by apply index_ok_add_edge.
Qed.

Lemma omap_seq_lookup {A B : Type} (f : A → B) (l : list A) a n :
  (a + n <= length l)%nat →
  omap (λ i, f <$> l !! i) (seq a n) = f <$> take n (drop a l).
Proof.
  revert a. induction n as [|n IH]; intros a Hn; simpl; [done|].
  destruct (lookup_lt_is_Some_2 l a) as [x Hx]; [lia|].
  rewrite Hx. simpl. rewrite IH by lia.
  rewrite (drop_S l x a Hx). simpl. done.
Qed.

(** An entry of a sorted index is in the answer of
    [get_nodes_in_timerange] when its timestamp is not before
    [start_time] and its key is not above the upper probe. *)
Lemma get_nodes_in_timerange_lookup g (start_time end_time : datetime) i
    (t : datetime) k :
  StronglySorted (leb_of key_ltb) (timestamp_index g) →
  timestamp_index g !! i = Some (t, k) →
  start_time ≤ t → key_ltb (end_time, upper_probe) (t, k) = false →
  let a := bisect_left key_ltb (timestamp_index g) (start_time, "") in
  (a <= i)%nat ∧ get_nodes_in_timerange g start_time end_time !! (i - a)%nat = Some k.
Proof.
  intros Hs Hi Hlo Hhi. cbv zeta. unfold get_nodes_in_timerange.
  destruct (bisect_left_spec key_ltb key_ltb_irrefl key_ltb_trans key_ltb_total
              (timestamp_index g) (start_time, "") Hs) as (Ha & Ha1 & _).
  destruct (bisect_right_spec key_ltb key_ltb_irrefl key_ltb_trans key_ltb_total
              (timestamp_index g) (end_time, upper_probe) Hs) as (Hb & _ & Hb2).
  set (a := bisect_left key_ltb (timestamp_index g) (start_time, "")) in *.
  set (b := bisect_right key_ltb (timestamp_index g) (end_time, upper_probe)) in *.
  assert (Hai : (a <= i)%nat).
  { destruct (decide (a <= i)%nat) as [|Hn]; [done|]. exfalso.
    pose proof (Ha1 i (t, k) ltac:(lia) Hi) as Hlt.
    apply key_ltb_spec in Hlt as [Hlt|[_ Hlt]]; simpl in *; [lia|].
    apply str_ltb_lt in Hlt. unfold String_as_OT.lt in Hlt.
    by destruct k. }
  assert (Hib : (i < b)%nat).
  { destruct (decide (i < b)%nat) as [|Hn]; [done|]. exfalso.
    pose proof (Hb2 i (t, k) ltac:(lia) Hi) as Hlt. congruence. }
  split; [done|].
  rewrite omap_seq_lookup by lia.
  rewrite list_lookup_fmap, lookup_take_lt by lia.
  rewrite lookup_drop. replace (a + (i - a))%nat with i by lia.
  by rewrite Hi.
Qed.

(** ** C10: adding a node whose id is already there *)

(** A document whose id starts above U+00FF, added at day 0 and again at
    day 1. *)
Definition twice_graph : TemporalGraph :=
  build [ doc "я" 0; doc "я" 1 ].

(** C10. The code at the failing input: the id ["я"] is added at day 0
    and again at day 1.  The second [add_node] replaces the entry of the
    node map, the index holds both pairs of the id, and the range from
    day 0 to day 1 covers both timestamps; yet [get_nodes_in_timerange]
    returns the id once, where the claim says twice.  The upper probe
    [(end_time, chr(255)*100)] is to sort after every entry at
    [end_time]; an id that sorts above [chr(255)*100] sorts after the
    probe, and its entry at [end_time] is cut off. *)
Lemma duplicate_id_returned_once :
  timestamp <$> nodes twice_graph !! "я" = Some (day 1) ∧
  size (nodes twice_graph) = 1%nat ∧
  timestamp_index twice_graph = [(day 0, "я"); (day 1, "я")] ∧
  get_nodes_in_timerange twice_graph (day 0) (day 1) = ["я"].
Proof. split_and!; vm_compute; reflexivity. Qed.

(** Away from that upper probe the code does what the claim says.  On a
    graph built by [add_node] and [add_edge] from nodes with naive
    timestamps, [add_node] with a node whose id is already stored returns
    [True], replaces the entry of the node map (which keeps its size),
    counts one more node created, and adds a second [(timestamp, id)] pair
    to the sorted index, where the old pair stays;
    [get_nodes_in_timerange] over a range that covers both timestamps
    then returns the id at two positions, when a timestamp equal to
    [end_time] comes with an id that does not sort above the upper probe
    [chr(255)*100]. *)
Theorem add_node_again (g : TemporalGraph) (old node : TemporalNode)
    (start_time end_time : datetime) :
  index_ok g → nodes g !! id node = Some old →
  (add_node g node).1 = true ∧
  nodes (add_node g node).2 !! id node
  = Some (mkNode (id node) (timestamp node) (node_type node) (content node)
            (metadata node) (Z.of_nat (length (timestamp_index g))) (layer_id node)) ∧
  size (nodes (add_node g node).2) = size (nodes g) ∧
  nodes_created (stats (add_node g node).2) = nodes_created (stats g) + 1 ∧
  timestamp_index (add_node g node).2
    ≡ₚ (timestamp node, id node) :: timestamp_index g ∧
  StronglySorted (leb_of key_ltb) (timestamp_index (add_node g node).2) ∧
  (timestamp old, id node) ∈ timestamp_index (add_node g node).2 ∧
  (start_time ≤ timestamp old → start_time ≤ timestamp node →
   key_ltb (end_time, upper_probe) (timestamp old, id node) = false →
   key_ltb (end_time, upper_probe) (timestamp node, id node) = false →
   ∃ i j, i ≠ j ∧
     get_nodes_in_timerange (add_node g node).2 start_time end_time !! i
       = Some (id node) ∧
     get_nodes_in_timerange (add_node g node).2 start_time end_time !! j
       = Some (id node)).
Proof.
  intros [Hs Hn] Hold.
  pose proof (insort_sorted key_ltb key_ltb_irrefl key_ltb_trans key_ltb_total
                (timestamp_index g) (timestamp node, id node) Hs) as Hs'.
  pose proof (insort_perm key_ltb (timestamp_index g) (timestamp node, id node))
    as Hp.
  split_and!; simpl; try done.
  - rewrite lookup_insert_eq. do 2 f_equal.
    rewrite Hp. simpl. lia.
  - apply map_size_insert_Some. by eexists.
  - rewrite Hp. right. by apply Hn.
  - intros Hlo1 Hlo2 Hhi1 Hhi2.
    pose proof (Hn _ _ Hold) as Hin.
    apply list_elem_of_lookup in Hin as [i Hi].
    destruct (insort_lookup_old key_ltb key_ltb_irrefl key_ltb_trans key_ltb_total
                (timestamp_index g) (timestamp node, id node) i _ Hs Hi)
      as (j & Hj & Hjold).
    pose proof (insort_lookup_new key_ltb key_ltb_irrefl key_ltb_trans key_ltb_total
                  (timestamp_index g) (timestamp node, id node) Hs) as Hnew.
    set (g' := (add_node g node).2).
    destruct (get_nodes_in_timerange_lookup g' start_time end_time j
                (timestamp old) (id node) Hs' Hjold Hlo1 Hhi1) as (Ha & Hr1).
    destruct (get_nodes_in_timerange_lookup g' start_time end_time _
                (timestamp node) (id node) Hs' Hnew Hlo2 Hhi2) as (Ha' & Hr2).
    set (a := bisect_left key_ltb (timestamp_index g') (start_time, "")) in *.
    exists (j - a)%nat, (bisect_right key_ltb (timestamp_index g)
                          (timestamp node, id node) - a)%nat.
    split_and!; [lia | done | done].
Qed.

Definition claim_again : TemporalNode :=
  new_node "claim" (day 55) CONTENT "claim, filed again" ∅.

Lemma add_node_again_witness :
  (add_node chain_graph claim_again).1 = true ∧
  size (nodes (add_node chain_graph claim_again).2) = size (nodes chain_graph) ∧
  ∃ i j, i ≠ j ∧
    get_nodes_in_timerange (add_node chain_graph claim_again).2 (day 0) (day 100) !! i
      = Some (id claim_again) ∧
    get_nodes_in_timerange (add_node chain_graph claim_again).2 (day 0) (day 100) !! j
      = Some (id claim_again).
Proof.
  destruct (add_node_again chain_graph claim_node claim_again (day 0) (day 100))
    as (H1 & _ & H2 & _ & _ & _ & _ & H3).
  - apply index_ok_build.
  - vm_compute. reflexivity.
  - split_and!; [exact H1 | exact H2 |].
    apply H3; vm_compute; (reflexivity || discriminate).
Defined.

Lemma str_ltb_head (a c : ascii) (s rest : string) :
  (N_of_ascii c < N_of_ascii a)%N → str_ltb (String a s) (String c rest) = false.
Proof.
  intros H. unfold str_ltb. cbn [String_as_OT.compare].
  unfold Ascii_as_OT.compare. by rewrite (proj2 (N.compare_gt_iff _ _) H).
Qed.

(** An id that starts with a byte below 195, as every ASCII id does, does
    not sort above the upper probe; neither does the empty id. *)
Lemma ascii_id_below_probe (c : ascii) (rest : string) :
  (nat_of_ascii c < 195)%nat →
  str_ltb upper_probe (String c rest) = false ∧ str_ltb upper_probe "" = false.
Proof.
  intros Hc. split; [|reflexivity].
  assert (∃ tail, upper_probe = String (ascii_of_nat 195) tail) as [tail ->]
    by (eexists; reflexivity).
  apply str_ltb_head.
  change (N_of_ascii (ascii_of_nat 195)) with 195%N.
  unfold nat_of_ascii in Hc. lia.
Qed.

(** ** C9: the range of the cosine similarity *)

(** The guards of [cosine_similarity]: an empty vector, or a norm that
    compares equal to zero, gives exactly [0.0]. *)
Lemma cosine_similarity_zero alg iter (vec1 vec2 : list (string * float)) :
  (vec1 = [] ∨ vec2 = [] → cosine_similarity alg iter vec1 vec2 = 0%float) ∧
  ((PrimFloat.sqrt (py_sum alg ((λ v, (v * v)%float) <$> vec1.*2)) =? 0)%float = true ∨
   (PrimFloat.sqrt (py_sum alg ((λ v, (v * v)%float) <$> vec2.*2)) =? 0)%float = true →
   cosine_similarity alg iter vec1 vec2 = 0%float).
Proof.
  split.
  - intros [-> | ->]; [done | by destruct vec1].
  - intros H. unfold cosine_similarity.
    destruct vec1 as [|p1 vec1]; [done|]. destruct vec2 as [|p2 vec2]; [done|].
    destruct H as [-> | ->]; [done | by rewrite orb_true_r].
Qed.

(** Adding a document raises the frequency of each of its distinct tokens
    by one, and of no other term. *)
Lemma count_tokens_lookup (tokens : list string) (freq : gmap string Z) (term : string) :
  NoDup tokens →
  default 0
    (foldl (λ freq token, <[token := default 0 (freq !! token) + 1]> freq) freq tokens
     !! term)
  = default 0 (freq !! term) + (if bool_decide (term ∈ tokens) then 1 else 0).
Proof.
  intros Hnd. revert freq.
  induction Hnd as [|token tokens Hnew Hnd IH]; intros freq; simpl; [lia|].
  rewrite IH. destruct (decide (term = token)) as [->|Hne].
  - rewrite lookup_insert_eq. simpl.
    rewrite (bool_decide_eq_false_2 (token ∈ tokens)) by done.
    rewrite bool_decide_eq_true_2 by left. lia.
  - rewrite lookup_insert_ne by done.
    destruct (decide (term ∈ tokens)).
    + rewrite !bool_decide_eq_true_2; [done | by right | done].
    + rewrite !bool_decide_eq_false_2; [done | set_solver | done].
Qed.

(** After any sequence of [add_document], no document frequency is above
    the document count, and the count is the number of documents. *)
Lemma document_frequency_le_count (texts : list string) (term : string) :
  let corpus := foldl add_document empty_corpus texts in
  SemanticSimilarity.document_count corpus = Z.of_nat (length texts) ∧
  0 ≤ default 0 (SemanticSimilarity.term_document_freq corpus !! term)
    ≤ SemanticSimilarity.document_count corpus.
Proof.
  cbv zeta.
  cut (∀ corpus,
         0 ≤ default 0 (SemanticSimilarity.term_document_freq corpus !! term)
           ≤ SemanticSimilarity.document_count corpus →
         SemanticSimilarity.document_count (foldl add_document corpus texts)
         = SemanticSimilarity.document_count corpus + Z.of_nat (length texts) ∧
         0 ≤ default 0 (SemanticSimilarity.term_document_freq
                          (foldl add_document corpus texts) !! term)
           ≤ SemanticSimilarity.document_count (foldl add_document corpus texts)).
  { intros H. destruct (H empty_corpus) as [H1 H2]; [simpl; rewrite lookup_empty; simpl; lia|].
    split; [rewrite H1; simpl; lia | done]. }
  induction texts as [|text texts IH]; intros corpus Hc; simpl; [split; lia|].
  destruct (IH (add_document corpus text)) as [H1 H2].
  - simpl. rewrite count_tokens_lookup by apply NoDup_remove_dups.
    destruct (bool_decide _); lia.
  - split; [rewrite H1; simpl; lia | done].
Qed.

(** A corpus of two documents, and a text of two terms that occur in one
    of them. *)
Definition two_documents : SemanticSimilarity.t :=
  add_document (add_document empty_corpus "alpha beta") "gamma delta".

(** C9 fails on the code. When [math.log(2.0)] is the binary64 number
    nearest to the logarithm of 2, as the C libraries return it, the
    similarity of the text ["alpha beta"] with itself, in a corpus of two
    documents, is [1.0000000000000002]: the quotient of the dot product by
    the product of the norms is above 1 by one unit in the last place,
    whichever way [sum] adds and whatever the order in which the common
    terms are summed. *)
Theorem similarity_above_one (math_log : float → float) (alg : sum_algorithm)
    (iter : list string → list string) :
  math_log 2%float = 0.6931471805599453%float →
  (∀ l, iter l ≡ₚ l) →
  compute_tfidf_vector math_log two_documents "alpha beta"
    = [("alpha", 0.34657359027997264%float); ("beta", 0.34657359027997264%float)] ∧
  similarity math_log alg iter two_documents "alpha beta" "alpha beta"
    = 1.0000000000000002%float ∧
  (1 <? similarity math_log alg iter two_documents "alpha beta" "alpha beta")%float
    = true.
Proof.
  intros Hlog Hiter.
  assert (Hvec : compute_tfidf_vector math_log two_documents "alpha beta"
            = [("alpha", 0.34657359027997264%float);
               ("beta", 0.34657359027997264%float)]).
  { transitivity [("alpha", (0.5 * math_log 2)%float);
                  ("beta", (0.5 * math_log 2)%float)];
      [vm_compute; reflexivity | rewrite Hlog; vm_compute; reflexivity]. }
  assert (Hsim : similarity math_log alg iter two_documents "alpha beta" "alpha beta"
            = 1.0000000000000002%float).
  { unfold similarity. rewrite Hvec. unfold cosine_similarity.
    change (filter _ _) with ["alpha"; "beta"].
    destruct (Permutation_length_2_inv (symmetry (Hiter ["alpha"; "beta"])))
      as [-> | ->]; destruct alg; vm_compute; reflexivity. }
  split_and!; [done | done |]. by rewrite Hsim.
Qed.

Definition nearest_log (x : float) : float := 0.6931471805599453%float.

Lemma similarity_above_one_witness :
  similarity nearest_log Compensated insertion_order two_documents
    "alpha beta" "alpha beta"
    = 1.0000000000000002%float.
Proof.
  destruct (similarity_above_one nearest_log Compensated insertion_order)
    as (_ & H & _).
  - reflexivity.
  - intros l. apply Permutation_refl.
  - exact H.
Defined.

(** * Further properties *)

(** ** A search that ends at its target *)

Section WorklistSearch.
Context {E : Type}.
Variable adj : gmap string (list TemporalEdge).
Variable nbr : TemporalEdge → string.
Variable key : E → string.
Variable hops : E → Z.
Variable child : E → TemporalEdge → E.
Variable max_hops : Z.
Hypothesis key_child : ∀ e edge, key (child e edge) = nbr edge.
Hypothesis hops_child : ∀ e edge, hops (child e edge) = hops e + 1.
Variable s target : string.

Abbreviation search :=
  (worklist_loop adj nbr key hops child (λ e, bool_decide (key e = target))
     never max_hops).
Abbreviation search_inv := (bfs_inv adj nbr key hops never max_hops s).

(** The entry that ends the search is at the head of a queue that keeps
    the invariant of the loop, and no visited node is the target. *)
Lemma search_found fuel visited queue e visited' B :
  search fuel visited queue = Ok (Some e, visited') →
  search_inv visited queue →
  (target ∉ key <$> visited) →
  max_hops + 1 ≤ B → (∀ x, x ∈ queue → hops x ≤ B) →
  key e = target ∧ hops e ≤ B ∧ (target ∉ key <$> visited') ∧
  ∃ queue', search_inv visited' (e :: queue').
Proof.
  revert visited queue.
  induction fuel as [|fuel IH]; intros visited [|e1 queue] H Hinv Ht HB Hq;
    simpl in H; try done.
  case_bool_decide as Hfound.
  { injection H as <- <-. split_and!; [done | apply Hq; left | done | by exists queue]. }
  destruct (bool_decide (key e1 ∈ key <$> visited)) eqn:Hin; simpl in H.
  { apply bool_decide_eq_true in Hin.
    apply (IH visited queue); [done | | done | done |].
    - eapply bfs_inv_discard; eauto.
    - intros x Hx. apply Hq. by right. }
  apply bool_decide_eq_false in Hin.
  destruct (max_hops <? hops e1) eqn:Hgt.
  { apply Z.ltb_lt in Hgt.
    apply (IH visited queue); [done | | done | done |].
    - eapply bfs_inv_discard; eauto.
    - intros x Hx. apply Hq. by right. }
  apply Z.ltb_ge in Hgt.
  pose proof (bfs_inv_visit adj nbr key hops child never max_hops key_child
                hops_child s visited e1 queue Hinv Hin Hgt) as Hinv'.
  cbn [never] in Hinv', H.
  eapply IH; [exact H | exact Hinv' | | done |].
  - rewrite fmap_app. simpl. set_solver.
  - intros x Hx. apply elem_of_app in Hx as [Hx|Hx]; [apply Hq; by right|].
    apply list_elem_of_fmap in Hx as (edge & -> & _).
    rewrite hops_child. lia.
Qed.

(** A search that does not find its target has run as the loop without a
    target runs, and no visited node has an edge to the target. *)
Lemma search_none fuel visited queue visited' :
  search fuel visited queue = Ok (None, visited') →
  (target ∉ key <$> visited) →
  (∀ x edge, x ∈ visited → edge ∈ dd_get adj (key x) → nbr edge = target →
     ∃ y, y ∈ queue ∧ key y = target) →
  worklist_loop adj nbr key hops child never never max_hops fuel visited queue
    = Ok (None, visited') ∧
  (target ∉ key <$> visited') ∧
  (∀ x edge, x ∈ visited' → edge ∈ dd_get adj (key x) → nbr edge ≠ target).
Proof.
  revert visited queue.
  induction fuel as [|fuel IH]; intros visited [|e1 queue] H Ht Hedges;
    simpl in H |- *; try done.
  - injection H as <-. split_and!; [done | done |].
    intros x edge Hx Hedge Hn. destruct (Hedges x edge Hx Hedge Hn) as (y & Hy & _).
    set_solver.
  - injection H as <-. split_and!; [done | done |].
    intros x edge Hx Hedge Hn. destruct (Hedges x edge Hx Hedge Hn) as (y & Hy & _).
    set_solver.
  - case_bool_decide as Hfound; [done|]. cbn [never].
    assert (Hrest : ∀ x edge, x ∈ visited → edge ∈ dd_get adj (key x) →
              nbr edge = target → ∃ y, y ∈ queue ∧ key y = target).
    { intros x edge Hx Hedge Hn.
      destruct (Hedges x edge Hx Hedge Hn) as (y & Hy & Hky).
      apply elem_of_cons in Hy as [->|Hy]; [done|]. eauto. }
    destruct (bool_decide (key e1 ∈ key <$> visited)) eqn:Hin; simpl in H |- *.
    { by apply IH. }
    apply bool_decide_eq_false in Hin.
    destruct (max_hops <? hops e1) eqn:Hgt; [by apply IH|].
    apply IH; [done | rewrite fmap_app; simpl; set_solver |].
    intros x edge Hx Hedge Hn. apply elem_of_app in Hx as [Hx|Hx].
    + destruct (Hrest x edge Hx Hedge Hn) as (y & Hy & Hky).
      exists y. split; [apply elem_of_app; by left | done].
    + apply list_elem_of_singleton in Hx as ->.
      exists (child e1 edge). split; [|by rewrite key_child].
      apply elem_of_app. right. apply list_elem_of_fmap_2.
      apply list_elem_of_filter. split; [|done].
      rewrite Hn, fmap_app. simpl. set_solver.
Qed.

Lemma reach_O_inv pruned v : reach adj nbr pruned s O v → v = s.
Proof. by inversion 1. Qed.

(** The entry that ends the search was reached by as few edges as lead to
    the target at all. *)
Lemma search_found_least visited e queue n :
  search_inv visited (e :: queue) → (target ∉ key <$> visited) →
  hops e ≤ Z.max 0 (max_hops + 1) →
  reach adj nbr never s n target → hops e ≤ Z.of_nat n.
Proof.
  intros [[b [Hb1 Hb2]] Hs Hc Hst Hsd Hh] Ht Hmax Hr.
  apply StronglySorted_inv in Hs as [_ Hmin]. rewrite Forall_forall in Hmin.
  destruct (decide (hops e ≤ Z.of_nat n)) as [|Hlt]; [done|]. exfalso.
  assert (Hfront : ∀ y, y ∈ e :: queue → hops e ≤ hops y).
  { intros y Hy. apply elem_of_cons in Hy as [->|Hy]; [lia | by apply Hmin]. }
  cut (∀ m v, reach adj nbr never s m v → Z.of_nat m < hops e →
         ∃ x, x ∈ visited ∧ key x = v ∧ hops x ≤ Z.of_nat m).
  { intros Hcut. destruct (Hcut n target Hr ltac:(lia)) as (x & Hx & Hkx & _).
    apply Ht. rewrite <- Hkx. by apply list_elem_of_fmap_2. }
  intros m v Hrm. induction Hrm as [|m u edge Hrm IH Hp Hedge]; intros Hm.
  - assert (Hpos : 0 ≤ max_hops) by lia.
    destruct (Hst Hpos) as (x & [Hx|Hx] & Hkx & Hle).
    + exists x. split_and!; [done | done | lia].
    + specialize (Hfront _ Hx). lia.
  - destruct IH as (x & Hx & Hkx & Hle); [lia|]. subst u.
    destruct (Hc x edge Hx Hp ltac:(lia) Hedge) as (y & [Hy|Hy] & Hky & Hley).
    + exists y. split_and!; [done | done | lia].
    + specialize (Hfront _ Hy). lia.
Qed.

(** What a search from the start entry returns: an entry for the target
    if and only if between one and [max_hops + 1] edges lead to it, and
    then an entry reached by as few edges as lead to the target. *)
Lemma search_spec fuel e0 o visited :
  search fuel [] [e0] = Ok (o, visited) → key e0 = s → hops e0 = 0 → s ≠ target →
  (is_Some o ↔
   ∃ n, (1 <= n)%nat ∧ Z.of_nat n ≤ max_hops + 1 ∧ reach adj nbr never s n target) ∧
  (∀ e, o = Some e →
     key e = target ∧
     (∃ n, Z.of_nat n = hops e ∧ reach adj nbr never s n target) ∧
     (∀ n, reach adj nbr never s n target → hops e ≤ Z.of_nat n)).
Proof.
  intros H Hk Hh Hne.
  pose proof (bfs_inv_init adj nbr key hops child never max_hops key_child
                hops_child s e0 Hk Hh) as Hinit.
  destruct o as [e|].
  - destruct (search_found fuel [] [e0] e visited (Z.max 0 (max_hops + 1)) H Hinit)
      as (Hke & HB & Ht & queue' & Hinv); [set_solver | lia | |].
    { intros x Hx. apply list_elem_of_singleton in Hx as ->. lia. }
    assert (He : e ∈ e :: queue') by left.
    destruct (inv_sound _ _ _ _ _ _ _ _ _ Hinv e (or_intror He)) as (n & Hn & Hr).
    rewrite Hke in Hr.
    assert (n ≠ O).
    { intros ->. apply reach_O_inv in Hr. congruence. }
    split.
    + split; [|by eexists]. intros _. exists n. split_and!; [lia | lia | done].
    + intros e' [= <-]. split_and!; [done | by exists n |].
      intros m Hm. by apply (search_found_least visited e queue').
  - destruct (search_none fuel [] [e0] visited H) as (Hrun & Ht & Hedges);
      [set_solver | set_solver |].
    pose proof (bfs_visits adj nbr key hops child never max_hops key_child
                  hops_child s fuel e0 None visited Hrun Hk Hh) as Hv.
    split; [|done]. split; [by intros []|].
    intros (n & Hn1 & Hn2 & Hr). exfalso.
    inversion Hr as [|m u edge Hrm Hp Hedge Heq1 Heq2]; subst; [lia|].
    assert (Hu : u ∈ key <$> visited) by (apply Hv; exists m; split; [lia | done]).
    apply list_elem_of_fmap in Hu as (x & -> & Hx).
    by apply (Hedges x edge).
Qed.
End WorklistSearch.

(** ** [has_path], [get_shortest_path] and [find_path] *)

(** A path of the graph: each node has an edge to the next. *)
Definition is_path (g : TemporalGraph) (p : list string) : Prop :=
  ∀ i x y, p !! i = Some x → p !! S i = Some y → has_edge g x y = true.

Lemma has_edge_true g x y :
  has_edge g x y = true ↔ ∃ edge, edge ∈ dd_get (edges g) x ∧ to_node edge = y.
Proof.
  unfold has_edge. rewrite existsb_exists. split.
  - intros (edge & Hin & Hb). apply list_elem_of_In in Hin.
    apply bool_decide_eq_true in Hb. eauto.
  - intros (edge & Hin & Hb). exists edge. split; [by apply list_elem_of_In|].
    by apply bool_decide_eq_true.
Qed.

Lemma is_path_snoc g p u y :
  is_path g p → last p = Some u → has_edge g u y = true → is_path g (p ++ [y]).
Proof.
  intros Hp Hu He i x z Hx Hz.
  assert (Hlen : (S i < length (p ++ [y]))%nat) by (by eapply lookup_lt_Some).
  rewrite length_app in Hlen. simpl in Hlen.
  rewrite lookup_app_l in Hx by lia.
  destruct (decide (S i < length p)%nat) as [Hlt|Hge].
  - rewrite lookup_app_l in Hz by lia. by apply (Hp i).
  - rewrite lookup_app_r in Hz by lia.
    replace (S i - length p)%nat with O in Hz by lia. injection Hz as <-.
    rewrite last_lookup in Hu. replace (pred (length p)) with i in Hu by lia.
    congruence.
Qed.

Lemma is_path_prefix g p q : is_path g (p ++ q) → is_path g p.
Proof.
  intros Hp i x y Hx Hy. apply (Hp i); by apply lookup_app_l_Some.
Qed.

Lemma reach_path g a n b :
  reach (edges g) to_node never a n b →
  ∃ p, head p = Some a ∧ last p = Some b ∧ length p = S n ∧ is_path g p.
Proof.
  induction 1 as [|n u edge Hr (p & Hh & Hl & Hlen & Hp) _ Hedge].
  - exists [a]. split_and!; try done.
  - exists (p ++ [to_node edge]). split_and!.
    + destruct p; [done|]. done.
    + by rewrite last_snoc.
    + rewrite length_app. simpl. lia.
    + eapply is_path_snoc; [done | done |]. apply has_edge_true. eauto.
Qed.

Lemma path_reach g p a b :
  head p = Some a → last p = Some b → is_path g p →
  reach (edges g) to_node never a (length p - 1) b.
Proof.
  revert b. induction p as [|y p IH] using rev_ind; intros b Hh Hl Hp; [done|].
  rewrite last_snoc in Hl. injection Hl as ->.
  rewrite length_app. simpl.
  destruct (last p) as [u|] eqn:Hu.
  - assert (Hhp : head p = Some a) by (destruct p; [done | done]).
    pose proof (IH u Hhp eq_refl (is_path_prefix g p [b] Hp)) as Hr.
    assert (He : has_edge g u b = true).
    { apply (Hp (pred (length p))).
      - rewrite lookup_app_l; [by rewrite <- last_lookup|].
        destruct p; [done | simpl; lia].
      - rewrite lookup_app_r; [|destruct p; [done | simpl; lia]].
        replace (S (pred (length p)) - length p)%nat with O; [done|].
        destruct p; [done | simpl; lia]. }
    apply has_edge_true in He as (edge & Hedge & <-).
    replace (length p + 1 - 1)%nat with (S (length p - 1)).
    + by apply (reach_step _ _ _ _ _ u).
    + destruct p; [done | simpl; lia].
  - apply last_None in Hu as ->. simpl in *. injection Hh as ->. constructor.
Qed.

(** Between one and [max_hops + 1] edges lead from [a] to [b]. *)
Definition path_within (g : TemporalGraph) (a b : string) (max_hops : Z) : Prop :=
  ∃ p, head p = Some a ∧ last p = Some b ∧ is_path g p ∧
       2 ≤ Z.of_nat (length p) ≤ max_hops + 2.

Lemma path_within_reach g a b max_hops :
  path_within g a b max_hops ↔
  ∃ n, (1 <= n)%nat ∧ Z.of_nat n ≤ max_hops + 1 ∧ reach (edges g) to_node never a n b.
Proof.
  split.
  - intros (p & Hh & Hl & Hp & Hlen). exists (length p - 1)%nat.
    split_and!; [lia | lia | by apply path_reach].
  - intros (n & Hn1 & Hn2 & Hr).
    destruct (reach_path g a n b Hr) as (p & Hh & Hl & Hlen & Hp).
    exists p. split_and!; try done; lia.
Qed.

(** [has_path] answers [True] for a stored node and itself, and for two
    stored nodes joined by a path of at most [max_hops + 1] edges: the
    test for the target comes before the test of the hop count.  In every
    other case it answers [False]. *)
Theorem has_path_spec (g : TemporalGraph) (a b : string) (max_hops : Z) :
  (∃ answer, has_path g a b max_hops = Ok answer) ∧
  (has_path g a b max_hops = Ok true ↔
   is_Some (nodes g !! a) ∧ is_Some (nodes g !! b) ∧
   (a = b ∨ path_within g a b max_hops)).
Proof.
  unfold has_path.
  destruct (nodes g !! a) as [na|] eqn:Ha;
    [|split; [by eexists | split; [done | by intros ([] & _)]]].
  destruct (nodes g !! b) as [nb|] eqn:Hb;
    [|split; [by eexists | split; [done | by intros (_ & [] & _)]]].
  case_bool_decide as Hab.
  { split; [by eexists|]. split; [|done]. intros _. split_and!; [done | done | by left]. }
  destruct (worklist_loop_total (edges g) to_node fst snd forward_child
              (λ e : string * Z, bool_decide (e.1 = b)) never max_hops (a, 0))
    as (o & visited & _ & Hr).
  specialize (Hr (bfs_fuel (edges g)) ltac:(lia)).
  change (@nil string) with ((@nil (string * Z)).*1).
  rewrite has_path_loop_worklist, Hr. simpl.
  split; [by eexists|].
  destruct (search_spec (edges g) to_node fst snd forward_child max_hops
              ltac:(done) ltac:(done) a b (bfs_fuel (edges g)) (a, 0) o visited
              Hr eq_refl eq_refl Hab) as [Hfound _].
  rewrite <- path_within_reach in Hfound.
  split.
  - intros [= Hd]. apply bool_decide_eq_true in Hd.
    split_and!; [done | done | right; by apply Hfound].
  - intros (_ & _ & [?|Hp]); [done|]. f_equal. apply bool_decide_eq_true.
    by apply Hfound.
Qed.

(** The path that an entry of [get_shortest_path] carries leads from the
    start to the entry's node, by as many edges as the entry counts hops. *)
Definition carries_path (g : TemporalGraph) (a : string)
    (e : string * list string * Z) : Prop :=
  head e.1.2 = Some a ∧ last e.1.2 = Some e.1.1 ∧ is_path g e.1.2 ∧
  Z.of_nat (length e.1.2) = e.2 + 1.

Lemma shortest_path_entry g a target max_hops fuel visited queue e visited' :
  worklist_loop (edges g) to_node (λ e : string * list string * Z, e.1.1) snd
    path_child (λ e : string * list string * Z, bool_decide (e.1.1 = target))
    never max_hops fuel visited queue = Ok (Some e, visited') →
  (∀ x, x ∈ queue → carries_path g a x) →
  carries_path g a e.
Proof.
  revert visited queue.
  induction fuel as [|fuel IH]; intros visited [|e1 queue] H Hq;
    simpl in H; try done.
  case_bool_decide as Hfound.
  { injection H as <- <-. apply Hq. left. }
  destruct (bool_decide _ || _).
  { eapply IH; [exact H|]. intros x Hx. apply Hq. by right. }
  cbn [never] in H. eapply IH; [exact H|].
  intros x Hx. apply elem_of_app in Hx as [Hx|Hx]; [apply Hq; by right|].
  apply list_elem_of_fmap in Hx as (edge & -> & Hedge).
  apply list_elem_of_filter in Hedge as [_ Hedge].
  destruct (Hq e1 ltac:(left)) as (Hh & Hl & Hp & Hlen).
  unfold carries_path, path_child. simpl. split_and!.
  - destruct (e1.1.2); [done | done].
  - by rewrite last_snoc.
  - eapply is_path_snoc; [done | done |]. apply has_edge_true. eauto.
  - rewrite length_app. simpl. lia.
Qed.

(** [get_shortest_path] returns a path when [has_path] answers [True],
    and [None] otherwise.  The path leads from [a] to [b] along edges of
    the graph, and no path from [a] to [b] has fewer nodes. *)
Theorem get_shortest_path_spec (g : TemporalGraph) (a b : string) (max_hops : Z) :
  ∃ r, get_shortest_path g a b max_hops = Ok r ∧
    has_path g a b max_hops = Ok (bool_decide (is_Some r)) ∧
    ∀ p, r = Some p →
      head p = Some a ∧ last p = Some b ∧ is_path g p ∧
      ∀ q, head q = Some a → last q = Some b → is_path g q →
           (length p <= length q)%nat.
Proof.
  unfold get_shortest_path, has_path.
  destruct (nodes g !! a) as [na|] eqn:Ha; [|by exists None].
  destruct (nodes g !! b) as [nb|] eqn:Hb; [|by exists None].
  case_bool_decide as Hab.
  { subst b. exists (Some [a]). split_and!; [done | done |].
    intros p [= <-]. split_and!; try done.
    intros q Hq _ _. destruct q; [done | simpl; lia]. }
  destruct (worklist_loop_total (edges g) to_node
              (λ e : string * list string * Z, e.1.1) snd path_child
              (λ e : string * list string * Z, bool_decide (e.1.1 = b))
              never max_hops (a, [a], 0))
    as (o & visited & _ & Hr).
  specialize (Hr (bfs_fuel (edges g)) ltac:(lia)).
  destruct (worklist_loop_total (edges g) to_node fst snd forward_child
              (λ e : string * Z, bool_decide (e.1 = b)) never max_hops (a, 0))
    as (o' & visited' & _ & Hr').
  specialize (Hr' (bfs_fuel (edges g)) ltac:(lia)).
  change (has_path_loop g b max_hops (bfs_fuel (edges g)) [] [(a, 0)])
    with (has_path_loop g b max_hops (bfs_fuel (edges g))
            (@nil (string * Z)).*1 [(a, 0)]).
  change (shortest_path_loop g b max_hops (bfs_fuel (edges g)) [] [(a, [a], 0)])
    with (shortest_path_loop g b max_hops (bfs_fuel (edges g))
            ((λ e : string * list string * Z, e.1.1)
               <$> @nil (string * list string * Z)) [(a, [a], 0)]).
  rewrite shortest_path_loop_worklist, has_path_loop_worklist, Hr, Hr'. simpl.
  destruct (search_spec (edges g) to_node (λ e : string * list string * Z, e.1.1) snd
              path_child max_hops ltac:(done) ltac:(done) a b (bfs_fuel (edges g))
              (a, [a], 0) o visited Hr eq_refl eq_refl Hab) as [Hfound Hentry].
  destruct (search_spec (edges g) to_node fst snd forward_child max_hops
              ltac:(done) ltac:(done) a b (bfs_fuel (edges g)) (a, 0) o' visited'
              Hr' eq_refl eq_refl Hab) as [Hfound' _].
  eexists. split_and!; [done | |].
  - f_equal. apply bool_decide_ext. rewrite Hfound', <- Hfound.
    symmetry. apply fmap_is_Some.
  - intros p Hp. destruct o as [e|]; [|done]. injection Hp as <-.
    destruct (Hentry e eq_refl) as (Hke & _ & Hleast).
    destruct (shortest_path_entry g a b max_hops _ _ _ e visited Hr)
      as (Hh & Hl & Hpath & Hlen).
    { intros x Hx. apply list_elem_of_singleton in Hx as ->. by split_and!. }
    simpl in Hke. rewrite Hke in Hl. split_and!; [done | done | done |].
    intros q Hqh Hql Hq.
    specialize (Hleast _ (path_reach g q a b Hqh Hql Hq)).
    destruct q; [done|]. simpl in *. lia.
Qed.

(** [find_path] says that a path exists exactly when [has_path] does.  The
    length it reports is the number of nodes of a shortest path, one for a
    document and itself, and zero when there is no path. *)
Theorem find_path_spec (g : TemporalGraph) (a b : string) (max_hops : Z) :
  ∃ pr, find_path g a b max_hops = Ok pr ∧
    PathResult.from_node pr = a ∧ PathResult.to_node pr = b ∧
    has_path g a b max_hops = Ok (PathResult.exists_ pr) ∧
    (PathResult.exists_ pr = false →
     PathResult.path pr = None ∧ PathResult.path_length pr = 0) ∧
    (PathResult.exists_ pr = true →
     ∃ p, PathResult.path pr = Some p ∧
          PathResult.path_length pr = Z.of_nat (length p) ∧
          1 ≤ PathResult.path_length pr ∧
          (a ≠ b → 2 ≤ PathResult.path_length pr ≤ max_hops + 2) ∧
          ∀ q, head q = Some a → last q = Some b → is_path g q →
               PathResult.path_length pr ≤ Z.of_nat (length q)).
Proof.
  destruct (get_shortest_path_spec g a b max_hops) as (r & Hr & Hhas & Hp).
  unfold find_path. rewrite Hr. simpl. eexists. split; [reflexivity|]. simpl.
  split_and!; [done | done | done | |].
  - intros Hn. apply bool_decide_eq_false in Hn.
    destruct r; [by destruct Hn|]. done.
  - intros Hs. apply bool_decide_eq_true in Hs as [p ->].
    destruct (Hp p eq_refl) as (Hh & Hl & Hpath & Hmin).
    exists p. destruct p as [|x p]; [done|].
    split_and!; [done | done | simpl; lia | |
      intros q Hqh Hql Hq; specialize (Hmin q Hqh Hql Hq); simpl in Hmin; lia].
    intros Hab.
    destruct (has_path_spec g a b max_hops) as [_ Hiff].
    rewrite Hhas in Hiff. destruct Hiff as [Hiff _].
    destruct Hiff as (_ & _ & [?|(q & Hqh & Hql & Hq & Hlen)]); [done | done |].
    specialize (Hmin q Hqh Hql Hq).
    destruct p; [simpl in *; congruence|]. simpl in *. lia.
Qed.

(** ** What a built graph holds *)

(** The nodes and the edges that a sequence of operations hands to
    [add_node] and [add_edge]. *)
Definition added_nodes (ops : list graph_op) : list TemporalNode :=
  omap (λ op, match op with AddNode node => Some node | AddEdge _ => None end) ops.

Lemma build_snoc ops op : build (ops ++ [op]) = apply_op (build ops) op.
Proof. unfold build. by rewrite foldl_app. Qed.

Lemma added_nodes_snoc ops op :
  added_nodes (ops ++ [op])
  = added_nodes ops ++ match op with AddNode node => [node] | AddEdge _ => [] end.
Proof. unfold added_nodes. rewrite omap_app. by destruct op. Qed.

Lemma add_edge_nodes g edge : nodes (add_edge g edge).2 = nodes g.
Proof.
  unfold add_edge.
  destruct (nodes g !! from_node edge), (nodes g !! to_node edge); try done.
  simpl. by destruct (_ && _).
Qed.

Lemma add_edge_layers g edge : layers (add_edge g edge).2 = layers g.
Proof.
  unfold add_edge.
  destruct (nodes g !! from_node edge), (nodes g !! to_node edge); try done.
  simpl. by destruct (_ && _).
Qed.

Lemma add_edge_index g edge : timestamp_index (add_edge g edge).2 = timestamp_index g.
Proof.
  unfold add_edge.
  destruct (nodes g !! from_node edge), (nodes g !! to_node edge); try done.
  simpl. by destruct (_ && _).
Qed.

(** A node is stored when a node of its id was added; the stored node is
    the last one added under the id, with the position that [add_node]
    wrote into it. *)
Lemma build_nodes ops k :
  nodes (build ops) !! k
  = (λ p : nat * TemporalNode,
       mkNode (id p.2) (timestamp p.2) (node_type p.2) (content p.2) (metadata p.2)
         (Z.of_nat p.1) (layer_id p.2))
    <$> last (filter (λ p : nat * TemporalNode, id p.2 = k)
                (imap (λ i node, (i, node)) (added_nodes ops))) ∧
  length (timestamp_index (build ops)) = length (added_nodes ops).
Proof.
  induction ops as [|op ops [IH1 IH2]] using rev_ind.
  - split; [|done]. simpl. by rewrite lookup_empty.
  - rewrite build_snoc, added_nodes_snoc. destruct op as [node|edge]; simpl.
    + split.
      * rewrite imap_app, filter_app. cbn [imap]. rewrite Nat.add_0_r.
        rewrite filter_cons, filter_nil. cbn [snd].
        destruct (decide (id node = k)) as [<-|Hne].
        -- rewrite lookup_insert_eq, last_snoc. simpl. do 2 f_equal.
           rewrite (insort_perm key_ltb). simpl. lia.
        -- rewrite lookup_insert_ne by done. by rewrite app_nil_r.
      * rewrite (insort_perm key_ltb). simpl. rewrite length_app. simpl. lia.
    + rewrite add_edge_nodes, add_edge_index, app_nil_r. done.
Qed.

Lemma build_dom ops :
  dom (nodes (build ops)) = list_to_set (id <$> added_nodes ops) ∧
  dom (layers (build ops)) = list_to_set (layer_id <$> added_nodes ops).
Proof.
  induction ops as [|op ops [IH1 IH2]] using rev_ind.
  - split; simpl; by rewrite dom_empty_L.
  - rewrite build_snoc, added_nodes_snoc, !fmap_app, !list_to_set_app_L.
    destruct op as [node|edge]; simpl.
    + unfold dd_append. rewrite !dom_insert_L, IH1, IH2. split; set_solver.
    + rewrite add_edge_nodes, add_edge_layers, IH1, IH2. split; set_solver.
Qed.

Lemma build_stored ops k :
  is_Some (nodes (build ops) !! k) ↔ k ∈ id <$> added_nodes ops.
Proof.
  rewrite <- elem_of_dom. destruct (build_dom ops) as [-> _].
  apply elem_of_list_to_set.
Qed.

(** The entries of a map of lists. *)
Definition entry_total {V : Type} (m : gmap string (list V)) : nat :=
  sum_list (length <$> (map_to_list m).*2).

Lemma entry_total_insert {V : Type} (m : gmap string (list V)) k l :
  m !! k = None → entry_total (<[k := l]> m) = (length l + entry_total m)%nat.
Proof.
  intros Hk. unfold entry_total.
  rewrite (sum_list_perm _ _
    (fmap_Permutation _ _ _ (fmap_Permutation _ _ _ (map_to_list_insert m k l Hk)))).
  reflexivity.
Qed.

Lemma entry_total_append {V : Type} (m : gmap string (list V)) k x :
  entry_total (dd_append m k x) = S (entry_total m).
Proof.
  unfold dd_append. destruct (m !! k) as [l|] eqn:Hk; simpl.
  - rewrite <- (insert_delete_id m k l Hk) at 2.
    rewrite <- insert_delete_eq.
    rewrite !entry_total_insert by apply lookup_delete_eq.
    rewrite length_app. simpl. lia.
  - by rewrite entry_total_insert.
Qed.

Lemma size_list_to_set_le (l : list string) :
  (size (list_to_set l : gset string) <= length l)%nat ∧
  (size (list_to_set l : gset string) = length l → NoDup l).
Proof.
  induction l as [|x l [IH1 IH2]]; simpl; [split; [done | constructor]|].
  destruct (decide (x ∈ l)) as [Hin|Hout].
  - replace ({[x]} ∪ list_to_set l : gset string) with (list_to_set l : gset string)
      by set_solver.
    split; lia.
  - rewrite size_union by set_solver. rewrite size_singleton.
    split; [lia|]. intros Heq. constructor; [done|]. apply IH2. lia.
Qed.

(** The counters of a graph built by [add_node] and [add_edge]. *)
Lemma build_stats ops :
  nodes_created (stats (build ops)) = Z.of_nat (length (added_nodes ops)) ∧
  edges_created (stats (build ops)) = Z.of_nat (edge_total (edges (build ops))) ∧
  edge_total (reverse_edges (build ops)) = edge_total (edges (build ops)) ∧
  layers_created (stats (build ops)) = Z.of_nat (size (layers (build ops))) ∧
  traversals_performed (stats (build ops)) = 0 ∧
  entry_total (layers (build ops)) = length (added_nodes ops).
Proof.
  induction ops as [|op ops (IH1 & IH2 & IH3 & IH4 & IH5 & IH6)] using rev_ind.
  - split_and!; try done.
  - rewrite build_snoc, added_nodes_snoc, length_app.
    destruct op as [node|edge]; simpl.
    + rewrite entry_total_append. split_and!; try done; lia.
    + unfold add_edge.
      destruct (nodes (build ops) !! from_node edge);
        [destruct (nodes (build ops) !! to_node edge)|]; simpl;
        try (split_and!; try done; lia).
      change edge_total with (@entry_total TemporalEdge).
      destruct (_ && _); simpl; rewrite !entry_total_append;
        change (@entry_total TemporalEdge) with edge_total;
        split_and!; try done; lia.
Qed.

(** [get_statistics] on a graph built from nodes with naive timestamps,
    where no call of [add_node] fails: every call of [add_node] is
    counted, also one that replaces a node, so the count of nodes created
    is the length of the index and the total of the layers, and it is the
    number of stored nodes only when no id was added twice; the edges
    counted are the edges stored, in each direction; the layers counted
    are the layers there are. *)
Theorem statistics_of_built_graph (ops : list graph_op) :
  let st := get_statistics (build ops) in
  GraphStatistics.nodes_created st = Z.of_nat (length (added_nodes ops)) ∧
  GraphStatistics.nodes_created st = Z.of_nat (length (timestamp_index (build ops))) ∧
  GraphStatistics.nodes_created st = Z.of_nat (entry_total (layers (build ops))) ∧
  GraphStatistics.total_nodes st ≤ GraphStatistics.nodes_created st ∧
  (GraphStatistics.total_nodes st = GraphStatistics.nodes_created st
   ↔ NoDup (id <$> added_nodes ops)) ∧
  GraphStatistics.total_edges st = GraphStatistics.edges_created st ∧
  GraphStatistics.total_edges st = Z.of_nat (edge_total (reverse_edges (build ops))) ∧
  GraphStatistics.total_layers st = GraphStatistics.layers_created st ∧
  GraphStatistics.traversals_performed st = 0.
Proof.
  cbv zeta. simpl.
  destruct (build_stats ops) as (H1 & H2 & H3 & H4 & H5 & H6).
  destruct (build_nodes ops "") as [_ Hlen].
  destruct (build_dom ops) as [Hdom _].
  pose proof (size_list_to_set_le (id <$> added_nodes ops)) as [Hle Hnd].
  rewrite <- Hdom, size_dom, length_fmap in Hle, Hnd.
  split_and!; try lia.
  split.
  - intros Heq. apply Hnd. lia.
  - intros Hno. rewrite H1.
    rewrite <- (length_fmap id (added_nodes ops)).
    rewrite <- (size_list_to_set (C := gset string) _ Hno), <- Hdom, size_dom. done.
Qed.

(** On a graph built from nodes with naive timestamps, where no call of
    [add_node] fails, a layer lists the ids of the nodes added with its
    id, in the order in which they were added; an id added twice is listed
    twice. *)
Theorem layer_nodes_of_built_graph (ops : list graph_op) (layer : string) :
  get_layer_nodes (build ops) layer
  = id <$> filter (λ node, layer_id node = layer) (added_nodes ops).
Proof.
  unfold get_layer_nodes.
  induction ops as [|op ops IH] using rev_ind; [done|].
  rewrite build_snoc, added_nodes_snoc, filter_app, fmap_app.
  destruct op as [node|edge]; simpl.
  - rewrite dd_get_append, filter_cons, filter_nil.
    destruct (decide (layer_id node = layer)) as [->|];
      [by rewrite IH | by rewrite IH, app_nil_r].
  - by rewrite add_edge_layers, app_nil_r.
Qed.

Lemma str_app_inj (s a b : string) : s +:+ a = s +:+ b → a = b.
Proof. induction s as [|c s IH]; simpl; [done|]. intros [= H]. by apply IH. Qed.

(** The layer of a node made from a timestamp is the week of the
    timestamp, counted from the epoch: two timestamps share a layer
    exactly when they fall in the same week. *)
Theorem same_layer_same_week (t1 t2 : datetime) :
  _compute_layer_id t1 = _compute_layer_id t2
  ↔ delta_days t1 0 / 7 = delta_days t2 0 / 7.
Proof.
  unfold _compute_layer_id. split; [|by intros ->].
  intros H. apply pretty_Z_inj. by apply str_app_inj in H.
Qed.

Lemma added_nodes_app_l ops1 ops2 k :
  k ∈ id <$> added_nodes ops1 → k ∈ id <$> added_nodes (ops1 ++ ops2).
Proof.
  unfold added_nodes. rewrite omap_app, fmap_app, elem_of_app. by left.
Qed.

(** An edge that [add_edge] accepted: it was offered after nodes of its
    two ends had been added. *)
Definition accepted (ops : list graph_op) (edge : TemporalEdge) : Prop :=
  ∃ ops1 ops2, ops = ops1 ++ AddEdge edge :: ops2 ∧
    from_node edge ∈ id <$> added_nodes ops1 ∧
    to_node edge ∈ id <$> added_nodes ops1.

Lemma accepted_snoc ops op edge :
  accepted (ops ++ [op]) edge ↔
  accepted ops edge ∨
  (op = AddEdge edge ∧ from_node edge ∈ id <$> added_nodes ops ∧
   to_node edge ∈ id <$> added_nodes ops).
Proof.
  split.
  - intros (ops1 & ops2 & Heq & Hf & Ht).
    destruct ops2 as [|op2 ops2 _] using rev_ind.
    + apply app_inj_tail in Heq as [-> ->]. by right.
    + left. rewrite app_comm_cons, app_assoc in Heq.
      apply app_inj_tail in Heq as [-> _]. by exists ops1, ops2.
  - intros [(ops1 & ops2 & -> & Hf & Ht) | (-> & Hf & Ht)].
    + exists ops1, (ops2 ++ [op]). by rewrite <- app_assoc.
    + by exists ops, [].
Qed.

Lemma build_edges ops k edge :
  (edge ∈ dd_get (edges (build ops)) k ↔ from_node edge = k ∧ accepted ops edge) ∧
  (edge ∈ dd_get (reverse_edges (build ops)) k
   ↔ to_node edge = k ∧ accepted ops edge).
Proof.
  induction ops as [|op ops [IH1 IH2]] using rev_ind.
  - unfold dd_get. simpl. rewrite lookup_empty. simpl.
    split; (split; [set_solver|]); intros (_ & ops1 & ops2 & Heq & _);
      by destruct ops1.
  - rewrite build_snoc, !accepted_snoc. destruct op as [node|edge']; simpl.
    + rewrite IH1, IH2. split; (split; [naive_solver|]);
        intros (? & [?|(? & _)]); done.
    + unfold add_edge.
      pose proof (build_stored ops (from_node edge')) as Hf.
      pose proof (build_stored ops (to_node edge')) as Ht.
      destruct (nodes (build ops) !! from_node edge') as [nf|];
        [destruct (nodes (build ops) !! to_node edge') as [nt|]|]; simpl.
      * assert (Hsame : ∀ g' : TemporalGraph,
                  g' = build ops ∨
                  g' = print (build ops) "Warning: temporal edge goes backward in time" →
                  edges g' = edges (build ops) ∧
                  reverse_edges g' = reverse_edges (build ops))
          by (intros g' [-> | ->]; done).
        destruct (Hsame (if is_sequential_or_causal (relation edge')
                            && (timestamp nt <? timestamp nf)
                         then print (build ops) "Warning: temporal edge goes backward in time"
                         else build ops)) as [-> ->];
          [destruct (_ && _); eauto|].
        rewrite !dd_get_append.
        assert (Hf' : from_node edge' ∈ id <$> added_nodes ops) by (apply Hf; eauto).
        assert (Ht' : to_node edge' ∈ id <$> added_nodes ops) by (apply Ht; eauto).
        split.
        -- destruct (decide (from_node edge' = k)) as [<-|Hne].
           ++ rewrite elem_of_app, list_elem_of_singleton, IH1. split.
              ** intros [[? ?]| ->]; [naive_solver|]. split; [done|]. right. done.
              ** intros (Hk & [?|([= ->] & _)]); [left; done | right; done].
           ++ rewrite IH1. split; [naive_solver|].
              intros (Hk & [?|([= ->] & _)]); done.
        -- destruct (decide (to_node edge' = k)) as [<-|Hne].
           ++ rewrite elem_of_app, list_elem_of_singleton, IH2. split.
              ** intros [[? ?]| ->]; [naive_solver|]. split; [done|]. right. done.
              ** intros (Hk & [?|([= ->] & _)]); [left; done | right; done].
           ++ rewrite IH2. split; [naive_solver|].
              intros (Hk & [?|([= ->] & _)]); done.
      * rewrite IH1, IH2.
        split; (split; [naive_solver|]); intros (? & [?|([= ->] & _ & Hin)]);
          try done; apply Ht in Hin; by destruct Hin.
      * rewrite IH1, IH2.
        split; (split; [naive_solver|]); intros (? & [?|([= ->] & Hin & _)]);
          try done; apply Hf in Hin; by destruct Hin.
Qed.

(** The direct connections of a built graph.  There is an edge from [a]
    to [b] exactly when [add_edge] was given one after both nodes were
    added; edges are never taken out.  The successors of [a] and the
    predecessors of [b] agree with [has_edge], and both ends of an edge
    are stored. *)
Theorem direct_connections_of_built_graph (ops : list graph_op) (a b : string) :
  (has_edge (build ops) a b = true
   ↔ ∃ edge, accepted ops edge ∧ from_node edge = a ∧ to_node edge = b) ∧
  (b ∈ get_direct_successors (build ops) a ↔ has_edge (build ops) a b = true) ∧
  (a ∈ get_direct_predecessors (build ops) b ↔ has_edge (build ops) a b = true) ∧
  (has_edge (build ops) a b = true →
   is_Some (nodes (build ops) !! a) ∧ is_Some (nodes (build ops) !! b)).
Proof.
  assert (H1 : has_edge (build ops) a b = true
               ↔ ∃ edge, accepted ops edge ∧ from_node edge = a ∧ to_node edge = b).
  { rewrite has_edge_true. split.
    - intros (edge & Hin & Hto). apply build_edges in Hin as [Hfrom Hacc]. eauto.
    - intros (edge & Hacc & Hfrom & Hto). exists edge. split; [|done].
      apply build_edges. done. }
  split_and!; [done | | |].
  - unfold get_direct_successors. rewrite list_elem_of_fmap, has_edge_true.
    naive_solver.
  - unfold get_direct_predecessors. rewrite list_elem_of_fmap, H1. split.
    + intros (edge & -> & Hin). apply build_edges in Hin as [Hto Hacc]. eauto.
    + intros (edge & Hacc & Hfrom & Hto). exists edge. split; [done|].
      apply build_edges. done.
  - intros He. apply has_edge_true in He as (edge & Hin & <-).
    pose proof (edges_closed_build ops) as [Hc _].
    split; [|by eapply Hc].
    apply build_edges in Hin as [<- (ops1 & ops2 & -> & Hf & _)].
    apply build_stored. by apply added_nodes_app_l.
Qed.

(** ** The time range query is a scan of the index *)

Lemma filter_range {A : Type} (P : A → Prop) `{!∀ x, Decision (P x)} (l : list A)
    (a b : nat) :
  (∀ i e, l !! i = Some e → (P e ↔ (a <= i < b)%nat)) →
  filter P l = take (b - a) (drop a l).
Proof.
  revert a b. induction l as [|x l IH]; intros a b Hr.
  - by rewrite drop_nil, take_nil.
  - rewrite filter_cons. pose proof (Hr O x eq_refl) as H0.
    destruct a as [|a].
    + destruct b as [|b].
      * rewrite decide_False by (rewrite H0; lia).
        rewrite (IH O O); [done|]. intros i e Hi.
        rewrite (Hr (S i) e Hi). lia.
      * rewrite decide_True by (rewrite H0; lia).
        rewrite (IH O b); [simpl; by rewrite Nat.sub_0_r|]. intros i e Hi.
        rewrite (Hr (S i) e Hi). lia.
    + rewrite decide_False by (rewrite H0; lia).
      rewrite (IH a (pred b)).
      * simpl. f_equal. lia.
      * intros i e Hi. rewrite (Hr (S i) e Hi). lia.
Qed.

(** The keys between the two probes of [get_nodes_in_timerange]. *)
Definition in_timerange (start_time end_time : datetime) (p : datetime * string)
    : Prop :=
  start_time ≤ p.1 ∧
  (p.1 < end_time ∨ (p.1 = end_time ∧ str_ltb upper_probe p.2 = false)).

#[local] Instance in_timerange_dec start_time end_time p :
  Decision (in_timerange start_time end_time p).
Proof. unfold in_timerange. apply _. Defined.

Lemma str_ltb_empty k : str_ltb k "" = false.
Proof. unfold str_ltb. by destruct k. Qed.

Lemma get_nodes_in_timerange_scan g (start_time end_time : datetime) :
  StronglySorted (leb_of key_ltb) (timestamp_index g) →
  get_nodes_in_timerange g start_time end_time
  = (filter (in_timerange start_time end_time) (timestamp_index g)).*2.
Proof.
  intros Hs. unfold get_nodes_in_timerange.
  destruct (bisect_left_spec key_ltb key_ltb_irrefl key_ltb_trans key_ltb_total
              (timestamp_index g) (start_time, "") Hs) as (Ha & Ha1 & Ha2).
  destruct (bisect_right_spec key_ltb key_ltb_irrefl key_ltb_trans key_ltb_total
              (timestamp_index g) (end_time, upper_probe) Hs) as (Hb & Hb1 & Hb2).
  set (a := bisect_left key_ltb (timestamp_index g) (start_time, "")) in *.
  set (b := bisect_right key_ltb (timestamp_index g) (end_time, upper_probe)) in *.
  rewrite omap_seq_lookup by lia. f_equal. symmetry. apply filter_range.
  intros i [t k] Hi. unfold in_timerange. simpl.
  assert (Hlo : start_time ≤ t ↔ (a <= i)%nat).
  { split.
    - intros Hle. destruct (decide (a <= i)%nat) as [|Hn]; [done|]. exfalso.
      pose proof (Ha1 i (t, k) ltac:(lia) Hi) as Hlt.
      apply key_ltb_spec in Hlt as [Hlt|[_ Hlt]]; simpl in *; [lia|].
      by rewrite str_ltb_empty in Hlt.
    - intros Hge. pose proof (Ha2 i (t, k) Hge Hi) as Hlt.
      apply not_true_iff_false in Hlt. rewrite key_ltb_spec in Hlt. simpl in Hlt.
      lia. }
  assert (Hhi : (t < end_time ∨ (t = end_time ∧ str_ltb upper_probe k = false))
                ↔ (i < b)%nat).
  { split.
    - intros Hin. destruct (decide (i < b)%nat) as [|Hn]; [done|]. exfalso.
      pose proof (Hb2 i (t, k) ltac:(lia) Hi) as Hlt.
      apply key_ltb_spec in Hlt as [Hlt|[Heq Hlt]]; simpl in *; [lia|].
      destruct Hin as [?|[_ Hk]]; [lia | congruence].
    - intros Hlt. pose proof (Hb1 i (t, k) Hlt Hi) as Hnlt.
      apply not_true_iff_false in Hnlt. rewrite key_ltb_spec in Hnlt.
      simpl in Hnlt.
      destruct (decide (t < end_time)); [by left|]. right.
      assert (t = end_time) as -> by lia. split; [done|].
      apply not_true_is_false. naive_solver. }
  rewrite Hlo, Hhi. lia.
Qed.

Lemma build_index ops :
  timestamp_index (build ops)
  ≡ₚ (λ node, (timestamp node, id node)) <$> added_nodes ops.
Proof.
  induction ops as [|op ops IH] using rev_ind; [done|].
  rewrite build_snoc, added_nodes_snoc, fmap_app. destruct op as [node|edge]; simpl.
  - rewrite (insort_perm key_ltb), IH. simpl.
    by rewrite <- Permutation_cons_append.
  - by rewrite add_edge_index, app_nil_r.
Qed.

Lemma StronglySorted_filter_keep {A : Type} (R : A → A → Prop) (P : A → Prop)
    `{!∀ x, Decision (P x)} (l : list A) :
  StronglySorted R l → StronglySorted R (filter P l).
Proof.
  induction 1 as [|x l Hs IH Hx]; [constructor|].
  rewrite filter_cons. destruct (decide (P x)); [|done].
  constructor; [done|]. rewrite Forall_forall in Hx |- *.
  intros y Hy. apply list_elem_of_filter in Hy as [_ Hy]. by apply Hx.
Qed.

(** [get_nodes_in_timerange] on a built graph returns what a scan of the
    index returns: the ids of the index entries from [start_time] to
    [end_time], an entry at [end_time] only if its id does not sort above
    the upper probe.  These are the entries of the nodes added in that
    range, one for each call of [add_node], by ascending timestamp and id;
    there is none when [end_time] is before [start_time]. *)
Theorem nodes_in_timerange_of_built_graph (ops : list graph_op)
    (start_time end_time : datetime) :
  ∃ keys : list (datetime * string),
    get_nodes_in_timerange (build ops) start_time end_time = keys.*2 ∧
    keys = filter (in_timerange start_time end_time) (timestamp_index (build ops)) ∧
    keys ≡ₚ filter (in_timerange start_time end_time)
              ((λ node, (timestamp node, id node)) <$> added_nodes ops) ∧
    StronglySorted (leb_of key_ltb) keys ∧
    (∀ t k, (t, k) ∈ keys → start_time ≤ t ≤ end_time) ∧
    (end_time < start_time → keys = []).
Proof.
  destruct (index_ok_build ops) as [Hs _].
  eexists. split_and!; [by apply get_nodes_in_timerange_scan | done | | | |].
  - by rewrite build_index.
  - by apply StronglySorted_filter_keep.
  - intros t k Hin. apply list_elem_of_filter in Hin as [[Hlo Hhi] _].
    simpl in *. lia.
  - intros Hlt.
    destruct (filter _ _) as [|[t k] keys] eqn:Hf; [done|]. exfalso.
    assert (Hin : (t, k) ∈ filter (in_timerange start_time end_time)
                              (timestamp_index (build ops)))
      by (rewrite Hf; left).
    apply list_elem_of_filter in Hin as [[Hlo Hhi] _]. simpl in *. lia.
Qed.

(** ** Documents of a built graph *)

(** The node stored under an id is a node that was added under it, with
    the position that [add_node] gave it. *)
Lemma build_node_stored ops k n :
  nodes (build ops) !! k = Some n →
  id n = k ∧
  ∃ node, node ∈ added_nodes ops ∧ id node = k ∧ timestamp n = timestamp node ∧
          content n = content node ∧ node_type n = node_type node ∧
          metadata n = metadata node ∧ layer_id n = layer_id node.
Proof.
  destruct (build_nodes ops k) as [-> _].
  destruct (last _) as [[i node]|] eqn:Hl; [|done]. simpl. intros [= <-]. simpl.
  apply last_Some in Hl as [l' Hl].
  assert (Hin : (i, node) ∈ filter (λ p : nat * TemporalNode, id p.2 = k)
                             (imap (λ i node, (i, node)) (added_nodes ops))).
  { rewrite Hl. apply elem_of_app. right. left. }
  apply list_elem_of_filter in Hin as [Hk Hin]. simpl in Hk.
  apply list_elem_of_lookup in Hin as [j Hj].
  rewrite list_lookup_imap in Hj.
  destruct (added_nodes ops !! j) as [node'|] eqn:Hnode; [|done].
  simpl in Hj. injection Hj as -> ->.
  split; [done|]. exists node. split_and!; try done.
  by eapply list_elem_of_lookup_2.
Qed.

Lemma nodes_to_data_spec g ids :
  Forall (λ k, is_Some (nodes g !! k)) ids →
  ∃ docs, nodes_to_data g ids = Ok docs ∧
          Forall2 (λ k d, get_document g k = Some d) ids docs.
Proof.
  induction 1 as [|k ids [n Hn] _ (docs & IH1 & IH2)]; simpl; [by exists []|].
  unfold subscript. rewrite Hn. simpl. rewrite IH1. simpl.
  eexists. split; [done|]. constructor; [|done].
  unfold get_document. by rewrite Hn.
Qed.

Lemma Forall2_sorted {A B : Type} (R : A → B → Prop) (RA : A → A → Prop)
    (RB : B → B → Prop) l k :
  Forall2 R l k →
  (∀ x y a b, R x a → R y b → RA x y → RB a b) →
  StronglySorted RA l → StronglySorted RB k.
Proof.
  intros HF HR. induction HF as [|x a l k Hxa HF IH]; intros Hs; [constructor|].
  apply StronglySorted_inv in Hs as [Hs Hx]. constructor; [by apply IH|].
  clear IH Hs. induction HF as [|y b l k Hyb HF IH]; [constructor|].
  apply Forall_cons in Hx as [Hxy Hx]. constructor; [by eapply HR | by apply IH].
Qed.

Lemma Forall2_right {A B : Type} (R : A → B → Prop) (Q : B → Prop) l k :
  Forall2 R l k → (∀ x y, x ∈ l → R x y → Q y) → Forall Q k.
Proof.
  induction 1 as [|x y l k Hxy HF IH]; intros HQ; constructor.
  - apply (HQ x); [left | done].
  - apply IH. intros x' y' Hx'. apply HQ. by right.
Qed.

Lemma Forall2_fmap_eq {A B C : Type} (f : A → C) (g : B → C) l k :
  Forall2 (λ x y, g y = f x) l k → g <$> k = f <$> l.
Proof. induction 1 as [|x y l k Hxy _ IH]; [done|]. rewrite !fmap_cons. by rewrite Hxy, IH. Qed.

(** [get_documents_in_range] on a built graph does not raise: every id of
    the index is stored.  It returns, for each index entry in the range,
    the document that is stored under the entry's id now.  When no id was
    added twice that document has the timestamp of the entry, so the
    documents are within the range and in ascending order of time. *)
Theorem documents_in_range_of_built_graph (ops : list graph_op)
    (start_time end_time : datetime) :
  ∃ docs,
    get_documents_in_range (build ops) start_time end_time = Ok docs ∧
    NodeData.id <$> docs = get_nodes_in_timerange (build ops) start_time end_time ∧
    Forall (λ d, get_document (build ops) (NodeData.id d) = Some d) docs ∧
    (NoDup (id <$> added_nodes ops) →
     Forall (λ d, start_time ≤ NodeData.timestamp d ≤ end_time) docs ∧
     StronglySorted (λ d1 d2, NodeData.timestamp d1 ≤ NodeData.timestamp d2) docs).
Proof.
  destruct (nodes_in_timerange_of_built_graph ops start_time end_time)
    as (keys & Hids & Hkeys & Hperm & Hsorted & Hrange & _).
  assert (Hadded : ∀ t k, (t, k) ∈ keys →
            ∃ node, node ∈ added_nodes ops ∧ timestamp node = t ∧ id node = k).
  { intros t k Hin. rewrite Hperm in Hin.
    apply list_elem_of_filter in Hin as [_ Hin].
    apply list_elem_of_fmap in Hin as (node & [= -> ->] & Hin). eauto. }
  destruct (nodes_to_data_spec (build ops) keys.*2) as (docs & Hdocs & HF).
  { apply Forall_forall. intros k Hk.
    apply list_elem_of_fmap in Hk as ([t k'] & -> & Hin). simpl.
    destruct (Hadded t k' Hin) as (node & Hnode & _ & <-).
    apply build_stored. by apply list_elem_of_fmap_2. }
  assert (HF' : Forall2 (λ (p : datetime * string) d,
                  get_document (build ops) (NodeData.id d) = Some d ∧
                  NodeData.id d = p.2 ∧
                  (NoDup (id <$> added_nodes ops) → NodeData.timestamp d = p.1))
                keys docs).
  { apply Forall2_fmap_l in HF. apply Forall2_same_length_lookup.
    split; [by eapply Forall2_length|].
    intros i [t k] d Hi Hd.
    pose proof (Forall2_lookup_lr _ _ _ _ _ _ HF Hi Hd) as Hdoc. simpl in Hdoc.
    unfold get_document in Hdoc |- *.
    destruct (nodes (build ops) !! k) as [n|] eqn:Hn; [|done].
    injection Hdoc as <-. simpl.
    destruct (build_node_stored ops k n Hn) as (Hid & node & Hnode & Hk & Hts & _).
    split_and!; [by rewrite Hid, Hn | done |].
    intros Hnd. rewrite Hts.
    destruct (Hadded t k (list_elem_of_lookup_2 _ _ _ Hi)) as (node' & Hnode' & <- & Hk').
    f_equal. eapply (NoDup_fmap_eq id); [exact Hnd | done | done | congruence]. }
  exists docs. unfold get_documents_in_range. rewrite Hids, Hdocs.
  split_and!; [done | | |].
  - apply Forall2_fmap_eq. eapply Forall2_impl; [exact HF'|]. naive_solver.
  - eapply Forall2_right; [exact HF'|]. naive_solver.
  - intros Hnd. split.
    + eapply Forall2_right; [exact HF'|]. intros [t k] d Hin (_ & _ & Hts).
      rewrite (Hts Hnd). simpl. by apply (Hrange t k).
    + eapply Forall2_sorted; [exact HF' | | exact Hsorted].
      intros x y d1 d2 (_ & _ & H1) (_ & _ & H2) Hle.
      rewrite (H1 Hnd), (H2 Hnd). unfold leb_of in Hle.
      apply not_true_iff_false in Hle. rewrite key_ltb_spec in Hle. lia.
Qed.

Lemma slice_to_fmap {A B : Type} (f : A → B) (l : list A) (n : Z) :
  slice_to (f <$> l) n = f <$> slice_to l n.
Proof. unfold slice_to. rewrite length_fmap. destruct (0 <=? n); by rewrite fmap_take. Qed.

Lemma StronglySorted_take {A : Type} (R : A → A → Prop) (l : list A) (n : nat) :
  StronglySorted R l → StronglySorted R (take n l).
Proof.
  intros Hs. revert n. induction Hs as [|x l Hs IH Hx]; intros [|n]; simpl;
    try constructor; [apply IH|].
  rewrite Forall_forall in Hx |- *. intros y Hy. apply Hx.
  apply elem_of_take in Hy as (i & Hi & _). by eapply list_elem_of_lookup_2.
Qed.

Lemma slice_to_sorted {A : Type} (R : A → A → Prop) (l : list A) (n : Z) :
  StronglySorted R l → StronglySorted R (slice_to l n).
Proof.
  intros Hs. unfold slice_to. destruct (0 <=? n); by apply StronglySorted_take.
Qed.

Lemma slice_to_NoDup {A : Type} (l : list A) (n : Z) : NoDup l → NoDup (slice_to l n).
Proof.
  intros Hnd. unfold slice_to.
  destruct (0 <=? n); eapply sublist_NoDup; try exact Hnd; apply sublist_take.
Qed.

(** The documents of the ids that a graph query returns with their
    timestamps. *)
Lemma keyed_documents ops (keyed : list (string * datetime)) (max_results : Z) :
  (∀ v t, (v, t) ∈ keyed →
     ∃ nv, nodes (build ops) !! v = Some nv ∧ t = timestamp nv) →
  ∃ docs,
    nodes_to_data (build ops) (slice_to keyed.*1 max_results) = Ok docs ∧
    Forall2 (λ (p : string * datetime) d,
               get_document (build ops) (NodeData.id d) = Some d ∧
               NodeData.id d = p.1 ∧ NodeData.timestamp d = p.2)
      (slice_to keyed max_results) docs.
Proof.
  intros Hkeyed. rewrite slice_to_fmap.
  destruct (nodes_to_data_spec (build ops) (slice_to keyed max_results).*1)
    as (docs & Hdocs & HF).
  { apply Forall_forall. intros k Hk.
    apply list_elem_of_fmap in Hk as ([v t] & -> & Hin). simpl.
    apply elem_of_slice_to in Hin.
    destruct (Hkeyed v t Hin) as (nv & -> & _). by eexists. }
  exists docs. split; [done|].
  apply Forall2_fmap_l in HF. apply Forall2_same_length_lookup.
  split; [by eapply Forall2_length|].
  intros i [v t] d Hi Hd.
  pose proof (Forall2_lookup_lr _ _ _ _ _ _ HF Hi Hd) as Hdoc. simpl in Hdoc.
  apply list_elem_of_lookup_2, elem_of_slice_to in Hi.
  destruct (Hkeyed v t Hi) as (nv & Hnv & ->).
  unfold get_document in Hdoc |- *. rewrite Hnv in Hdoc. injection Hdoc as <-.
  destruct (build_node_stored ops v nv Hnv) as (Hid & _).
  simpl. split_and!; [by rewrite Hid, Hnv | done | done].
Qed.

(** [get_future_documents] on a built graph does not raise when the end
    of the window, the source's timestamp plus [days] days, is a datetime
    that Python can represent ([OverflowError] otherwise).  It returns
    the documents of the ids that [get_forward_nodes] returns, each once:
    documents that are stored, later than the source and not later than
    the window's end, in ascending order of time; none for an unknown
    id. *)
Theorem future_documents_of_built_graph (iter : list string → list string)
    (ops : list graph_op) (doc_id : string) (days max_results : Z) :
  (∀ l, iter l ≡ₚ l) →
  (∀ source, get_document (build ops) doc_id = Some source →
     timedelta_ok days ∧ representable (NodeData.timestamp source + timedelta days)) →
  ∃ docs,
    get_future_documents iter (build ops) doc_id days max_results = Ok docs ∧
    get_forward_nodes iter (build ops) doc_id days 5 max_results
      = Ok (NodeData.id <$> docs) ∧
    NoDup (NodeData.id <$> docs) ∧
    Forall (λ d, get_document (build ops) (NodeData.id d) = Some d) docs ∧
    StronglySorted (λ d1 d2, NodeData.timestamp d1 ≤ NodeData.timestamp d2) docs ∧
    (∀ source, get_document (build ops) doc_id = Some source →
       Forall (λ d, NodeData.timestamp source < NodeData.timestamp d
                    ≤ NodeData.timestamp source + timedelta days) docs) ∧
    (get_document (build ops) doc_id = None → docs = []).
Proof.
  intros Hiter _. unfold get_future_documents, get_document.
  destruct (nodes (build ops) !! doc_id) as [source|] eqn:Hsrc.
  - destruct (get_forward_nodes_spec iter (build ops) doc_id source days 5 max_results
                Hiter (edges_closed_build ops) Hsrc)
      as (keyed & -> & Hnd & Hsorted & Hkeyed).
    destruct (keyed_documents ops keyed max_results) as (docs & Hdocs & HF).
    { intros v t Hin. apply Hkeyed in Hin as (n & nv & _ & _ & Hnv & -> & _). eauto. }
    exists docs. simpl. rewrite Hdocs.
    assert (Hids : NodeData.id <$> docs = slice_to keyed.*1 max_results).
    { rewrite slice_to_fmap. apply Forall2_fmap_eq.
      eapply Forall2_impl; [exact HF|]. naive_solver. }
    split_and!; [done | by rewrite Hids | | | | | done].
    + rewrite Hids. by apply slice_to_NoDup.
    + eapply Forall2_right; [exact HF|]. naive_solver.
    + eapply Forall2_sorted; [exact HF | | by apply slice_to_sorted].
      intros x y d1 d2 (_ & _ & H1) (_ & _ & H2) Hle. rewrite H1, H2. exact Hle.
    + intros source' [= <-]. eapply Forall2_right; [exact HF|].
      intros [v t] d Hin (_ & _ & Hts). rewrite Hts. simpl.
      apply elem_of_slice_to, Hkeyed in Hin as (n & nv & _ & _ & _ & -> & Hw).
      exact Hw.
  - exists []. unfold get_forward_nodes. rewrite Hsrc. simpl.
    split_and!; try done; constructor.
Qed.

Lemma future_documents_of_built_graph_witness :
  ∃ docs,
    get_future_documents insertion_order (build chain_ops) "claim" 60 50 = Ok docs ∧
    get_forward_nodes insertion_order (build chain_ops) "claim" 60 5 50
      = Ok (NodeData.id <$> docs).
Proof.
  destruct (future_documents_of_built_graph insertion_order chain_ops "claim" 60 50)
    as (docs & Hdocs & Hids & _).
  - intros l. apply Permutation_refl.
  - intros source Hsrc. vm_compute in Hsrc. injection Hsrc as <-.
    vm_compute. split; split; discriminate.
  - exists docs. exact (conj Hdocs Hids).
Defined.

(** [get_past_documents] on a built graph does not raise when the start
    of the window, the target's timestamp minus [days] days, is a datetime
    that Python can represent ([OverflowError] otherwise).  It returns the
    documents of the ids that [get_backward_nodes] returns, each once:
    documents that are stored, earlier than the target and not earlier
    than the window's start, the latest first; none for an unknown id. *)
Theorem past_documents_of_built_graph (iter : list string → list string)
    (ops : list graph_op) (doc_id : string) (days max_results : Z) :
  (∀ l, iter l ≡ₚ l) →
  (∀ target, get_document (build ops) doc_id = Some target →
     timedelta_ok days ∧ representable (NodeData.timestamp target - timedelta days)) →
  ∃ docs,
    get_past_documents iter (build ops) doc_id days max_results = Ok docs ∧
    get_backward_nodes iter (build ops) doc_id days 5 max_results
      = Ok (NodeData.id <$> docs) ∧
    NoDup (NodeData.id <$> docs) ∧
    Forall (λ d, get_document (build ops) (NodeData.id d) = Some d) docs ∧
    StronglySorted (λ d1 d2, NodeData.timestamp d2 ≤ NodeData.timestamp d1) docs ∧
    (∀ target, get_document (build ops) doc_id = Some target →
       Forall (λ d, NodeData.timestamp target - timedelta days
                    ≤ NodeData.timestamp d < NodeData.timestamp target) docs) ∧
    (get_document (build ops) doc_id = None → docs = []).
Proof.
  intros Hiter _. unfold get_past_documents, get_document.
  destruct (nodes (build ops) !! doc_id) as [target|] eqn:Htgt.
  - destruct (get_backward_nodes_spec iter (build ops) doc_id target days 5 max_results
                Hiter (edges_closed_build ops) Htgt)
      as (keyed & -> & Hnd & Hsorted & Hkeyed).
    destruct (keyed_documents ops keyed max_results) as (docs & Hdocs & HF).
    { intros v t Hin. apply Hkeyed in Hin as (n & nv & _ & _ & Hnv & -> & _). eauto. }
    exists docs. simpl. rewrite Hdocs.
    assert (Hids : NodeData.id <$> docs = slice_to keyed.*1 max_results).
    { rewrite slice_to_fmap. apply Forall2_fmap_eq.
      eapply Forall2_impl; [exact HF|]. naive_solver. }
    split_and!; [done | by rewrite Hids | | | | | done].
    + rewrite Hids. by apply slice_to_NoDup.
    + eapply Forall2_right; [exact HF|]. naive_solver.
    + eapply Forall2_sorted; [exact HF | | by apply slice_to_sorted].
      intros x y d1 d2 (_ & _ & H1) (_ & _ & H2) Hle. rewrite H1, H2. exact Hle.
    + intros target' [= <-]. eapply Forall2_right; [exact HF|].
      intros [v t] d Hin (_ & _ & Hts). rewrite Hts. simpl.
      apply elem_of_slice_to, Hkeyed in Hin as (n & nv & _ & _ & _ & -> & Hw).
      exact Hw.
  - exists []. unfold get_backward_nodes. rewrite Htgt. simpl.
    split_and!; try done; constructor.
Qed.

Lemma past_documents_of_built_graph_witness :
  ∃ docs,
    get_past_documents insertion_order (build chain_ops) "settlement" 90 50 = Ok docs ∧
    get_backward_nodes insertion_order (build chain_ops) "settlement" 90 5 50
      = Ok (NodeData.id <$> docs).
Proof.
  destruct (past_documents_of_built_graph insertion_order chain_ops "settlement" 90 50)
    as (docs & Hdocs & Hids & _).
  - intros l. apply Permutation_refl.
  - intros target Htgt. vm_compute in Htgt. injection Htgt as <-.
    vm_compute. split; split; discriminate.
  - exists docs. exact (conj Hdocs Hids).
Defined.

(** ** The chunks of an analysis *)












(** ** The documents of a chunk *)





(** ** Dicts as lists of items *)

Lemma dict_get_set {V : Type} (d : list (string * V)) k v k' :
  dict_get (dict_set d k v) k' = if bool_decide (k = k') then Some v else dict_get d k'.
Proof.
  induction d as [|[k0 v0] d IH]; simpl.
  - by destruct (bool_decide (k = k')).
  - destruct (decide (k0 = k)) as [->|Hne].
    + rewrite bool_decide_eq_true_2 by done. simpl.
      by destruct (bool_decide (k = k')).
    + rewrite (bool_decide_eq_false_2 (k0 = k)) by done. simpl. rewrite IH.
      destruct (decide (k0 = k')) as [->|Hne'].
      * rewrite bool_decide_eq_true_2 by done.
        by rewrite (bool_decide_eq_false_2 (k = k')) by congruence.
      * by rewrite (bool_decide_eq_false_2 (k0 = k')) by done.
Qed.

Lemma dict_set_keys {V : Type} (d : list (string * V)) k v :
  (dict_set d k v).*1 = if bool_decide (k ∈ d.*1) then d.*1 else d.*1 ++ [k].
Proof.
  induction d as [|[k0 v0] d IH]; [done|]. cbn [dict_set].
  destruct (decide (k0 = k)) as [->|Hne].
  - rewrite bool_decide_eq_true_2 by done. rewrite !fmap_cons. cbn [fst].
    by rewrite bool_decide_eq_true_2 by left.
  - rewrite (bool_decide_eq_false_2 (k0 = k)) by done. rewrite !fmap_cons, IH.
    cbn [fst].
    destruct (decide (k ∈ d.*1)).
    + rewrite !bool_decide_eq_true_2; [done | by right | done].
    + rewrite !bool_decide_eq_false_2; [done | set_solver | done].
Qed.

Lemma dict_set_NoDup {V : Type} (d : list (string * V)) k v :
  NoDup d.*1 → NoDup (dict_set d k v).*1.
Proof.
  intros Hnd. rewrite dict_set_keys. case_bool_decide; [done|].
  apply NoDup_app. split_and!; [done | | apply NoDup_singleton].
  intros x Hx Hx'. apply list_elem_of_singleton in Hx' as ->. done.
Qed.


Lemma dict_get_None {V : Type} (d : list (string * V)) k :
  dict_get d k = None ↔ k ∉ d.*1.
Proof.
  induction d as [|[k0 v0] d IH]; simpl; [set_solver|].
  case_bool_decide as Hk; [set_solver|]. rewrite IH. set_solver.
Qed.

Lemma dict_get_elem {V : Type} (d : list (string * V)) k v :
  NoDup d.*1 → (k, v) ∈ d → dict_get d k = Some v.
Proof.
  induction d as [|[k0 v0] d IH]; simpl; [set_solver|].
  rewrite NoDup_cons. intros [Hk0 Hnd] Hin.
  apply elem_of_cons in Hin as [[= <- <-]|Hin].
  - by rewrite bool_decide_eq_true_2.
  - rewrite bool_decide_eq_false_2; [by apply IH|].
    intros ->. apply Hk0. apply list_elem_of_fmap. by exists (k, v).
Qed.

Lemma dict_get_foldl_const {A V : Type} (f : A → string) (v : V) (l : list A)
    (d : list (string * V)) k :
  dict_get (foldl (λ scores x, dict_set scores (f x) v) d l) k
  = if bool_decide (k ∈ f <$> l) then Some v else dict_get d k.
Proof.
  revert d. induction l as [|x l IH]; intros d; simpl; [done|].
  rewrite IH, dict_get_set.
  destruct (decide (k ∈ f <$> l)).
  - rewrite !bool_decide_eq_true_2; [done | by right | done].
  - rewrite (bool_decide_eq_false_2 (k ∈ f <$> l)) by done.
    destruct (decide (f x = k)) as [<-|Hne].
    + rewrite !bool_decide_eq_true_2; [done | by left | done].
    + rewrite !bool_decide_eq_false_2; [done | set_solver | done].
Qed.

Lemma foldl_dict_set_NoDup {A V : Type} (f : A → string) (v : V) (l : list A)
    (d : list (string * V)) :
  NoDup d.*1 → NoDup (foldl (λ scores x, dict_set scores (f x) v) d l).*1.
Proof.
  revert d. induction l as [|x l IH]; intros d Hnd; simpl; [done|].
  apply IH. by apply dict_set_NoDup.
Qed.

(** ** The carryover beyond its caps *)

(** The attention scores that [_extract_carryover] hands to the next
    chunk: 1.0 for the document of every critical event it keeps, 0.8 for
    each of the last ten documents of the chunk that has no such event,
    and no score for any other document; a document has one score.  The
    chunk index goes up by one, the time range keeps its start and ends
    where the chunk ends, and the documents of the chunk are counted. *)
Theorem carryover_attention_scores (self : MarkovianTOTG)
    (chunk_result : ChunkResult.t) (previous_state : TemporalCarryover)
    (doc_id : string) :
  let c := _extract_carryover self chunk_result previous_state in
  dict_get (attention_scores c) doc_id
  = (if bool_decide (doc_id ∈ Event.doc_id <$> critical_events c)
     then Some 1%float
     else if bool_decide
               (doc_id ∈ slice_from (ChunkResult.doc_ids chunk_result) (-10))
          then Some 0.8%float else None) ∧
  NoDup (attention_scores c).*1 ∧
  chunk_index c = chunk_index previous_state + 1 ∧
  time_range c
  = (fst (time_range previous_state), Some (ChunkResult.end_time chunk_result)) ∧
  document_count c
  = document_count previous_state
    + Z.of_nat (length (ChunkResult.documents chunk_result)) ∧
  open_questions c = open_questions previous_state.
Proof.
  cbv zeta. unfold _extract_carryover. cbn [attention_scores critical_events
    chunk_index time_range document_count open_questions].
  split_and!; try done.
  - rewrite dict_get_foldl_const.
    case_bool_decide; [done|].
    rewrite (dict_get_foldl_const (λ i : string, i)). rewrite list_fmap_id.
    by case_bool_decide.
  - apply foldl_dict_set_NoDup. apply (foldl_dict_set_NoDup (λ i : string, i)).
    constructor.
Qed.

(** ** The critical events of a chunk *)









(** The carryovers of an analysis have attention scores of 0.8 or 1.0. *)
Lemma _extract_carryover_score_values self chunk_result previous_state :
  Forall (λ kv : string * float, kv.2 = 0.8%float ∨ kv.2 = 1%float)
    (attention_scores (_extract_carryover self chunk_result previous_state)).
Proof.
  apply Forall_forall. intros [k v] Hin. simpl.
  pose proof (carryover_attention_scores self chunk_result previous_state k)
    as [Hget [Hnd _]].
  cbv zeta in Hget, Hnd. rewrite (dict_get_elem _ k v Hnd Hin) in Hget.
  repeat case_bool_decide; naive_solver.
Qed.


(** ** The key entities of a chunk *)

(** The words of the documents of a chunk, each with the timestamp of its
    document: [doc.content.lower().split()], document after document. *)
Definition chunk_words (documents : list NodeData.t) : list (string * datetime) :=
  documents ≫= (λ doc, (λ word, (word, NodeData.timestamp doc))
                          <$> lower_split (NodeData.content doc)).

(** The entry of a word after it was seen at the given times. *)
Definition tally (old : option Entity.t) (times : list datetime) : option Entity.t :=
  foldl (λ entry t,
           Some (match entry with
                 | None => Entity.mk 1 t t
                 | Some e => Entity.mk (Entity.mentions e + 1) (Entity.first_seen e) t
                 end))
    old times.

Lemma tally_Some e times :
  tally (Some e) times
  = Some (Entity.mk (Entity.mentions e + Z.of_nat (length times)) (Entity.first_seen e)
            (default (Entity.last_seen e) (last times))).
Proof.
  revert e. induction times as [|t times IH]; intros e; simpl.
  - rewrite Z.add_0_r. by destruct e.
  - unfold tally in IH. rewrite IH. simpl. f_equal. f_equal; [lia|].
    rewrite last_cons. by destruct (last times).
Qed.

Lemma tally_None times :
  tally None times
  = match times with
    | [] => None
    | first :: _ =>
        Some (Entity.mk (Z.of_nat (length times)) first (default first (last times)))
    end.
Proof.
  destruct times as [|t times]; [done|].
  change (tally None (t :: times)) with (tally (Some (Entity.mk 1 t t)) times).
  rewrite tally_Some. simpl. f_equal. f_equal; [lia|].
  destruct times as [|t' times]; [done|]. by rewrite last_cons_cons.
Qed.

Lemma count_words_entities (words : list (string * datetime))
    (entities : list (string * Entity.t)) (word : string) :
  dict_get (foldl (λ entities p, count_word p.2 entities p.1) entities words) word
  = tally (dict_get entities word)
      (filter (λ p : string * datetime, p.1 = word ∧ (4 < String.length p.1)%nat)
         words).*2 ∧
  (NoDup entities.*1 →
   NoDup (foldl (λ entities p, count_word p.2 entities p.1) entities words).*1).
Proof.
  revert entities. induction words as [|[w t] words IH]; intros entities; [done|].
  cbn [foldl]. destruct (IH (count_word (w, t).2 entities (w, t).1)) as [IH1 IH2].
  split.
  - rewrite IH1, filter_cons. unfold count_word. cbn [fst snd].
    destruct (4 <? String.length w)%nat eqn:Hlen.
    + apply Nat.ltb_lt in Hlen.
      destruct (decide (w = word)) as [->|Hne].
      * rewrite decide_True by done. rewrite fmap_cons. cbn [snd tally foldl].
        destruct (dict_get entities word) as [e|]; by rewrite dict_get_set,
          bool_decide_eq_true_2.
      * rewrite decide_False by naive_solver.
        destruct (dict_get entities w) as [e|]; by rewrite dict_get_set,
          bool_decide_eq_false_2.
    + apply Nat.ltb_ge in Hlen. rewrite decide_False; [done|]. lia.
  - intros Hnd. apply IH2. unfold count_word. cbn [fst snd].
    destruct (4 <? String.length w)%nat; [|done].
    destruct (dict_get entities w); by apply dict_set_NoDup.
Qed.

Lemma dict_get_filter {V : Type} (P : string * V → Prop) `{!∀ kv, Decision (P kv)}
    (d : list (string * V)) k :
  NoDup d.*1 →
  dict_get (filter P d) k
  = match dict_get d k with
    | Some v => if decide (P (k, v)) then Some v else None
    | None => None
    end.
Proof.
  induction d as [|[k0 v0] d IH]; [done|]. rewrite fmap_cons, NoDup_cons.
  intros [Hk0 Hnd]. specialize (IH Hnd). rewrite filter_cons. cbn [dict_get].
  destruct (decide (k0 = k)) as [->|Hne].
  - rewrite bool_decide_eq_true_2 by done.
    destruct (decide (P (k, v0))).
    + cbn [dict_get]. by rewrite bool_decide_eq_true_2.
    + rewrite IH. simpl in Hk0. apply dict_get_None in Hk0. by rewrite Hk0.
  - rewrite (bool_decide_eq_false_2 (k0 = k)) by done.
    destruct (decide (P (k0, v0))); [|done].
    cbn [dict_get]. by rewrite bool_decide_eq_false_2.
Qed.

Lemma filter_none {A : Type} (P : A → Prop) `{!∀ x, Decision (P x)} (l : list A) :
  (∀ x, x ∈ l → ¬ P x) → filter P l = [].
Proof.
  induction l as [|x l IH]; intros Hno; [done|].
  rewrite filter_cons, decide_False by (apply Hno; left).
  apply IH. intros y Hy. apply Hno. by right.
Qed.

Lemma count_chunk_words (documents : list NodeData.t)
    (entities : list (string * Entity.t)) :
  foldl (λ entities doc,
           foldl (count_word (NodeData.timestamp doc)) entities
             (lower_split (NodeData.content doc)))
    entities documents
  = foldl (λ entities (p : string * datetime), count_word p.2 entities p.1)
      entities (chunk_words documents).
Proof.
  revert entities. induction documents as [|doc documents IH]; intros entities; [done|].
  cbn [foldl]. rewrite IH.
  change (chunk_words (doc :: documents))
    with (((λ word, (word, NodeData.timestamp doc))
             <$> lower_split (NodeData.content doc)) ++ chunk_words documents).
  rewrite foldl_app. f_equal.
  generalize (lower_split (NodeData.content doc)). clear.
  intros words. revert entities.
  induction words as [|w words IH]; intros entities; [done|].
  cbn [foldl fmap list_fmap]. apply IH.
Qed.

(** [_extract_key_entities] keeps the words of more than four characters
    that occur at least twice in the chunk.  The entry of such a word
    counts its occurrences, and holds the timestamp of the document of the
    first occurrence and that of the last.  A word has one entry; the
    previous state is not looked at. *)
Theorem key_entities_of_chunk (documents : list NodeData.t)
    (previous_state : TemporalCarryover) (word : string) :
  let times :=
    (filter (λ p : string * datetime, p.1 = word) (chunk_words documents)).*2 in
  dict_get (_extract_key_entities documents previous_state) word
  = match times with
    | [] => None
    | first :: _ =>
        if decide ((4 < String.length word)%nat ∧ (2 <= length times)%nat)
        then Some (Entity.mk (Z.of_nat (length times)) first
                     (default first (last times)))
        else None
    end ∧
  NoDup (_extract_key_entities documents previous_state).*1.
Proof.
  cbv zeta. unfold _extract_key_entities.
  rewrite count_chunk_words.
  destruct (count_words_entities (chunk_words documents) [] word) as [Hget Hnd].
  specialize (Hnd ltac:(constructor)).
  split.
  - rewrite dict_get_filter by done. rewrite Hget. cbn [dict_get].
    rewrite tally_None.
    set (long := filter (λ p : string * datetime,
                   p.1 = word ∧ (4 < String.length p.1)%nat) (chunk_words documents)).
    set (all := filter (λ p : string * datetime, p.1 = word) (chunk_words documents)).
    destruct (decide (4 < String.length word)%nat) as [Hlen|Hlen].
    + assert (long = all) as ->.
      { apply list_filter_iff. intros [w t]. simpl. naive_solver. }
      destruct all.*2 as [|first times] eqn:Hall; [done|].
      cbn [Entity.mentions snd].
      destruct (decide (2 ≤ Z.of_nat (length (first :: times)))).
      * rewrite decide_True by (split; [done | lia]). done.
      * rewrite decide_False by lia. done.
    + assert (long = []) as ->.
      { apply filter_none. intros [w t] _ [-> ?]. done. }
      cbn [fmap list_fmap]. destruct all.*2; [done|].
      rewrite decide_False by naive_solver. done.
  - refine (sublist_NoDup _ _ Hnd _). apply fmap_sublist, sublist_filter.
Qed.

(** ** The corpus of the similarity model *)

Lemma count_tokens_exact (tokens : list string) (freq : gmap string Z) (term : string) :
  NoDup tokens →
  foldl (λ freq token, <[token := default 0 (freq !! token) + 1]> freq) freq tokens
    !! term
  = if bool_decide (term ∈ tokens) then Some (default 0 (freq !! term) + 1)
    else freq !! term.
Proof.
  intros Hnd. revert freq.
  induction Hnd as [|token tokens Hnew Hnd IH]; intros freq; [done|].
  cbn [foldl]. rewrite IH. destruct (decide (term = token)) as [->|Hne].
  - rewrite lookup_insert_eq.
    rewrite (bool_decide_eq_false_2 (token ∈ tokens)) by done.
    by rewrite bool_decide_eq_true_2 by left.
  - rewrite lookup_insert_ne by done.
    destruct (decide (term ∈ tokens)).
    + rewrite !bool_decide_eq_true_2; [done | by right | done].
    + rewrite !bool_decide_eq_false_2; [done | set_solver | done].
Qed.

Lemma corpus_after (texts : list string) (corpus : SemanticSimilarity.t)
    (term : string) :
  SemanticSimilarity.document_count (foldl add_document corpus texts)
  = SemanticSimilarity.document_count corpus + Z.of_nat (length texts) ∧
  SemanticSimilarity.term_document_freq (foldl add_document corpus texts) !! term
  = match length (filter (λ text, term ∈ _tokenize text) texts) with
    | O => SemanticSimilarity.term_document_freq corpus !! term
    | S n =>
        Some (default 0 (SemanticSimilarity.term_document_freq corpus !! term)
              + Z.of_nat (S n))
    end.
Proof.
  revert corpus. induction texts as [|text texts IH]; intros corpus.
  - split; [simpl; lia | done].
  - cbn [foldl]. destruct (IH (add_document corpus text)) as [-> ->].
    split; [simpl; lia|].
    rewrite filter_cons. cbn [add_document SemanticSimilarity.term_document_freq].
    rewrite count_tokens_exact by apply NoDup_remove_dups.
    destruct (decide (term ∈ _tokenize text)) as [Hin|Hout].
    + rewrite bool_decide_eq_true_2 by (by apply elem_of_remove_dups).
      cbn [length default].
      generalize (default 0 (SemanticSimilarity.term_document_freq corpus !! term)).
      intros d. destruct (length (filter _ texts)); unfold Datatypes.id;
        f_equal; lia.
    + rewrite bool_decide_eq_false_2 by (by rewrite elem_of_remove_dups).
      done.
Qed.

(** After [add_document] was called with each of [texts], the document
    count is the number of texts, and the document frequency of a term is
    the number of texts that have the term among their tokens: a term of
    no text has no entry, and a text counts once however often it holds
    the term.  [compute_idf] is 0.0 for a term of no text, and the
    logarithm of the count divided by the frequency for any other. *)
Theorem document_frequencies (math_log : float → float) (texts : list string)
    (term : string) :
  let corpus := foldl add_document empty_corpus texts in
  let df := length (filter (λ text, term ∈ _tokenize text) texts) in
  SemanticSimilarity.document_count corpus = Z.of_nat (length texts) ∧
  SemanticSimilarity.term_document_freq corpus !! term
  = (if decide (df = O) then None else Some (Z.of_nat df)) ∧
  (df <= length texts)%nat ∧
  compute_idf math_log corpus term
  = (if decide (df = O) then 0%float
     else math_log (float_of_Z (Z.of_nat (length texts)) / float_of_Z (Z.of_nat df))
            %float).
Proof.
  cbv zeta. destruct (corpus_after texts empty_corpus term) as [Hc Hf].
  pose proof (length_filter (λ text, term ∈ _tokenize text) texts) as Hle.
  assert (Hf' : SemanticSimilarity.term_document_freq
                  (foldl add_document empty_corpus texts) !! term
                = if decide (length (filter (λ text, term ∈ _tokenize text) texts) = O)
                  then None
                  else Some (Z.of_nat (length (filter (λ text, term ∈ _tokenize text)
                                                 texts)))).
  { rewrite Hf. simpl. rewrite lookup_empty.
    destruct (length (filter _ texts)) as [|n]; [done|]. simpl. f_equal; try lia. }
  assert (Hc' : SemanticSimilarity.document_count
                   (foldl add_document empty_corpus texts)
                 = Z.of_nat (length texts)) by (rewrite Hc; simpl; lia).
  split_and!; [done | done | done |].
  unfold compute_idf. rewrite Hf', Hc'.
  destruct (decide (length (filter _ texts) = O)) as [Hz|Hnz].
  - cbn [default]. by destruct (Z.of_nat (length texts) =? 0).
  - unfold default. cbn [from_option]. unfold Datatypes.id.
    rewrite !(proj2 (Z.eqb_neq _ _)) by lia. done.
Qed.

(** ** The tokens of a text *)

(** A character of a token: a word character that [str.lower] keeps. *)
Definition token_char (c : ascii) : Prop :=
  is_word_char c = true ∧ ascii_lower c = c.

Lemma ascii_lower_idem (c : ascii) : ascii_lower (ascii_lower c) = ascii_lower c.
Proof. by destruct c as [[] [] [] [] [] [] [] []]. Qed.

Lemma chars_app (a b : string) :
  list_ascii_of_string (a +:+ b) = list_ascii_of_string a ++ list_ascii_of_string b.
Proof. induction a as [|c a IH]; simpl; [done|]. by rewrite <- IH. Qed.

Lemma str_app_cons (x : ascii) (a b : string) :
  String x a +:+ b = String x (a +:+ b).
Proof. reflexivity. Qed.

Lemma str_app_assoc (a b c : string) : (a +:+ b) +:+ c = a +:+ (b +:+ c).
Proof. induction a as [|x a IH]; [done|]. by rewrite !str_app_cons, IH. Qed.

Lemma str_app_empty_r (a : string) : a +:+ "" = a.
Proof. induction a as [|x a IH]; [done|]. by rewrite str_app_cons, IH. Qed.

Lemma str_lower_chars (s : string) :
  Forall (λ c, ascii_lower c = c) (list_ascii_of_string (str_lower s)).
Proof.
  induction s as [|c s IH]; simpl; constructor; [apply ascii_lower_idem | done].
Qed.

Lemma str_lower_fixed (s : string) :
  Forall (λ c, ascii_lower c = c) (list_ascii_of_string s) → str_lower s = s.
Proof.
  induction s as [|c s IH]; simpl; [done|].
  intros [Hc Hs]%Forall_cons. by rewrite Hc, IH.
Qed.

Lemma findall_words_chars (s word : string) :
  Forall (λ c, ascii_lower c = c) (list_ascii_of_string s) →
  Forall token_char (list_ascii_of_string word) →
  ∀ token, token ∈ findall_words s word →
    token ≠ "" ∧ Forall token_char (list_ascii_of_string token).
Proof.
  revert word. induction s as [|c s IH]; intros word Hs Hword token; simpl.
  - case_bool_decide; [set_solver|]. intros ->%list_elem_of_singleton. done.
  - apply Forall_cons in Hs as [Hc Hs]. destruct (is_word_char c) eqn:Hw.
    + apply IH; [done|]. rewrite chars_app. apply Forall_app. split; [done|].
      simpl. by repeat constructor.
    + intros [Hin|Hin]%elem_of_app.
      * revert Hin. case_bool_decide; [set_solver|].
        intros ->%list_elem_of_singleton. done.
      * revert Hin. apply IH; [done | constructor].
Qed.

Lemma findall_words_word (s word : string) :
  Forall (λ c, is_word_char c = true) (list_ascii_of_string s) →
  findall_words s word
  = if bool_decide (word +:+ s = "") then [] else [word +:+ s].
Proof.
  revert word. induction s as [|c s IH]; intros word Hs; simpl.
  - by rewrite str_app_empty_r.
  - apply Forall_cons in Hs as [Hc Hs]. rewrite Hc, IH by done.
    by rewrite str_app_assoc.
Qed.

(** Every token that [_tokenize] returns is longer than two characters,
    is no stopword, and is made of word characters that lowering keeps
    (lower-case letters, digits, the underscore); tokenizing the token
    gives the token back. *)
Theorem tokens_of_text (text token : string) :
  token ∈ _tokenize text →
  (2 < String.length token)%nat ∧ (token ∉ stopwords) ∧
  Forall token_char (list_ascii_of_string token) ∧
  _tokenize token = [token].
Proof.
  unfold _tokenize. intros [[Hstop Hlen] Hin]%list_elem_of_filter.
  destruct (findall_words_chars (str_lower text) "" (str_lower_chars text)
              (Forall_nil_2 _) token Hin) as [Hne Hchars].
  split_and!; [done | done | done |].
  rewrite str_lower_fixed
    by (eapply Forall_impl; [exact Hchars | by intros c [_ Hc]]).
  rewrite findall_words_word
    by (eapply Forall_impl; [exact Hchars | by intros c [Hc _]]).
  change ("" +:+ token) with token. rewrite bool_decide_eq_false_2 by done.
  rewrite filter_cons, decide_True by done. done.
Qed.

Lemma tokens_of_text_witness :
  "contract" ∈ _tokenize "The Contract was signed." ∧
  ((2 < String.length "contract")%nat ∧ ("contract" ∉ stopwords) ∧
   Forall token_char (list_ascii_of_string "contract") ∧
   _tokenize "contract" = ["contract"]).
Proof.
  assert (H : "contract" ∈ _tokenize "The Contract was signed.")
    by (vm_compute; left).
  exact (conj H (tokens_of_text "The Contract was signed." "contract" H)).
Defined.

(** ** Term frequencies *)

Lemma counter_get (tokens : list string) (counts : list (string * Z)) (k : string) :
  dict_get
    (foldl (λ counts token, dict_set counts token (default 0 (dict_get counts token) + 1))
       counts tokens) k
  = match length (filter (λ token, token = k) tokens) with
    | O => dict_get counts k
    | S n => Some (default 0 (dict_get counts k) + Z.of_nat (S n))
    end.
Proof.
  revert counts. induction tokens as [|token tokens IH]; intros counts; [done|].
  cbn [foldl]. rewrite IH, dict_get_set, filter_cons.
  destruct (decide (token = k)) as [->|Hne].
  - rewrite bool_decide_eq_true_2 by done. cbn [length].
    generalize (default 0 (dict_get counts k)). intros d.
    destruct (length (filter _ tokens)); unfold default; cbn [from_option];
      unfold Datatypes.id; f_equal; lia.
  - by rewrite bool_decide_eq_false_2 by done.
Qed.

Lemma counter_keys (tokens : list string) (counts : list (string * Z)) :
  NoDup counts.*1 →
  NoDup (foldl (λ counts token,
                  dict_set counts token (default 0 (dict_get counts token) + 1))
           counts tokens).*1.
Proof.
  revert counts. induction tokens as [|token tokens IH]; intros counts Hnd; [done|].
  cbn [foldl]. apply IH. by apply dict_set_NoDup.
Qed.

Lemma dict_get_values {V W : Type} (f : string → V → W) (d : list (string * V)) k :
  dict_get ((λ item : string * V, (item.1, f item.1 item.2)) <$> d) k
  = f k <$> dict_get d k.
Proof.
  induction d as [|[k0 v0] d IH]; [done|]. rewrite fmap_cons. cbn [dict_get fst snd].
  case_bool_decide as Hk; [by subst | apply IH].
Qed.

Lemma dict_values_keys {V W : Type} (f : string → V → W) (d : list (string * V)) :
  ((λ item : string * V, (item.1, f item.1 item.2)) <$> d).*1 = d.*1.
Proof. induction d as [|[k0 v0] d IH]; [done|]. rewrite !fmap_cons. by f_equal. Qed.

(** The TF-IDF vector of a text has one entry for each distinct token of
    the text and none for another term: the entry of a token is the number
    of its occurrences divided by the number of tokens, times its inverse
    document frequency.  A text without tokens has similarity 0.0 with
    every text. *)
Theorem tfidf_vector_entries (math_log : float → float) (alg : sum_algorithm)
    (iter : list string → list string) (corpus : SemanticSimilarity.t)
    (text : string) :
  let tokens := _tokenize text in
  let vec := compute_tfidf_vector math_log corpus text in
  NoDup vec.*1 ∧
  (∀ term, dict_get vec term
     = if decide (term ∈ tokens)
       then Some (float_of_Z (Z.of_nat (length (filter (λ token, token = term) tokens)))
                  / float_of_Z (Z.of_nat (length tokens))
                  * compute_idf math_log corpus term)%float
       else None) ∧
  (tokens = [] → ∀ other,
     similarity math_log alg iter corpus text other = 0%float ∧
     similarity math_log alg iter corpus other text = 0%float).
Proof.
  cbv zeta. unfold compute_tfidf_vector, compute_tf. split_and!.
  - rewrite (dict_values_keys (λ k v, (v * compute_idf math_log corpus k)%float)).
    rewrite (dict_values_keys
               (λ _ v, (float_of_Z v / float_of_Z (Z.of_nat (length (_tokenize text))))
                         %float)).
    apply counter_keys. constructor.
  - intros term.
    rewrite (dict_get_values (λ k v, (v * compute_idf math_log corpus k)%float)).
    rewrite (dict_get_values
               (λ _ v, (float_of_Z v / float_of_Z (Z.of_nat (length (_tokenize text))))
                         %float)).
    rewrite counter_get. cbn [dict_get].
    destruct (decide (term ∈ _tokenize text)) as [Hin|Hout].
    + destruct (length (filter _ (_tokenize text))) as [|n] eqn:Hn.
      * apply length_zero_iff_nil in Hn.
        assert (Hterm : term ∈ filter (λ token, token = term) (_tokenize text))
          by (by apply list_elem_of_filter).
        rewrite Hn in Hterm. by apply elem_of_nil in Hterm.
      * cbn [fmap option_fmap option_map default from_option].
        unfold Datatypes.id. by rewrite Z.add_0_l.
    + rewrite filter_none; [done|]. by intros x Hx ->.
  - intros Hnone other. unfold similarity, compute_tfidf_vector, compute_tf.
    rewrite Hnone. cbn [foldl fmap list_fmap]. unfold cosine_similarity.
    split; [done|]. by destruct (_ <$> _).
Qed.

(** ** The API object *)

Lemma TemporalRelation_of_value (r : TemporalRelation) :
  TemporalRelation_of (TemporalRelation_value r) = Some r.
Proof. by destruct r. Qed.

Lemma TemporalRelation_of_Some (value : string) (r : TemporalRelation) :
  TemporalRelation_of value = Some r → TemporalRelation_value r = value.
Proof.
  unfold TemporalRelation_of. intros [rest H]%head_Some.
  assert (Hin : r ∈ filter (λ r, TemporalRelation_value r = value)
                      [SEQUENTIAL; CAUSAL; CONCURRENT; BRANCH; MERGE])
    by (rewrite H; left).
  by apply list_elem_of_filter in Hin as [? _].
Qed.

(** What one call of [api_add_document] does to a state of the model. *)
Lemma api_add_document_effect (now : datetime) (s : TOTGAPI.t)
    (doc_id content : string) (timestamp : datetime)
    (metadata : option (gmap string string)) :
  let r := api_add_document now s doc_id content timestamp metadata in
  AddDocumentResult.success r.1 = true ∧
  AddDocumentResult.message r.1 = "Document added successfully" ∧
  get_document (TOTGAPI.graph r.2) doc_id
  = Some (NodeData.mk doc_id timestamp "content" content (default ∅ metadata)) ∧
  (∀ other, other ≠ doc_id →
     get_document (TOTGAPI.graph r.2) other = get_document (TOTGAPI.graph s) other) ∧
  last (get_layer_nodes (TOTGAPI.graph r.2) (_compute_layer_id timestamp))
  = Some doc_id ∧
  edges (TOTGAPI.graph r.2) = edges (TOTGAPI.graph s) ∧
  reverse_edges (TOTGAPI.graph r.2) = reverse_edges (TOTGAPI.graph s) ∧
  TOTGAPI.markovian r.2 = TOTGAPI.markovian s ∧
  match TOTGAPI.attention s, TOTGAPI.attention r.2 with
  | None, None => True
  | Some a, Some a' =>
      SemanticSimilarity.document_count (Attention.semantic_sim a')
      = SemanticSimilarity.document_count (Attention.semantic_sim a) + 1 ∧
      Attention.attention_cache a' = [] ∧
      Attention.cache_timestamp a' = now ∧
      Attention.attention_heads a' = Attention.attention_heads a
  | _, _ => False
  end.
Proof.
  cbv zeta. unfold api_add_document, get_document, get_layer_nodes.
  cbn [fst snd add_node TOTGAPI.graph TOTGAPI.markovian TOTGAPI.attention
       AddDocumentResult.success AddDocumentResult.message nodes edges
       reverse_edges layers new_node id layer_id].
  split_and!; try done.
  - by rewrite lookup_insert_eq.
  - intros other Hother. by rewrite lookup_insert_ne.
  - unfold dd_get, dd_append. rewrite lookup_insert_eq. cbn [default from_option].
    unfold Datatypes.id. by rewrite last_snoc.
  - by destruct (TOTGAPI.attention s).
Qed.

(** On an API object that was only given documents with naive datetimes
    (a run of calls from a new [TOTGAPI], where every stored timestamp is
    naive and [add_node] cannot fail), [TOTGAPI.add_document] with a naive
    datetime reports success, and the document can be read back at once:
    [get_document] returns the id, the timestamp, the type ["content"],
    the content and the metadata that were given, and every other document
    as before.  The document is the last of its week's layer.  The
    relationships stay as they are, also those of a document that is
    replaced.  With the attention system on, the corpus counts one
    document more and the cache is empty. *)
Theorem add_document_round_trip
    (values_of : gmap string TemporalNode → list TemporalNode)
    (calls : list (datetime * api_call)) (now : datetime)
    (doc_id content : string) (timestamp : datetime)
    (metadata : option (gmap string string)) :
  let s := run_api values_of calls in
  let r := api_add_document now s doc_id content timestamp metadata in
  AddDocumentResult.success r.1 = true ∧
  AddDocumentResult.message r.1 = "Document added successfully" ∧
  get_document (TOTGAPI.graph r.2) doc_id
  = Some (NodeData.mk doc_id timestamp "content" content (default ∅ metadata)) ∧
  (∀ other, other ≠ doc_id →
     get_document (TOTGAPI.graph r.2) other = get_document (TOTGAPI.graph s) other) ∧
  last (get_layer_nodes (TOTGAPI.graph r.2) (_compute_layer_id timestamp))
  = Some doc_id ∧
  edges (TOTGAPI.graph r.2) = edges (TOTGAPI.graph s) ∧
  reverse_edges (TOTGAPI.graph r.2) = reverse_edges (TOTGAPI.graph s) ∧
  TOTGAPI.markovian r.2 = TOTGAPI.markovian s ∧
  match TOTGAPI.attention s, TOTGAPI.attention r.2 with
  | None, None => True
  | Some a, Some a' =>
      SemanticSimilarity.document_count (Attention.semantic_sim a')
      = SemanticSimilarity.document_count (Attention.semantic_sim a) + 1 ∧
      Attention.attention_cache a' = [] ∧
      Attention.cache_timestamp a' = now ∧
      Attention.attention_heads a' = Attention.attention_heads a
  | _, _ => False
  end.
Proof.
  exact (api_add_document_effect now (run_api values_of calls) doc_id content
           timestamp metadata).
Qed.

(** [TOTGAPI.add_relationship] accepts exactly the five relation values.
    With any other string it reports the failure and changes nothing, the
    attention cache included.  With a relation value it succeeds exactly
    when both documents can be read with [get_document]; then the edge is
    there at once for [has_edge] and the direct neighbour queries; when a
    document is missing the edges stay as they are.  In both cases the
    documents are untouched and a cache of the attention system is
    emptied. *)
Theorem add_relationship_outcome (now : datetime) (s : TOTGAPI.t)
    (from_doc to_doc relation_type : string)
    (metadata : option (gmap string string)) :
  let r := api_add_relationship now s from_doc to_doc relation_type metadata in
  ((∀ rel, TemporalRelation_value rel ≠ relation_type) →
   r = (InvalidRelationType
          ("Invalid relation type: " +:+ relation_type
           +:+ ". Use: sequential, causal, concurrent, branch, merge"), s)) ∧
  (∀ rel, TemporalRelation_value rel = relation_type →
   ∃ success,
     r.1 = Relationship success from_doc to_doc relation_type
             (if success then "Relationship added successfully"
              else "Failed to add relationship") ∧
     (success = true ↔
      is_Some (get_document (TOTGAPI.graph s) from_doc) ∧
      is_Some (get_document (TOTGAPI.graph s) to_doc)) ∧
     (success = true →
      has_edge (TOTGAPI.graph r.2) from_doc to_doc = true ∧
      to_doc ∈ get_direct_successors (TOTGAPI.graph r.2) from_doc ∧
      from_doc ∈ get_direct_predecessors (TOTGAPI.graph r.2) to_doc ∧
      last (dd_get (edges (TOTGAPI.graph r.2)) from_doc)
      = Some (mkEdge from_doc to_doc rel (default ∅ metadata))) ∧
     (success = false →
      edges (TOTGAPI.graph r.2) = edges (TOTGAPI.graph s) ∧
      reverse_edges (TOTGAPI.graph r.2) = reverse_edges (TOTGAPI.graph s)) ∧
     nodes (TOTGAPI.graph r.2) = nodes (TOTGAPI.graph s) ∧
     TOTGAPI.attention r.2 = invalidate_cache now <$> TOTGAPI.attention s ∧
     TOTGAPI.markovian r.2 = TOTGAPI.markovian s).
Proof.
  cbv zeta. unfold api_add_relationship. split.
  - intros Hnone. destruct (TemporalRelation_of relation_type) as [rel|] eqn:Hr;
      [|done].
    apply TemporalRelation_of_Some in Hr. by destruct (Hnone rel).
  - intros rel <-. rewrite TemporalRelation_of_value.
    cbn [fst snd TOTGAPI.graph TOTGAPI.attention TOTGAPI.markovian].
    set (edge := mkEdge from_doc to_doc rel (default ∅ metadata)).
    exists (add_edge (TOTGAPI.graph s) edge).1.
    split; [done|]. unfold get_document. rewrite !fmap_is_Some.
    unfold add_edge. change (from_node edge) with from_doc.
    change (to_node edge) with to_doc.
    destruct (nodes (TOTGAPI.graph s) !! from_doc) as [from_n|] eqn:Hf;
      [destruct (nodes (TOTGAPI.graph s) !! to_doc) as [to_n|] eqn:Ht|].
    + set (g1 := if is_sequential_or_causal (relation edge)
                    && (timestamp to_n <? timestamp from_n)
                 then print (TOTGAPI.graph s)
                        "Warning: temporal edge goes backward in time"
                 else TOTGAPI.graph s).
      assert (Hg1 : nodes g1 = nodes (TOTGAPI.graph s) ∧
                    edges g1 = edges (TOTGAPI.graph s) ∧
                    reverse_edges g1 = reverse_edges (TOTGAPI.graph s))
        by (unfold g1; by destruct (_ && _)).
      clearbody g1. destruct Hg1 as (Hn & He & Hre).
      cbn [fst snd nodes edges reverse_edges].
      split_and!; [done | | done | done | done | done].
      intros _. unfold has_edge, get_direct_successors, get_direct_predecessors,
        dd_get, dd_append.
      cbn [edges reverse_edges]. rewrite !lookup_insert_eq.
      cbn [default from_option]. unfold Datatypes.id. split_and!.
      * rewrite existsb_app. cbn [existsb]. change (to_node edge) with to_doc.
        rewrite bool_decide_eq_true_2 by done. by rewrite orb_true_r.
      * rewrite fmap_app. apply elem_of_app. right. left.
      * rewrite fmap_app. apply elem_of_app. right. left.
      * by rewrite last_snoc.
    + cbn [fst snd]. split_and!; try done.
      * split; [done|]. by intros [_ []].
    + cbn [fst snd]. split_and!; try done.
      * split; [done|]. by intros [[] _].
Qed.

(** The operations on the graph that a sequence of API calls performs. *)
Definition graph_calls (calls : list (datetime * api_call)) : list graph_op :=
  calls ≫= λ call,
    match call.2 with
    | AddDocument doc_id text ts metadata =>
        [AddNode (new_node doc_id ts CONTENT text (default ∅ metadata))]
    | AddRelationship from_doc to_doc relation_type metadata =>
        match TemporalRelation_of relation_type with
        | Some rel => [AddEdge (mkEdge from_doc to_doc rel (default ∅ metadata))]
        | None => []
        end
    | EnsureAttention | EnsureMarkovian _ => []
    end.

(** The chunk sizes that the calls offer to [_ensure_markovian]. *)
Definition chunk_sizes (calls : list (datetime * api_call)) : list Z :=
  omap (λ call : datetime * api_call,
          match call.2 with EnsureMarkovian size => Some size | _ => None end) calls.

(** The contents that the calls of [add_document] bring. *)
Definition later_texts (calls : list (datetime * api_call)) : list string :=
  omap (λ call : datetime * api_call,
          match call.2 with AddDocument _ text _ _ => Some text | _ => None end) calls.

(** The contents of the stored nodes that are not empty. *)
Definition stored_texts (g : TemporalGraph) : list string :=
  filter (λ text, text ≠ "") (content <$> (map_to_list (nodes g)).*2).

Lemma run_graph values_of (s : TOTGAPI.t) (calls : list (datetime * api_call)) :
  TOTGAPI.graph (foldl (api_step values_of) s calls)
  = foldl apply_op (TOTGAPI.graph s) (graph_calls calls).
Proof.
  revert s. induction calls as [|[now call] calls IH]; intros s; [done|].
  cbn [foldl]. rewrite IH. unfold graph_calls. rewrite bind_cons, foldl_app.
  f_equal. unfold api_step. cbn [fst snd].
  destruct call as [doc_id text ts metadata|from_doc to_doc relation_type metadata| |size].
  - done.
  - unfold api_add_relationship.
    by destruct (TemporalRelation_of relation_type).
  - unfold _ensure_attention. by destruct (TOTGAPI.attention s).
  - unfold _ensure_markovian. by destruct (TOTGAPI.markovian s).
Qed.

Lemma run_markovian values_of (s : TOTGAPI.t) (calls : list (datetime * api_call)) :
  TOTGAPI.markovian (foldl (api_step values_of) s calls)
  = match TOTGAPI.markovian s with
    | Some size => Some size
    | None => head (chunk_sizes calls)
    end.
Proof.
  revert s. induction calls as [|[now call] calls IH]; intros s.
  - simpl. by destruct (TOTGAPI.markovian s).
  - cbn [foldl]. rewrite IH. unfold api_step. cbn [fst snd].
    destruct call as [doc_id text ts metadata|from_doc to_doc relation_type metadata| |size].
    + done.
    + unfold api_add_relationship.
      by destruct (TemporalRelation_of relation_type).
    + unfold _ensure_attention. by destruct (TOTGAPI.attention s).
    + unfold _ensure_markovian.
      destruct (TOTGAPI.markovian s) as [size0|] eqn:Hm; [by rewrite Hm | done].
Qed.

(** The graph of the API after any calls of [add_document] (with naive
    datetimes), [add_relationship], [_ensure_attention] and
    [_ensure_markovian] is the graph built by [add_node] for every
    document, of type content, and by [add_edge] for every relationship
    with a valid relation value, in the order of the calls.  The analyzer
    keeps the chunk size of the first call that made it:
    [analyze_long_chain] runs on the present graph with that size and
    ignores the [chunk_size_days] it is given later. *)
Theorem state_of_api (values_of : gmap string TemporalNode → list TemporalNode)
    (iter : list string → list string) (calls : list (datetime * api_call))
    (start_doc_id : string) (end_doc_id : option string)
    (max_days chunk_size_days : Z) :
  TOTGAPI.graph (run_api values_of calls) = build (graph_calls calls) ∧
  TOTGAPI.markovian (run_api values_of calls) = head (chunk_sizes calls) ∧
  api_analyze_long_chain iter (run_api values_of calls) start_doc_id end_doc_id
    max_days chunk_size_days
  = analyze_long_chain iter
      (mkMarkovian (build (graph_calls calls))
         (default chunk_size_days (head (chunk_sizes calls))) 10 20 15)
      start_doc_id end_doc_id max_days.
Proof.
  assert (Hg : TOTGAPI.graph (run_api values_of calls) = build (graph_calls calls))
    by apply run_graph.
  assert (Hm : TOTGAPI.markovian (run_api values_of calls) = head (chunk_sizes calls))
    by apply (run_markovian values_of new_api).
  split_and!; [done | done |].
  unfold api_analyze_long_chain, _ensure_markovian. rewrite Hm.
  destruct (head (chunk_sizes calls)) as [size|];
    cbn [TOTGAPI.graph TOTGAPI.markovian default from_option]; by rewrite ?Hm, Hg.
Qed.

Lemma _initialize_semantic_model_fold (values : list TemporalNode)
    (corpus : SemanticSimilarity.t) :
  foldl (λ sim node,
           if bool_decide (content node = "") then sim
           else add_document sim (content node)) corpus values
  = foldl add_document corpus (filter (λ text, text ≠ "") (content <$> values)).
Proof.
  revert corpus. induction values as [|node values IH]; intros corpus; [done|].
  cbn [foldl]. rewrite fmap_cons, filter_cons, IH.
  case_bool_decide as Hc.
  - by rewrite decide_False by (by intros ?).
  - by rewrite decide_True by done.
Qed.

Lemma run_attention_none values_of (s : TOTGAPI.t)
    (calls : list (datetime * api_call)) :
  TOTGAPI.attention s = None →
  Forall (λ call : datetime * api_call, call.2 ≠ EnsureAttention) calls →
  TOTGAPI.attention (foldl (api_step values_of) s calls) = None.
Proof.
  intros Hs Hcalls. revert s Hs.
  induction Hcalls as [|[now call] calls Hcall Hcalls IH]; intros s Hs; [done|].
  cbn [foldl]. apply IH. unfold api_step. cbn [fst snd] in *.
  destruct call as [doc_id text ts metadata|from_doc to_doc relation_type metadata| |size].
  - unfold api_add_document. cbn [snd TOTGAPI.attention]. by rewrite Hs.
  - unfold api_add_relationship.
    destruct (TemporalRelation_of relation_type); [|done].
    cbn [snd TOTGAPI.attention]. by rewrite Hs.
  - done.
  - unfold _ensure_markovian. by destruct (TOTGAPI.markovian s).
Qed.

Lemma run_attention_some values_of (s : TOTGAPI.t) (a : Attention.t)
    (calls : list (datetime * api_call)) :
  TOTGAPI.attention s = Some a →
  ∃ a', TOTGAPI.attention (foldl (api_step values_of) s calls) = Some a' ∧
        Attention.semantic_sim a'
        = foldl add_document (Attention.semantic_sim a) (later_texts calls) ∧
        Attention.attention_heads a' = Attention.attention_heads a.
Proof.
  revert s a. induction calls as [|[now call] calls IH]; intros s a Hs.
  - by exists a.
  - cbn [foldl]. unfold api_step at 2. cbn [fst snd].
    destruct call as [doc_id text ts metadata|from_doc to_doc relation_type metadata| |size].
    + assert (Hs' : TOTGAPI.attention
                      (api_add_document now s doc_id text ts metadata).2
                    = Some (Attention.mk (add_document (Attention.semantic_sim a) text)
                              (Attention.attention_heads a) [] now
                              (Attention.cache_ttl_minutes a) (Attention.stats a)))
        by (unfold api_add_document; cbn [snd TOTGAPI.attention]; by rewrite Hs).
      destruct (IH _ _ Hs') as (a' & Ha' & Hsim & Hheads).
      exists a'. by split_and!.
    + unfold api_add_relationship.
      destruct (TemporalRelation_of relation_type).
      * assert (Hs' : TOTGAPI.attention
                        (TOTGAPI.mk
                           (add_edge (TOTGAPI.graph s)
                              (mkEdge from_doc to_doc t (default ∅ metadata))).2
                           (invalidate_cache now <$> TOTGAPI.attention s)
                           (TOTGAPI.markovian s))
                      = Some (invalidate_cache now a))
          by (cbn [TOTGAPI.attention]; by rewrite Hs).
        destruct (IH _ _ Hs') as (a' & Ha' & Hsim & Hheads).
        exists a'. by split_and!.
      * cbn [snd]. by apply IH.
    + unfold _ensure_attention. rewrite Hs. by apply IH.
    + apply IH. unfold _ensure_markovian. by destruct (TOTGAPI.markovian s).
Qed.

Lemma corpus_of_texts (texts : list string) (term : string) :
  SemanticSimilarity.document_count (foldl add_document empty_corpus texts)
  = Z.of_nat (length texts) ∧
  SemanticSimilarity.term_document_freq (foldl add_document empty_corpus texts) !! term
  = if decide (length (filter (λ text, term ∈ _tokenize text) texts) = O) then None
    else Some (Z.of_nat (length (filter (λ text, term ∈ _tokenize text) texts))).
Proof.
  destruct (corpus_after texts empty_corpus term) as [Hc Hf]. split.
  - rewrite Hc. simpl. lia.
  - rewrite Hf. simpl. rewrite lookup_empty.
    destruct (length (filter _ texts)) as [|n]; [done|]. simpl. f_equal; try lia.
Qed.

Section Corpus.
(** The order of [self.graph.nodes.values()], whatever it is. *)
Variable values_of : gmap string TemporalNode → list TemporalNode.
Hypothesis values_of_perm : ∀ m, values_of m ≡ₚ (map_to_list m).*2.

(** When the attention system is made, its corpus takes the content of
    every stored node whose content is not empty; afterwards every call of
    [add_document] adds its content, also an empty one and also that of a
    document that replaces another.  So the document count is the number
    of stored non-empty contents at that time plus the number of later
    calls, and the document frequency of a term counts the texts among
    these that have the term as a token.  The heads are the four default
    heads. *)
Theorem corpus_of_api (calls1 calls2 : list (datetime * api_call)) (now : datetime)
    (term : string) :
  Forall (λ call : datetime * api_call, call.2 ≠ EnsureAttention) calls1 →
  ∃ a,
    TOTGAPI.attention (run_api values_of (calls1 ++ (now, EnsureAttention) :: calls2))
    = Some a ∧
    Attention.semantic_sim a
    = foldl add_document empty_corpus
        (filter (λ text, text ≠ "")
           (content <$> values_of (nodes (build (graph_calls calls1))))
         ++ later_texts calls2) ∧
    SemanticSimilarity.document_count (Attention.semantic_sim a)
    = Z.of_nat (length (stored_texts (build (graph_calls calls1)))
                + length (later_texts calls2)) ∧
    SemanticSimilarity.term_document_freq (Attention.semantic_sim a) !! term
    = (if decide (length (filter (λ text, term ∈ _tokenize text)
                            (stored_texts (build (graph_calls calls1))
                             ++ later_texts calls2)) = O)
       then None
       else Some (Z.of_nat (length (filter (λ text, term ∈ _tokenize text)
                                      (stored_texts (build (graph_calls calls1))
                                       ++ later_texts calls2))))) ∧
    Attention.attention_heads a = default_heads.
Proof.
  intros Hcalls1. unfold run_api. rewrite foldl_app. cbn [foldl].
  pose proof (run_attention_none values_of new_api calls1 eq_refl Hcalls1) as Hnone.
  pose proof (run_graph values_of new_api calls1) as Hg.
  change (foldl apply_op (TOTGAPI.graph new_api) (graph_calls calls1))
    with (build (graph_calls calls1)) in Hg.
  set (s1 := foldl (api_step values_of) new_api calls1) in *.
  unfold api_step at 2. cbn [fst snd]. unfold _ensure_attention. rewrite Hnone, Hg.
  destruct (run_attention_some values_of
              (TOTGAPI.mk (build (graph_calls calls1))
                 (Some (new_attention
                          (values_of (nodes (build (graph_calls calls1)))) now))
                 (TOTGAPI.markovian s1))
              _ calls2 eq_refl) as (a & Ha & Hsim & Hheads).
  exists a. split; [exact Ha|]. clear Ha.
  cbn [new_attention Attention.semantic_sim Attention.attention_heads] in Hsim, Hheads.
  unfold _initialize_semantic_model in Hsim.
  rewrite _initialize_semantic_model_fold, <- foldl_app in Hsim.
  assert (Hperm : filter (λ text, text ≠ "")
                    (content <$> values_of (nodes (build (graph_calls calls1))))
                    ++ later_texts calls2
                  ≡ₚ stored_texts (build (graph_calls calls1)) ++ later_texts calls2).
  { unfold stored_texts. by rewrite values_of_perm. }
  destruct (corpus_of_texts
              (filter (λ text, text ≠ "")
                 (content <$> values_of (nodes (build (graph_calls calls1))))
               ++ later_texts calls2) term) as [Hc Hf].
  split_and!; [done | | | done].
  - rewrite Hsim, Hc. f_equal. rewrite <- length_app. by apply Permutation_length.
  - rewrite Hsim, Hf.
    assert (Hlen : length (filter (λ text, term ∈ _tokenize text)
                             (filter (λ text, text ≠ "")
                                (content <$> values_of
                                               (nodes (build (graph_calls calls1))))
                              ++ later_texts calls2))
                   = length (filter (λ text, term ∈ _tokenize text)
                               (stored_texts (build (graph_calls calls1))
                                ++ later_texts calls2)))
      by (apply Permutation_length; by rewrite Hperm).
    by rewrite Hlen.
Qed.
End Corpus.

(** Two documents, one of them empty, before the attention system is made;
    one of them replaced afterwards. *)
Definition calls_before : list (datetime * api_call) :=
  [ (day 100, AddDocument "contract" "Contract signed" (day 0) None);
    (day 100, AddDocument "note" "" (day 1) None) ].

Definition calls_after : list (datetime * api_call) :=
  [ (day 102, AddDocument "contract" "Contract amended" (day 2) None) ].

Lemma corpus_of_api_witness :
  Forall (λ call : datetime * api_call, call.2 ≠ EnsureAttention) calls_before ∧
  ∃ a,
    TOTGAPI.attention
      (run_api (λ m, (map_to_list m).*2)
         (calls_before ++ (day 101, EnsureAttention) :: calls_after))
    = Some a ∧
    SemanticSimilarity.document_count (Attention.semantic_sim a) = 2 ∧
    SemanticSimilarity.term_document_freq (Attention.semantic_sim a) !! "contract"
    = Some 2.
Proof.
  assert (H : Forall (λ call : datetime * api_call, call.2 ≠ EnsureAttention)
                calls_before) by (repeat constructor; done).
  split; [exact H|].
  destruct (corpus_of_api (λ m, (map_to_list m).*2) (λ m, reflexivity _)
              calls_before calls_after (day 101) "contract" H)
    as (a & Ha & _ & Hc & Hf & _).
  exists a. split; [exact Ha|]. split.
  - rewrite Hc. vm_compute. reflexivity.
  - rewrite Hf. vm_compute. reflexivity.
Defined.

(** ** The summaries of a period *)



